(** * imsplay WASM adapters: playback sessions and the virtual file store

    A shallow embedding of [src/wasm/adplug/adapter.cpp] (the tick-driven
    AdPlug session with its in-memory file store) and of
    [src/wasm/libopenmpt/adapter.cpp] (the frame-pull libopenmpt session).

    Conventions of the embedding.
    - The process-wide globals of each adapter become the fields of one
      record; every exported function is a function on that record.
    - Pointers that the code tests against null are [option]s.
    - [std::map<std::string, FileData>] is a [gmap string FileData]; its
      in-order traversal is the key-sorted list of its bindings.
    - The [new uint8_t[]] blocks owned by the store live in an explicit heap
      ([gmap addr (list byte)]), so that releasing a block is visible.
    - [int] and [size_t] values are [Z]; [unsigned long] is a 32-bit [Z]
      (the adapters are built for wasm32) with the wrap-around of [+=] and
      [++] written out.
    - [float] and [double] values are exact rationals [Q]: the rounding of
      IEEE arithmetic, NaN and the infinities are not modelled.
    - The wrapped libraries (AdPlug's [CPlayer]/[CNemuopl]/[CAdPlug::factory]
      and libopenmpt's module API) are interfaces whose implementation is a
      parameter of the development. *)

From Stdlib Require Import ZArith QArith Qround Lqa Ascii String List.
From Stdlib.Strings Require Import Byte.
From stdpp Require Import gmap strings list fin_maps sorting.

Local Open Scope Z_scope.

(** ** Numeric conversions *)

(** [unsigned long] arithmetic on wasm32. *)
Definition ULONG_MODULUS : Z := 2 ^ 32.
Definition wrap_ulong (z : Z) : Z := z mod ULONG_MODULUS.

(** [static_cast<int>(x)] and [static_cast<unsigned long>(x)] on a
    floating value: the fractional part is discarded (truncation toward
    zero).  The conversion is only defined by C++ when the result fits the
    target type; the model keeps the mathematical value. *)
Definition Qtrunc (q : Q) : Z := Z.quot (Qnum q) (Zpos (Qden q)).

Definition Qltb (x y : Q) : bool := negb (Qle_bool y x).

(** ** C strings in fixed-capacity fields *)

Definition NUL : ascii := Ascii.zero.

(** The characters of a C string: everything before the first NUL. *)
Fixpoint until_nul (l : list ascii) : list ascii :=
  match l with
  | [] => []
  | c :: r => if Ascii.eqb c NUL then [] else c :: until_nul r
  end.

Definition c_str (s : string) : list ascii :=
  until_nul (list_ascii_of_string s).

(** [strncpy(dst, src.c_str(), n)]: exactly [n] characters are written, the
    characters of [src] followed by NUL padding; no terminator is written
    when [src] has [n] or more characters. *)
Definition strncpy (dst : list ascii) (src : string) (n : nat) : list ascii :=
  list_inserts 0 (take n (c_str src ++ replicate n NUL)) dst.

(** The text of a fixed-capacity field: up to its first NUL. *)
Definition field_text (buf : list ascii) : string :=
  string_of_list_ascii (until_nul buf).

(** ** Text helpers of the AdPlug adapter *)

(** [toLower]: bytes in ['A'..'Z'] are moved to ['a'..'z'], all others kept. *)
Definition lower_char (c : ascii) : ascii :=
  let n := N_of_ascii c in
  if ((65 <=? n) && (n <=? 90))%N then ascii_of_N (n - 65 + 97) else c.

Fixpoint toLower (s : string) : string :=
  match s with
  | EmptyString => EmptyString
  | String c r => String (lower_char c) (toLower r)
  end.

Definition is_path_sep (c : ascii) : bool :=
  (Ascii.eqb c "/" || Ascii.eqb c "\")%char.

(** [path.find_last_of("/\\")], counting positions from [i]; [None] is
    [std::string::npos]. *)
Fixpoint find_last_of_sep (s : string) (i : nat) : option nat :=
  match s with
  | EmptyString => None
  | String c r =>
      match find_last_of_sep r (S i) with
      | Some j => Some j
      | None => if is_path_sep c then Some i else None
      end
  end.

(** [path.substr(pos)]: the characters from index [pos] to the end. *)
Fixpoint substr_from (pos : nat) (s : string) : string :=
  match pos, s with
  | O, _ => s
  | S p, EmptyString => EmptyString
  | S p, String _ r => substr_from p r
  end.

Definition getFilename (path : string) : string :=
  match find_last_of_sep path 0 with
  | Some pos => substr_from (pos + 1) path
  | None => path
  end.

(** ** The virtual file store *)

Abbreviation addr := positive.

Record FileData := mkFileData { data : addr; size : Z }.

Abbreviation heap_t := (gmap positive (list byte)).

(** [new uint8_t[n]] followed by [memcpy(dst, src, n)]. *)
Definition memcpy_new (h : heap_t) (src : list byte) (n : Z) : addr * heap_t :=
  let a := fresh (dom h) in
  (a, <[a := take (Z.to_nat n) src]> h).

(** [delete[] p]. *)
Definition delete_block (h : heap_t) (a : addr) : heap_t := delete a h.

(** The bytes a [FileData] designates: the first [size] bytes of its block
    (none if the block is not live, which [store_owns] below excludes). *)
Definition file_bytes (h : heap_t) (fd : FileData) : list byte :=
  take (Z.to_nat (size fd)) (default [] (h !! data fd)).

(** [std::less<std::string>]: bytewise lexicographic order. *)
Definition key_le (p q : string * FileData) : Prop :=
  String.leb p.1 q.1 = true.

#[local] Instance key_le_dec p q : Decision (key_le p q) :=
  decide (String.leb p.1 q.1 = true).

(** [for (auto& pair : g_files)]: the bindings in increasing key order. *)
Definition files_in_order (files : gmap string FileData)
  : list (string * FileData) :=
  merge_sort key_le (map_to_list files).

Definition ci_match (lowerName : string) (kv : string * FileData) : bool :=
  String.eqb (toLower (getFilename kv.1)) lowerName.

(** Two names agree up to directory prefix and letter case. *)
Definition ci_equal (a b : string) : Prop :=
  toLower (getFilename a) = toLower (getFilename b).

#[local] Instance ci_equal_dec a b : Decision (ci_equal a b) :=
  decide (toLower (getFilename a) = toLower (getFilename b)).

(** The iterator [it] that [CProvider_Memory::open] ends up with;
    [None] is [g_files.end()]. *)
Definition open_find (files : gmap string FileData) (filename : string)
  : option (string * FileData) :=
  match files !! filename with
  | Some fd => Some (filename, fd)
  | None =>
      let justName := getFilename filename in
      match files !! justName with
      | Some fd => Some (justName, fd)
      | None =>
          let lowerName := toLower (getFilename filename) in
          match List.find (ci_match lowerName) (files_in_order files) with
          | Some kv => (λ fd, (kv.1, fd)) <$> files !! kv.1
          | None => None
          end
      end
  end.

(** [CProvider_Memory::open]: [None] is the null stream; otherwise the
    stream reads a private copy of the stored bytes.  A stream is modelled
    by the bytes it reads; the table [m_streamBuffers], which only records
    which copy to free when the stream is closed, is left out. *)
Definition CProvider_Memory_open (files : gmap string FileData) (h : heap_t)
    (filename : string) : option (list byte) :=
  match open_find files filename with
  | None => None
  | Some (_, fd) => Some (file_bytes h fd)
  end.

(** ** The AdPlug adapter ([src/wasm/adplug/adapter.cpp]) *)

Module AdPlugAdapter.

(** The part of the AdPlug library the adapter calls.  [CPlayer] and
    [CNemuopl] are the states of the player and of the OPL emulator; a
    player method that drives the chip takes the emulator state and
    returns it.  [factory] receives the file provider's [open] as a
    function from names to streams. *)
Class AdPlug := {
  CNemuopl : Type;
  CPlayer : Type;
  CNemuopl_new : Z -> CNemuopl;
  opl_init : CNemuopl -> CNemuopl;
  opl_update : CNemuopl -> Z -> list Z * CNemuopl;
  factory : string -> CNemuopl -> (string -> option (list byte))
            -> option CPlayer * CNemuopl;
  update : CPlayer -> CNemuopl -> bool * CPlayer * CNemuopl;
  getrefresh : CPlayer -> Q;
  seek : CPlayer -> CNemuopl -> Z -> CPlayer * CNemuopl;
  rewind : CPlayer -> CNemuopl -> Z -> CPlayer * CNemuopl;
  songlength : CPlayer -> CNemuopl -> Z -> Z * CPlayer * CNemuopl;
  gettitle : CPlayer -> string;
  getauthor : CPlayer -> string;
  gettype : CPlayer -> string;
  getdesc : CPlayer -> string;
  getsubsongs : CPlayer -> Z
}.

Section Adapter.
Context `{Lib : AdPlug}.

(** The globals of the adapter, under their names in the source, and
    [store_heap], the part of the C++ heap that holds the blocks owned by
    [g_files]. *)
Record emu_state := mkEmu {
  g_opl : option CNemuopl;
  g_player : option CPlayer;
  g_sampleRate : Z;
  g_audioBuffer : option (list Z);
  g_audioBufferLength : Z;
  g_currentPosition : Z;
  g_maxPosition : Z;
  g_sampleAccumulator : Q;
  g_totalSamplesGenerated : Z;
  g_currentTick : Z;
  g_title : list ascii;
  g_author : list ascii;
  g_type : list ascii;
  g_desc : list ascii;
  g_files : gmap string FileData;
  store_heap : heap_t;
  g_loopEnabled : bool
}.

Definition set_g_opl (v : option CNemuopl) (s : emu_state) : emu_state :=
  {| g_opl := v; g_player := g_player s; g_sampleRate := g_sampleRate s;
     g_audioBuffer := g_audioBuffer s; g_audioBufferLength :=
     g_audioBufferLength s; g_currentPosition := g_currentPosition s;
     g_maxPosition := g_maxPosition s; g_sampleAccumulator :=
     g_sampleAccumulator s; g_totalSamplesGenerated :=
     g_totalSamplesGenerated s; g_currentTick := g_currentTick s;
     g_title := g_title s; g_author := g_author s; g_type := g_type s;
     g_desc := g_desc s; g_files := g_files s; store_heap := store_heap s;
     g_loopEnabled := g_loopEnabled s |}.

Definition set_g_player (v : option CPlayer) (s : emu_state) : emu_state :=
  {| g_opl := g_opl s; g_player := v; g_sampleRate := g_sampleRate s;
     g_audioBuffer := g_audioBuffer s; g_audioBufferLength :=
     g_audioBufferLength s; g_currentPosition := g_currentPosition s;
     g_maxPosition := g_maxPosition s; g_sampleAccumulator :=
     g_sampleAccumulator s; g_totalSamplesGenerated :=
     g_totalSamplesGenerated s; g_currentTick := g_currentTick s;
     g_title := g_title s; g_author := g_author s; g_type := g_type s;
     g_desc := g_desc s; g_files := g_files s; store_heap := store_heap s;
     g_loopEnabled := g_loopEnabled s |}.

Definition set_g_sampleRate (v : Z) (s : emu_state) : emu_state :=
  {| g_opl := g_opl s; g_player := g_player s; g_sampleRate := v;
     g_audioBuffer := g_audioBuffer s; g_audioBufferLength :=
     g_audioBufferLength s; g_currentPosition := g_currentPosition s;
     g_maxPosition := g_maxPosition s; g_sampleAccumulator :=
     g_sampleAccumulator s; g_totalSamplesGenerated :=
     g_totalSamplesGenerated s; g_currentTick := g_currentTick s;
     g_title := g_title s; g_author := g_author s; g_type := g_type s;
     g_desc := g_desc s; g_files := g_files s; store_heap := store_heap s;
     g_loopEnabled := g_loopEnabled s |}.

Definition set_g_audioBuffer (v : option (list Z)) (s : emu_state) : emu_state :=
  {| g_opl := g_opl s; g_player := g_player s; g_sampleRate :=
     g_sampleRate s; g_audioBuffer := v; g_audioBufferLength :=
     g_audioBufferLength s; g_currentPosition := g_currentPosition s;
     g_maxPosition := g_maxPosition s; g_sampleAccumulator :=
     g_sampleAccumulator s; g_totalSamplesGenerated :=
     g_totalSamplesGenerated s; g_currentTick := g_currentTick s;
     g_title := g_title s; g_author := g_author s; g_type := g_type s;
     g_desc := g_desc s; g_files := g_files s; store_heap := store_heap s;
     g_loopEnabled := g_loopEnabled s |}.

Definition set_g_audioBufferLength (v : Z) (s : emu_state) : emu_state :=
  {| g_opl := g_opl s; g_player := g_player s; g_sampleRate :=
     g_sampleRate s; g_audioBuffer := g_audioBuffer s;
     g_audioBufferLength := v; g_currentPosition := g_currentPosition s;
     g_maxPosition := g_maxPosition s; g_sampleAccumulator :=
     g_sampleAccumulator s; g_totalSamplesGenerated :=
     g_totalSamplesGenerated s; g_currentTick := g_currentTick s;
     g_title := g_title s; g_author := g_author s; g_type := g_type s;
     g_desc := g_desc s; g_files := g_files s; store_heap := store_heap s;
     g_loopEnabled := g_loopEnabled s |}.

Definition set_g_currentPosition (v : Z) (s : emu_state) : emu_state :=
  {| g_opl := g_opl s; g_player := g_player s; g_sampleRate :=
     g_sampleRate s; g_audioBuffer := g_audioBuffer s;
     g_audioBufferLength := g_audioBufferLength s; g_currentPosition :=
     v; g_maxPosition := g_maxPosition s; g_sampleAccumulator :=
     g_sampleAccumulator s; g_totalSamplesGenerated :=
     g_totalSamplesGenerated s; g_currentTick := g_currentTick s;
     g_title := g_title s; g_author := g_author s; g_type := g_type s;
     g_desc := g_desc s; g_files := g_files s; store_heap := store_heap s;
     g_loopEnabled := g_loopEnabled s |}.

Definition set_g_maxPosition (v : Z) (s : emu_state) : emu_state :=
  {| g_opl := g_opl s; g_player := g_player s; g_sampleRate :=
     g_sampleRate s; g_audioBuffer := g_audioBuffer s;
     g_audioBufferLength := g_audioBufferLength s; g_currentPosition :=
     g_currentPosition s; g_maxPosition := v; g_sampleAccumulator :=
     g_sampleAccumulator s; g_totalSamplesGenerated :=
     g_totalSamplesGenerated s; g_currentTick := g_currentTick s;
     g_title := g_title s; g_author := g_author s; g_type := g_type s;
     g_desc := g_desc s; g_files := g_files s; store_heap := store_heap s;
     g_loopEnabled := g_loopEnabled s |}.

Definition set_g_sampleAccumulator (v : Q) (s : emu_state) : emu_state :=
  {| g_opl := g_opl s; g_player := g_player s; g_sampleRate :=
     g_sampleRate s; g_audioBuffer := g_audioBuffer s;
     g_audioBufferLength := g_audioBufferLength s; g_currentPosition :=
     g_currentPosition s; g_maxPosition := g_maxPosition s;
     g_sampleAccumulator := v; g_totalSamplesGenerated :=
     g_totalSamplesGenerated s; g_currentTick := g_currentTick s;
     g_title := g_title s; g_author := g_author s; g_type := g_type s;
     g_desc := g_desc s; g_files := g_files s; store_heap := store_heap s;
     g_loopEnabled := g_loopEnabled s |}.

Definition set_g_totalSamplesGenerated (v : Z) (s : emu_state) : emu_state :=
  {| g_opl := g_opl s; g_player := g_player s; g_sampleRate :=
     g_sampleRate s; g_audioBuffer := g_audioBuffer s;
     g_audioBufferLength := g_audioBufferLength s; g_currentPosition :=
     g_currentPosition s; g_maxPosition := g_maxPosition s;
     g_sampleAccumulator := g_sampleAccumulator s;
     g_totalSamplesGenerated := v; g_currentTick := g_currentTick s;
     g_title := g_title s; g_author := g_author s; g_type := g_type s;
     g_desc := g_desc s; g_files := g_files s; store_heap := store_heap s;
     g_loopEnabled := g_loopEnabled s |}.

Definition set_g_currentTick (v : Z) (s : emu_state) : emu_state :=
  {| g_opl := g_opl s; g_player := g_player s; g_sampleRate :=
     g_sampleRate s; g_audioBuffer := g_audioBuffer s;
     g_audioBufferLength := g_audioBufferLength s; g_currentPosition :=
     g_currentPosition s; g_maxPosition := g_maxPosition s;
     g_sampleAccumulator := g_sampleAccumulator s;
     g_totalSamplesGenerated := g_totalSamplesGenerated s; g_currentTick
     := v; g_title := g_title s; g_author := g_author s; g_type :=
     g_type s; g_desc := g_desc s; g_files := g_files s; store_heap :=
     store_heap s; g_loopEnabled := g_loopEnabled s |}.

Definition set_g_title (v : list ascii) (s : emu_state) : emu_state :=
  {| g_opl := g_opl s; g_player := g_player s; g_sampleRate :=
     g_sampleRate s; g_audioBuffer := g_audioBuffer s;
     g_audioBufferLength := g_audioBufferLength s; g_currentPosition :=
     g_currentPosition s; g_maxPosition := g_maxPosition s;
     g_sampleAccumulator := g_sampleAccumulator s;
     g_totalSamplesGenerated := g_totalSamplesGenerated s; g_currentTick
     := g_currentTick s; g_title := v; g_author := g_author s; g_type :=
     g_type s; g_desc := g_desc s; g_files := g_files s; store_heap :=
     store_heap s; g_loopEnabled := g_loopEnabled s |}.

Definition set_g_author (v : list ascii) (s : emu_state) : emu_state :=
  {| g_opl := g_opl s; g_player := g_player s; g_sampleRate :=
     g_sampleRate s; g_audioBuffer := g_audioBuffer s;
     g_audioBufferLength := g_audioBufferLength s; g_currentPosition :=
     g_currentPosition s; g_maxPosition := g_maxPosition s;
     g_sampleAccumulator := g_sampleAccumulator s;
     g_totalSamplesGenerated := g_totalSamplesGenerated s; g_currentTick
     := g_currentTick s; g_title := g_title s; g_author := v; g_type :=
     g_type s; g_desc := g_desc s; g_files := g_files s; store_heap :=
     store_heap s; g_loopEnabled := g_loopEnabled s |}.

Definition set_g_type (v : list ascii) (s : emu_state) : emu_state :=
  {| g_opl := g_opl s; g_player := g_player s; g_sampleRate :=
     g_sampleRate s; g_audioBuffer := g_audioBuffer s;
     g_audioBufferLength := g_audioBufferLength s; g_currentPosition :=
     g_currentPosition s; g_maxPosition := g_maxPosition s;
     g_sampleAccumulator := g_sampleAccumulator s;
     g_totalSamplesGenerated := g_totalSamplesGenerated s; g_currentTick
     := g_currentTick s; g_title := g_title s; g_author := g_author s;
     g_type := v; g_desc := g_desc s; g_files := g_files s; store_heap :=
     store_heap s; g_loopEnabled := g_loopEnabled s |}.

Definition set_g_desc (v : list ascii) (s : emu_state) : emu_state :=
  {| g_opl := g_opl s; g_player := g_player s; g_sampleRate :=
     g_sampleRate s; g_audioBuffer := g_audioBuffer s;
     g_audioBufferLength := g_audioBufferLength s; g_currentPosition :=
     g_currentPosition s; g_maxPosition := g_maxPosition s;
     g_sampleAccumulator := g_sampleAccumulator s;
     g_totalSamplesGenerated := g_totalSamplesGenerated s; g_currentTick
     := g_currentTick s; g_title := g_title s; g_author := g_author s;
     g_type := g_type s; g_desc := v; g_files := g_files s; store_heap :=
     store_heap s; g_loopEnabled := g_loopEnabled s |}.

Definition set_g_files (v : gmap string FileData) (s : emu_state) : emu_state :=
  {| g_opl := g_opl s; g_player := g_player s; g_sampleRate :=
     g_sampleRate s; g_audioBuffer := g_audioBuffer s;
     g_audioBufferLength := g_audioBufferLength s; g_currentPosition :=
     g_currentPosition s; g_maxPosition := g_maxPosition s;
     g_sampleAccumulator := g_sampleAccumulator s;
     g_totalSamplesGenerated := g_totalSamplesGenerated s; g_currentTick
     := g_currentTick s; g_title := g_title s; g_author := g_author s;
     g_type := g_type s; g_desc := g_desc s; g_files := v; store_heap :=
     store_heap s; g_loopEnabled := g_loopEnabled s |}.

Definition set_store_heap (v : heap_t) (s : emu_state) : emu_state :=
  {| g_opl := g_opl s; g_player := g_player s; g_sampleRate :=
     g_sampleRate s; g_audioBuffer := g_audioBuffer s;
     g_audioBufferLength := g_audioBufferLength s; g_currentPosition :=
     g_currentPosition s; g_maxPosition := g_maxPosition s;
     g_sampleAccumulator := g_sampleAccumulator s;
     g_totalSamplesGenerated := g_totalSamplesGenerated s; g_currentTick
     := g_currentTick s; g_title := g_title s; g_author := g_author s;
     g_type := g_type s; g_desc := g_desc s; g_files := g_files s;
     store_heap := v; g_loopEnabled := g_loopEnabled s |}.

Definition set_g_loopEnabled (v : bool) (s : emu_state) : emu_state :=
  {| g_opl := g_opl s; g_player := g_player s; g_sampleRate :=
     g_sampleRate s; g_audioBuffer := g_audioBuffer s;
     g_audioBufferLength := g_audioBufferLength s; g_currentPosition :=
     g_currentPosition s; g_maxPosition := g_maxPosition s;
     g_sampleAccumulator := g_sampleAccumulator s;
     g_totalSamplesGenerated := g_totalSamplesGenerated s; g_currentTick
     := g_currentTick s; g_title := g_title s; g_author := g_author s;
     g_type := g_type s; g_desc := g_desc s; g_files := g_files s;
     store_heap := store_heap s; g_loopEnabled := v |}.

(** *** Constants and the initial (static) state *)

Definition TITLE_CAP : nat := 256.
Definition DESC_CAP : nat := 1024.

Definition AUDIO_BUFFER_SIZE : Z := 512.
Definition SIZEOF_INT16 : Z := 2.
Definition DEFAULT_SAMPLE_RATE : Z := 49716.

Definition emu_initial : emu_state :=
  {| g_opl := None; g_player := None; g_sampleRate := DEFAULT_SAMPLE_RATE;
     g_audioBuffer := None; g_audioBufferLength := 0;
     g_currentPosition := 0; g_maxPosition := 0;
     g_sampleAccumulator := 0%Q; g_totalSamplesGenerated := 0;
     g_currentTick := 0;
     g_title := replicate TITLE_CAP NUL; g_author := replicate TITLE_CAP NUL;
     g_type := replicate TITLE_CAP NUL; g_desc := replicate DESC_CAP NUL;
     g_files := ∅; store_heap := ∅; g_loopEnabled := false |}.

(** *** Helper to calculate samples per tick *)

Definition getSamplesPerTick (s : emu_state) : Q :=
  match g_player s with
  | None => 0%Q
  | Some p =>
      let refreshRate := getrefresh p in
      let refreshRate := if Qle_bool refreshRate 0 then 70%Q else refreshRate in
      (inject_Z (g_sampleRate s) / refreshRate)%Q
  end.

(** *** File storage *)

(** [for (auto& pair : g_files) delete[] pair.second.data;] *)
Definition release_all (files : gmap string FileData) (h : heap_t) : heap_t :=
  map_fold (λ _ fd acc, delete_block acc (data fd)) h files.

(** [g_files.clear()] after releasing every block. *)
Definition clear_files (s : emu_state) : emu_state :=
  set_g_files ∅ (set_store_heap (release_all (g_files s) (store_heap s)) s).

(** A null pointer argument is [None]; [data] is the memory the pointer
    designates, of which the first [size] bytes are copied. *)
Definition emu_add_file (filename : option string) (data : option (list byte))
    (size : Z) (s : emu_state) : Z * emu_state :=
  match filename, data with
  | Some filename, Some bytes =>
      if size <=? 0 then (-1, s)
      else
        (* Remove existing file with same name *)
        let s1 :=
          match g_files s !! filename with
          | Some (mkFileData old _) =>
              set_g_files (delete filename (g_files s))
                (set_store_heap (delete_block (store_heap s) old) s)
          | None => s
          end in
        (* Copy and store the file data *)
        let '(dataCopy, h) := memcpy_new (store_heap s1) bytes size in
        (0, set_g_files (<[filename := mkFileData dataCopy size]> (g_files s1))
              (set_store_heap h s1))
  | _, _ => (-1, s)
  end.

(** *** Lifecycle *)

Definition emu_init (sampleRate : Z) (s : emu_state) : Z * emu_state :=
  let s := set_g_player None s in
  let s := set_g_opl None s in
  let s := set_g_audioBuffer None s in
  let s := clear_files s in
  let s := set_g_sampleRate
             (if 0 <? sampleRate then sampleRate else DEFAULT_SAMPLE_RATE) s in
  let s := set_g_opl (Some (opl_init (CNemuopl_new (g_sampleRate s)))) s in
  let s := set_g_audioBuffer
             (Some (replicate (Z.to_nat (AUDIO_BUFFER_SIZE * 2)) 0)) s in
  let s := set_g_audioBufferLength 0 s in
  let s := set_g_currentPosition 0 s in
  let s := set_g_maxPosition 0 s in
  let s := set_g_sampleAccumulator 0%Q s in
  let s := set_g_totalSamplesGenerated 0 s in
  let s := set_g_currentTick 0 s in
  (0, s).

Definition emu_teardown (s : emu_state) : emu_state :=
  let s := set_g_player None s in
  let s := set_g_opl None s in
  let s := set_g_audioBuffer None s in
  let s := clear_files s in
  let s := set_g_audioBufferLength 0 s in
  let s := set_g_currentPosition 0 s in
  set_g_maxPosition 0 s.

Definition emu_load_file (filename : option string) (data : option (list byte))
    (size : Z) (s : emu_state) : Z * emu_state :=
  match g_opl s, filename, data with
  | Some opl, Some fname, Some _ =>
      if size <=? 0 then (-1, s)
      else
        (* Clean up existing player *)
        let s := set_g_player None s in
        (* Re-initialize OPL *)
        let opl := opl_init opl in
        let s := set_g_opl (Some opl) s in
        (* Reset timing state *)
        let s := set_g_sampleAccumulator 0%Q s in
        let s := set_g_totalSamplesGenerated 0 s in
        let s := set_g_currentTick 0 s in
        (* Add main file to storage *)
        let s := (emu_add_file filename data size s).2 in
        (* Use AdPlug factory to create appropriate player *)
        let '(player, opl) :=
          factory fname opl (CProvider_Memory_open (g_files s) (store_heap s)) in
        let s := set_g_opl (Some opl) (set_g_player player s) in
        match player with
        | None => (-1, s)
        | Some p =>
            (* Get track info *)
            let s := set_g_title
                       (strncpy (g_title s) (gettitle p) (TITLE_CAP - 1)) s in
            let s := set_g_author
                       (strncpy (g_author s) (getauthor p) (TITLE_CAP - 1)) s in
            let s := set_g_type
                       (strncpy (g_type s) (gettype p) (TITLE_CAP - 1)) s in
            let s := set_g_desc
                       (strncpy (g_desc s) (getdesc p) (DESC_CAP - 1)) s in
            (* Calculate song length *)
            let '(len, p, opl) := songlength p opl (-1) in
            let s := set_g_opl (Some opl) (set_g_player (Some p) s) in
            let s := set_g_maxPosition len s in
            let s := set_g_currentPosition 0 s in
            (0, s)
        end
  | _, _, _ => (-1, s)
  end.
(** *** Generate audio samples *)

(** Outcome of one iteration of the [while (samplesGenerated < maxSamples)]
    loop: either the loop goes on with a new [samplesGenerated], or the
    function returns 1 from inside the loop. *)
Inductive iteration :=
  | Continue (samplesGenerated : Z) (s : emu_state)
  | SongEnded (s : emu_state).

(** The first half of the loop body: render the samples owed by the
    current tick.  The loop runs under the guard of
    [emu_compute_audio_samples], so [g_opl], [g_player] and [g_audioBuffer]
    are not null in it; the other branches of the matches below are never
    taken. *)
Definition render_pending (samplesGenerated : Z) (s : emu_state)
  : Z * emu_state :=
  let maxSamples := AUDIO_BUFFER_SIZE in
  let samplesToGenerate := Qtrunc (g_sampleAccumulator s) in
  if 0 <? samplesToGenerate then
    let remaining := maxSamples - samplesGenerated in
    let toGenerate :=
      if samplesToGenerate <? remaining then samplesToGenerate else remaining in
    (* Generate audio through OPL *)
    let s :=
      match g_opl s, g_audioBuffer s with
      | Some opl, Some buf =>
          let '(samples, opl) := opl_update opl toGenerate in
          set_g_audioBuffer
            (Some (list_inserts (Z.to_nat (samplesGenerated * 2))
                     (take (Z.to_nat (toGenerate * 2)) samples) buf))
            (set_g_opl (Some opl) s)
      | _, _ => s
      end in
    (samplesGenerated + toGenerate,
     set_g_sampleAccumulator
       (g_sampleAccumulator s - inject_Z toGenerate)%Q s)
  else (samplesGenerated, s).

(** The second half: process the next tick. *)
Definition process_tick (samplesGenerated : Z) (s : emu_state) : iteration :=
  let maxSamples := AUDIO_BUFFER_SIZE in
  if samplesGenerated <? maxSamples then
    match g_player s, g_opl s with
    | Some p, Some opl =>
        let '(stillPlaying, p, opl) := update p opl in
        let s := set_g_opl (Some opl) (set_g_player (Some p) s) in
        let s := set_g_currentTick (wrap_ulong (g_currentTick s + 1)) s in
        if negb stillPlaying then
          (* Song ended *)
          SongEnded
            (set_g_audioBufferLength (samplesGenerated * 2 * SIZEOF_INT16) s)
        else
          (* Get samples per tick AFTER update (refresh rate may change) *)
          let samplesPerTick := getSamplesPerTick s in
          Continue samplesGenerated
            (set_g_sampleAccumulator
               (g_sampleAccumulator s + samplesPerTick)%Q s)
    | _, _ => Continue samplesGenerated s
    end
  else Continue samplesGenerated s.

Definition loop_body (samplesGenerated : Z) (s : emu_state) : iteration :=
  let '(samplesGenerated, s) := render_pending samplesGenerated s in
  process_tick samplesGenerated s.

(** The code after the loop: update the position estimate (in ms). *)
Definition position_of (total sampleRate : Z) : Z :=
  Qtrunc (inject_Z total / inject_Z sampleRate * 1000)%Q.

Definition finish_block (samplesGenerated : Z) (s : emu_state) : emu_state :=
  let s := set_g_totalSamplesGenerated
             (wrap_ulong (g_totalSamplesGenerated s + samplesGenerated)) s in
  let s := set_g_currentPosition
             (position_of (g_totalSamplesGenerated s) (g_sampleRate s)) s in
  set_g_audioBufferLength (samplesGenerated * 2 * SIZEOF_INT16) s.

(** The loop itself.  The number of iterations is not bounded by the code
    (it depends on the refresh rates the player reports), so the model
    takes a bound [fuel] and answers [None] when it is exhausted;
    [emu_compute_terminates] below gives a sufficient bound when the
    refresh rates are bounded. *)
Fixpoint compute_loop (fuel : nat) (samplesGenerated : Z) (s : emu_state)
  : option (Z * emu_state) :=
  if samplesGenerated <? AUDIO_BUFFER_SIZE then
    match fuel with
    | O => None
    | S fuel =>
        match loop_body samplesGenerated s with
        | SongEnded s => Some (1, s)
        | Continue samplesGenerated s => compute_loop fuel samplesGenerated s
        end
    end
  else Some (0, finish_block samplesGenerated s).

Definition emu_compute_audio_samples (fuel : nat) (s : emu_state)
  : option (Z * emu_state) :=
  match g_player s, g_opl s, g_audioBuffer s with
  | Some _, Some _, Some _ => compute_loop fuel 0 s
  | _, _, _ => Some (1, s)
  end.

(** *** Queries and transport *)

Definition emu_get_audio_buffer (s : emu_state) : option (list Z) :=
  g_audioBuffer s.

Definition emu_get_audio_buffer_length (s : emu_state) : Z :=
  g_audioBufferLength s.

Definition emu_get_current_position (s : emu_state) : Z :=
  g_currentPosition s.

Definition emu_get_max_position (s : emu_state) : Z := g_maxPosition s.

(** A method called through [g_player] drives the OPL emulator the
    player was created with, which is [g_opl] whenever a player exists
    ([engine_wf] below, an invariant of the adapter); a player without
    [g_opl] does not occur and is left alone. *)
Definition emu_seek_position (ms : Z) (s : emu_state) : emu_state :=
  match g_player s, g_opl s with
  | Some p, Some opl =>
      let '(p, opl) := seek p opl ms in
      let s := set_g_opl (Some opl) (set_g_player (Some p) s) in
      set_g_currentPosition ms s
  | _, _ => s
  end.

(** [snprintf(info, 2048, "%s|%s|%s|%s", ...)]. *)
Definition emu_get_track_info (s : emu_state) : string :=
  string_of_list_ascii
    (take 2047
       (until_nul (g_title s) ++ ["|"%char] ++ until_nul (g_author s) ++
        ["|"%char] ++ until_nul (g_type s) ++ ["|"%char] ++
        until_nul (g_desc s))).

Definition emu_get_subsong_count (s : emu_state) : Z :=
  match g_player s with
  | Some p => getsubsongs p
  | None => 0
  end.

(** As in [emu_seek_position], the player drives [g_opl]. *)
Definition emu_set_subsong (subsong : Z) (s : emu_state) : emu_state :=
  match g_player s, g_opl s with
  | Some p, Some opl =>
      let '(p, opl) := rewind p opl subsong in
      let '(len, p, opl) := songlength p opl subsong in
      let s := set_g_opl (Some opl) (set_g_player (Some p) s) in
      let s := set_g_maxPosition len s in
      set_g_currentPosition 0 s
  | _, _ => s
  end.

Definition emu_get_sample_rate (s : emu_state) : Z := g_sampleRate s.

(** As in [emu_seek_position], the player drives [g_opl]. *)
Definition emu_rewind (s : emu_state) : emu_state :=
  match g_player s, g_opl s with
  | Some p, Some opl =>
      let '(p, opl) := rewind p opl (-1) in
      let s := set_g_opl (Some opl) (set_g_player (Some p) s) in
      let s := set_g_currentPosition 0 s in
      let s := set_g_currentTick 0 s in
      let s := set_g_sampleAccumulator 0%Q s in
      set_g_totalSamplesGenerated 0 s
  | _, _ => s
  end.


Definition emu_get_refresh_rate (s : emu_state) : Q :=
  match g_player s with
  | None => 70%Q
  | Some p =>
      let rate := getrefresh p in
      if Qltb 0 rate then rate else 70%Q
  end.

Definition emu_set_loop_enabled (enabled : Z) (s : emu_state) : emu_state :=
  set_g_loopEnabled (negb (enabled =? 0)) s.


(** *** Call sequences *)

(** One call of the exported interface. *)
Inductive emu_call :=
  | CallInit (sampleRate : Z)
  | CallTeardown
  | CallAddFile (filename : option string) (data : option (list byte)) (size : Z)
  | CallLoadFile (filename : option string) (data : option (list byte)) (size : Z)
  | CallCompute (fuel : nat)
  | CallSeek (ms : Z)
  | CallSetSubsong (subsong : Z)
  | CallRewind
  | CallSetLoop (enabled : Z).

(** The state after a call; [None] when [CallCompute] runs out of fuel. *)
Definition emu_run (c : emu_call) (s : emu_state) : option emu_state :=
  match c with
  | CallInit r => Some (emu_init r s).2
  | CallTeardown => Some (emu_teardown s)
  | CallAddFile f d n => Some (emu_add_file f d n s).2
  | CallLoadFile f d n => Some (emu_load_file f d n s).2
  | CallCompute fuel => snd <$> emu_compute_audio_samples fuel s
  | CallSeek ms => Some (emu_seek_position ms s)
  | CallSetSubsong i => Some (emu_set_subsong i s)
  | CallRewind => Some (emu_rewind s)
  | CallSetLoop e => Some (emu_set_loop_enabled e s)
  end.

(** States the host can bring the adapter into, starting from the static
    initialisation of the globals. *)
Inductive reachable : emu_state -> Prop :=
  | reach_initial : reachable emu_initial
  | reach_call c s s' :
      reachable s -> emu_run c s = Some s' -> reachable s'.

(** States at the head of the block-filling loop during a call of
    [emu_compute_audio_samples] entered in state [s0]. *)
Inductive loop_head (s0 : emu_state) : Z -> emu_state -> Prop :=
  | head_entry : loop_head s0 0 s0
  | head_next n s n' s' :
      loop_head s0 n s -> n < AUDIO_BUFFER_SIZE ->
      loop_body n s = Continue n' s' -> loop_head s0 n' s'.

End Adapter.

Arguments emu_state {_}.
Arguments emu_call : clear implicits.

End AdPlugAdapter.
(** ** The libopenmpt adapter ([src/wasm/libopenmpt/adapter.cpp]) *)

Module OpenMPTAdapter.

(** The part of the libopenmpt C API the adapter calls.  A metadata value
    is [None] when the library returns a null string.
    [openmpt_module_read_interleaved_float_stereo] returns the number of
    frames rendered together with the samples written to the buffer. *)
Class OpenMPT := {
  openmpt_module : Type;
  openmpt_module_create_from_memory2 : list byte -> Z -> option openmpt_module;
  openmpt_module_set_repeat_count : openmpt_module -> Z -> openmpt_module;
  openmpt_module_get_metadata : openmpt_module -> string -> option string;
  openmpt_module_read_interleaved_float_stereo :
    openmpt_module -> Z -> Z -> Z * list Q * openmpt_module;
  openmpt_module_get_position_seconds : openmpt_module -> Q;
  openmpt_module_get_duration_seconds : openmpt_module -> Q;
  openmpt_module_set_position_seconds : openmpt_module -> Q -> openmpt_module
}.

Section Adapter.
Context `{Lib : OpenMPT}.

Record mpt_state := mkMpt {
  g_module : option openmpt_module;
  g_sampleRate : Z;
  g_audioBuffer : option (list Q);
  g_audioBufferFrames : Z;
  g_repeatCount : Z;
  g_title : list ascii;
  g_artist : list ascii;
  g_type : list ascii;
  g_trackInfo : list ascii
}.

Definition set_g_module (v : option openmpt_module) (s : mpt_state) : mpt_state :=
  {| g_module := v; g_sampleRate := g_sampleRate s; g_audioBuffer :=
     g_audioBuffer s; g_audioBufferFrames := g_audioBufferFrames s;
     g_repeatCount := g_repeatCount s; g_title := g_title s; g_artist :=
     g_artist s; g_type := g_type s; g_trackInfo := g_trackInfo s |}.

Definition set_g_sampleRate (v : Z) (s : mpt_state) : mpt_state :=
  {| g_module := g_module s; g_sampleRate := v; g_audioBuffer :=
     g_audioBuffer s; g_audioBufferFrames := g_audioBufferFrames s;
     g_repeatCount := g_repeatCount s; g_title := g_title s; g_artist :=
     g_artist s; g_type := g_type s; g_trackInfo := g_trackInfo s |}.

Definition set_g_audioBuffer (v : option (list Q)) (s : mpt_state) : mpt_state :=
  {| g_module := g_module s; g_sampleRate := g_sampleRate s;
     g_audioBuffer := v; g_audioBufferFrames := g_audioBufferFrames s;
     g_repeatCount := g_repeatCount s; g_title := g_title s; g_artist :=
     g_artist s; g_type := g_type s; g_trackInfo := g_trackInfo s |}.

Definition set_g_audioBufferFrames (v : Z) (s : mpt_state) : mpt_state :=
  {| g_module := g_module s; g_sampleRate := g_sampleRate s;
     g_audioBuffer := g_audioBuffer s; g_audioBufferFrames := v;
     g_repeatCount := g_repeatCount s; g_title := g_title s; g_artist :=
     g_artist s; g_type := g_type s; g_trackInfo := g_trackInfo s |}.

Definition set_g_repeatCount (v : Z) (s : mpt_state) : mpt_state :=
  {| g_module := g_module s; g_sampleRate := g_sampleRate s;
     g_audioBuffer := g_audioBuffer s; g_audioBufferFrames :=
     g_audioBufferFrames s; g_repeatCount := v; g_title := g_title s;
     g_artist := g_artist s; g_type := g_type s; g_trackInfo :=
     g_trackInfo s |}.

Definition set_g_title (v : list ascii) (s : mpt_state) : mpt_state :=
  {| g_module := g_module s; g_sampleRate := g_sampleRate s;
     g_audioBuffer := g_audioBuffer s; g_audioBufferFrames :=
     g_audioBufferFrames s; g_repeatCount := g_repeatCount s; g_title :=
     v; g_artist := g_artist s; g_type := g_type s; g_trackInfo :=
     g_trackInfo s |}.

Definition set_g_artist (v : list ascii) (s : mpt_state) : mpt_state :=
  {| g_module := g_module s; g_sampleRate := g_sampleRate s;
     g_audioBuffer := g_audioBuffer s; g_audioBufferFrames :=
     g_audioBufferFrames s; g_repeatCount := g_repeatCount s; g_title :=
     g_title s; g_artist := v; g_type := g_type s; g_trackInfo :=
     g_trackInfo s |}.

Definition set_g_type (v : list ascii) (s : mpt_state) : mpt_state :=
  {| g_module := g_module s; g_sampleRate := g_sampleRate s;
     g_audioBuffer := g_audioBuffer s; g_audioBufferFrames :=
     g_audioBufferFrames s; g_repeatCount := g_repeatCount s; g_title :=
     g_title s; g_artist := g_artist s; g_type := v; g_trackInfo :=
     g_trackInfo s |}.

Definition set_g_trackInfo (v : list ascii) (s : mpt_state) : mpt_state :=
  {| g_module := g_module s; g_sampleRate := g_sampleRate s;
     g_audioBuffer := g_audioBuffer s; g_audioBufferFrames :=
     g_audioBufferFrames s; g_repeatCount := g_repeatCount s; g_title :=
     g_title s; g_artist := g_artist s; g_type := g_type s; g_trackInfo
     := v |}.

Definition AUDIO_BUFFER_FRAMES : Z := 1024.
Definition DEFAULT_SAMPLE_RATE : Z := 48000.
Definition TITLE_CAP : nat := 256.
Definition INFO_CAP : nat := 1024.

Definition mpt_initial : mpt_state :=
  {| g_module := None; g_sampleRate := DEFAULT_SAMPLE_RATE;
     g_audioBuffer := None; g_audioBufferFrames := 0; g_repeatCount := 0;
     g_title := replicate TITLE_CAP NUL; g_artist := replicate TITLE_CAP NUL;
     g_type := replicate TITLE_CAP NUL;
     g_trackInfo := replicate INFO_CAP NUL |}.

(** [malloc] is taken to succeed, so the failure branch of [mpt_init]
    is not taken. *)
Definition mpt_init (sampleRate : Z) (s : mpt_state) : Z * mpt_state :=
  let s := set_g_module None s in
  let s := set_g_audioBuffer None s in
  let s := set_g_sampleRate
             (if 0 <? sampleRate then sampleRate else DEFAULT_SAMPLE_RATE) s in
  let s := set_g_audioBuffer
             (Some (replicate (Z.to_nat (AUDIO_BUFFER_FRAMES * 2)) 0%Q)) s in
  let s := set_g_audioBufferFrames 0 s in
  (* Reset track info *)
  let s := set_g_title (<[0%nat := NUL]> (g_title s)) s in
  let s := set_g_artist (<[0%nat := NUL]> (g_artist s)) s in
  let s := set_g_type (<[0%nat := NUL]> (g_type s)) s in
  let s := set_g_trackInfo (<[0%nat := NUL]> (g_trackInfo s)) s in
  (0, s).

Definition mpt_teardown (s : mpt_state) : mpt_state :=
  let s := set_g_module None s in
  let s := set_g_audioBuffer None s in
  set_g_audioBufferFrames 0 s.

(** One metadata field of [mpt_load_file]: copy and terminate, or empty
    the field when the library has no value. *)
Definition store_metadata (dst : list ascii) (value : option string)
  : list ascii :=
  match value with
  | Some v =>
      <[(TITLE_CAP - 1)%nat := NUL]> (strncpy dst v (TITLE_CAP - 1))
  | None => <[0%nat := NUL]> dst
  end.

(** [filename] is not used by the function. *)
Definition mpt_load_file (filename : option string) (data : option (list byte))
    (size : Z) (s : mpt_state) : Z * mpt_state :=
  match data with
  | None => (-1, s)
  | Some bytes =>
      if size <=? 0 then (-1, s)
      else
        (* Clean up existing module, create module from memory *)
        let s := set_g_module None s in
        let s := set_g_module (openmpt_module_create_from_memory2 bytes size) s in
        match g_module s with
        | None => (-1, s)
        | Some m =>
            (* Set repeat count *)
            let m := openmpt_module_set_repeat_count m (g_repeatCount s) in
            let s := set_g_module (Some m) s in
            (* Get track info *)
            let title := openmpt_module_get_metadata m "title" in
            let artist := openmpt_module_get_metadata m "artist" in
            let type := openmpt_module_get_metadata m "type_long" in
            let s := set_g_title (store_metadata (g_title s) title) s in
            let s := set_g_artist (store_metadata (g_artist s) artist) s in
            let s := set_g_type (store_metadata (g_type s) type) s in
            (0, s)
        end
  end.

Definition mpt_compute_audio_samples (s : mpt_state) : Z * mpt_state :=
  match g_module s, g_audioBuffer s with
  | Some m, Some buf =>
      (* Read interleaved stereo float samples *)
      let '(framesRead, samples, m) :=
        openmpt_module_read_interleaved_float_stereo
          m (g_sampleRate s) AUDIO_BUFFER_FRAMES in
      let s := set_g_module (Some m) s in
      let s := set_g_audioBuffer
                 (Some (list_inserts 0
                          (take (Z.to_nat (AUDIO_BUFFER_FRAMES * 2)) samples)
                          buf)) s in
      let s := set_g_audioBufferFrames framesRead s in
      (* Check if song ended *)
      if framesRead =? 0 then (1, s) else (0, s)
  | _, _ => (1, set_g_audioBufferFrames 0 s)
  end.

Definition mpt_get_audio_buffer (s : mpt_state) : option (list Q) :=
  g_audioBuffer s.

Definition mpt_get_audio_buffer_frames (s : mpt_state) : Z :=
  g_audioBufferFrames s.

Definition mpt_get_position_seconds (s : mpt_state) : Q :=
  match g_module s with
  | None => 0%Q
  | Some m => openmpt_module_get_position_seconds m
  end.

Definition mpt_get_duration_seconds (s : mpt_state) : Q :=
  match g_module s with
  | None => 0%Q
  | Some m => openmpt_module_get_duration_seconds m
  end.

Definition mpt_set_position_seconds (seconds : Q) (s : mpt_state) : mpt_state :=
  match g_module s with
  | Some m => set_g_module (Some (openmpt_module_set_position_seconds m seconds)) s
  | None => s
  end.

(** [snprintf(g_trackInfo, 1024, "%s|%s|%s", ...)]: the text is cut to
    1023 characters and terminated; the result is the new buffer. *)
Definition mpt_get_track_info (s : mpt_state) : string * mpt_state :=
  let text :=
    take (INFO_CAP - 1)
      (until_nul (g_title s) ++ ["|"%char] ++
       until_nul (g_artist s) ++ ["|"%char] ++
       until_nul (g_type s)) in
  (string_of_list_ascii text,
   set_g_trackInfo (list_inserts 0 (text ++ [NUL]) (g_trackInfo s)) s).

Definition mpt_set_repeat_count (count : Z) (s : mpt_state) : mpt_state :=
  let s := set_g_repeatCount count s in
  match g_module s with
  | Some m => set_g_module (Some (openmpt_module_set_repeat_count m count)) s
  | None => s
  end.

Definition mpt_rewind (s : mpt_state) : mpt_state :=
  match g_module s with
  | Some m => set_g_module (Some (openmpt_module_set_position_seconds m 0%Q)) s
  | None => s
  end.

Definition mpt_get_sample_rate (s : mpt_state) : Z := g_sampleRate s.

(** *** Call sequences *)

Inductive mpt_call :=
  | MptInit (sampleRate : Z)
  | MptTeardown
  | MptLoadFile (filename : option string) (data : option (list byte)) (size : Z)
  | MptCompute
  | MptSetPosition (seconds : Q)
  | MptGetTrackInfo
  | MptSetRepeatCount (count : Z)
  | MptRewind.

Definition mpt_run (c : mpt_call) (s : mpt_state) : mpt_state :=
  match c with
  | MptInit r => (mpt_init r s).2
  | MptTeardown => mpt_teardown s
  | MptLoadFile f d n => (mpt_load_file f d n s).2
  | MptCompute => (mpt_compute_audio_samples s).2
  | MptSetPosition t => mpt_set_position_seconds t s
  | MptGetTrackInfo => (mpt_get_track_info s).2
  | MptSetRepeatCount n => mpt_set_repeat_count n s
  | MptRewind => mpt_rewind s
  end.

Inductive mpt_reachable : mpt_state -> Prop :=
  | mpt_reach_initial : mpt_reachable mpt_initial
  | mpt_reach_call c s : mpt_reachable s -> mpt_reachable (mpt_run c s).

End Adapter.

Arguments mpt_state {_}.
Arguments mpt_call : clear implicits.

End OpenMPTAdapter.
(** ** Two small libraries to run the adapters on

    The adapters are parametric in the wrapped libraries.  To evaluate them
    on concrete inputs, here is one implementation of each interface. *)

Module Toy.

(** A song file is [ticks; hz; title...]: the number of ticks the song
    lasts, its refresh rate in Hz, and its title.  A file whose first byte
    is zero is not recognised. *)
Record toy_player := mkToy {
  ticks_left : nat;
  song_ticks : nat;
  hz : Q;
  sought : Z;
  song_title : string
}.

Definition string_of_bytes (l : list byte) : string :=
  string_of_list_ascii (map ascii_of_byte l).

Definition toy_factory (filename : string) (opl : Z)
    (open : string -> option (list byte)) : option toy_player * Z :=
  match open filename with
  | Some (b0 :: b1 :: rest) =>
      let n := N.to_nat (Byte.to_N b0) in
      match n with
      | O => (None, opl)
      | S _ =>
          (Some {| ticks_left := n; song_ticks := n;
                   hz := inject_Z (Z.of_N (Byte.to_N b1)); sought := 0;
                   song_title := string_of_bytes rest |}, opl)
      end
  | _ => (None, opl)
  end.

Definition toy_update (p : toy_player) (opl : Z) : bool * toy_player * Z :=
  let left := Nat.pred (ticks_left p) in
  (negb (Nat.eqb left 0),
   {| ticks_left := left; song_ticks := song_ticks p; hz := hz p;
      sought := sought p; song_title := song_title p |}, opl).

Definition toy_seek (p : toy_player) (opl : Z) (ms : Z) : toy_player * Z :=
  ({| ticks_left := ticks_left p; song_ticks := song_ticks p; hz := hz p;
      sought := ms; song_title := song_title p |}, opl).

Definition toy_rewind (p : toy_player) (opl : Z) (subsong : Z)
  : toy_player * Z :=
  ({| ticks_left := song_ticks p; song_ticks := song_ticks p; hz := hz p;
      sought := 0; song_title := song_title p |}, opl).

Definition toy_songlength (p : toy_player) (opl : Z) (subsong : Z)
  : Z * toy_player * Z :=
  (Z.of_nat (song_ticks p) * 1000 / 70, p, opl).

(** The toy OPL state counts the samples it has rendered. *)
#[export] Instance toy_adplug : AdPlugAdapter.AdPlug := {|
  AdPlugAdapter.CNemuopl := Z;
  AdPlugAdapter.CPlayer := toy_player;
  AdPlugAdapter.CNemuopl_new := λ _, 0;
  AdPlugAdapter.opl_init := λ _, 0;
  AdPlugAdapter.opl_update := λ opl n, (replicate (Z.to_nat (n * 2)) 1, opl + n);
  AdPlugAdapter.factory := toy_factory;
  AdPlugAdapter.update := toy_update;
  AdPlugAdapter.getrefresh := hz;
  AdPlugAdapter.seek := toy_seek;
  AdPlugAdapter.rewind := toy_rewind;
  AdPlugAdapter.songlength := toy_songlength;
  AdPlugAdapter.gettitle := song_title;
  AdPlugAdapter.getauthor := λ _, "toy"%string;
  AdPlugAdapter.gettype := λ _, "TOY"%string;
  AdPlugAdapter.getdesc := λ _, ""%string;
  AdPlugAdapter.getsubsongs := λ _, 1
|}.

(** A song of three ticks at 70 Hz with the title "T", and the same song
    reporting a refresh rate of zero. *)
Definition demo_song : list byte := ["003"; "070"; "084"]%byte.
Definition demo_song_hz0 : list byte := ["003"; "000"; "084"]%byte.

(** A song whose title has 300 characters. *)
Definition long_song : list byte :=
  ["003"; "070"]%byte ++ replicate 300 "065"%byte.

(** A session initialised at 49716 Hz with [demo_song] loaded, and the
    states after one, two and three blocks. *)
Definition ready : AdPlugAdapter.emu_state :=
  (AdPlugAdapter.emu_init 49716 AdPlugAdapter.emu_initial).2.

Definition loaded : AdPlugAdapter.emu_state :=
  (AdPlugAdapter.emu_load_file (Some "song.d00"%string) (Some demo_song) 3
     ready).2.

Definition long_loaded : AdPlugAdapter.emu_state :=
  (AdPlugAdapter.emu_load_file (Some "long.d00"%string) (Some long_song) 302
     ready).2.

Definition after_block (s : AdPlugAdapter.emu_state) : AdPlugAdapter.emu_state :=
  match AdPlugAdapter.emu_compute_audio_samples 8 s with
  | Some (_, s') => s'
  | None => s
  end.

(** The state after the first iteration of the loop of the first block. *)
Definition first_tick : AdPlugAdapter.emu_state :=
  match AdPlugAdapter.loop_body 0 loaded with
  | AdPlugAdapter.Continue _ s | AdPlugAdapter.SongEnded s => s
  end.

Definition block1 : AdPlugAdapter.emu_state := after_block loaded.
Definition block2 : AdPlugAdapter.emu_state := after_block block1.
Definition block3 : AdPlugAdapter.emu_state := after_block block2.

(** A module file starts with the byte ['M']; the second byte is the
    number of frames it lasts, in units of 512; the rest is its title. *)
Record toy_module := mkToyModule {
  frames_left : Z;
  module_frames : Z;
  played : Q;
  repeat : Z;
  module_title : string
}.

Definition toy_create (bytes : list byte) (size : Z) : option toy_module :=
  match take (Z.to_nat size) bytes with
  | b0 :: b1 :: rest =>
      if Byte.eqb b0 "M"%byte then
        let n := Z.of_N (Byte.to_N b1) * 512 in
        Some {| frames_left := n; module_frames := n; played := 0%Q;
                repeat := 0; module_title := string_of_bytes rest |}
      else None
  | _ => None
  end.

Definition toy_read (m : toy_module) (rate count : Z)
  : Z * list Q * toy_module :=
  let n := Z.min (frames_left m) count in
  (n, replicate (Z.to_nat (n * 2)) 1%Q,
   {| frames_left := frames_left m - n; module_frames := module_frames m;
      played := Qred (played m + inject_Z n / inject_Z rate)%Q;
      repeat := repeat m; module_title := module_title m |}).

Definition toy_set_position (m : toy_module) (seconds : Q) : toy_module :=
  {| frames_left := module_frames m; module_frames := module_frames m;
     played := seconds; repeat := repeat m; module_title := module_title m |}.

#[export] Instance toy_openmpt : OpenMPTAdapter.OpenMPT := {|
  OpenMPTAdapter.openmpt_module := toy_module;
  OpenMPTAdapter.openmpt_module_create_from_memory2 := toy_create;
  OpenMPTAdapter.openmpt_module_set_repeat_count := λ m n,
    {| frames_left := frames_left m; module_frames := module_frames m;
       played := played m; repeat := n; module_title := module_title m |};
  OpenMPTAdapter.openmpt_module_get_metadata := λ m key,
    if String.eqb key "title" then Some (module_title m) else None;
  OpenMPTAdapter.openmpt_module_read_interleaved_float_stereo := toy_read;
  OpenMPTAdapter.openmpt_module_get_position_seconds := played;
  OpenMPTAdapter.openmpt_module_get_duration_seconds := λ m,
    (inject_Z (module_frames m) / 48000)%Q;
  OpenMPTAdapter.openmpt_module_set_position_seconds := toy_set_position
|}.

(** A module of 1024 frames with the title "T", and a session with it
    loaded. *)
Definition demo_module : list byte := ["077"; "002"; "084"]%byte.

Definition mpt_ready : OpenMPTAdapter.mpt_state :=
  (OpenMPTAdapter.mpt_init 48000 OpenMPTAdapter.mpt_initial).2.

Definition mpt_loaded : OpenMPTAdapter.mpt_state :=
  (OpenMPTAdapter.mpt_load_file (Some "tune.mod"%string) (Some demo_module) 3
     mpt_ready).2.

(** A store with a bank under two spellings and a song. *)
Definition demo_files : gmap string FileData :=
  <["STANDARD.BNK"%string := mkFileData 1%positive 2]>
    (<["bank/Standard.bnk"%string := mkFileData 2%positive 1]>
       (<["song.raw"%string := mkFileData 3%positive 3]> ∅)).

Definition demo_heap : heap_t :=
  <[1%positive := ["001"; "002"]%byte]>
    (<[2%positive := ["003"]%byte]>
       (<[3%positive := ["003"; "070"; "084"]%byte]> ∅)).

End Toy.
(** ** Invariants of the AdPlug adapter *)

Section Invariants.
Context `{Lib : AdPlugAdapter.AdPlug}.
Import AdPlugAdapter.

(** The heap holds exactly the blocks the store refers to, one block per
    entry: no entry dangles, no block is leaked, no block is shared. *)
Definition store_owns (files : gmap string FileData) (h : heap_t) : Prop :=
  (forall k fd, files !! k = Some fd -> is_Some (h !! data fd)) /\
  (forall a, is_Some (h !! a) -> exists k fd, files !! k = Some fd /\ data fd = a) /\
  (forall k1 k2 fd1 fd2,
     files !! k1 = Some fd1 -> files !! k2 = Some fd2 ->
     data fd1 = data fd2 -> k1 = k2).

(** The heap once the block stored under [name], if any, is released. *)
Definition released (name : string) (files : gmap string FileData)
    (h : heap_t) : heap_t :=
  match files !! name with
  | Some fd => delete (data fd) h
  | None => h
  end.

Definition store_wf (s : emu_state) : Prop :=
  store_owns (g_files s) (store_heap s).

(** The sample rate is positive and the accumulator is not negative. *)
Definition clock_wf (s : emu_state) : Prop :=
  (0 <= g_sampleAccumulator s)%Q /\ 0 < g_sampleRate s.

(** A player exists only together with its OPL emulator, and the
    emulator only together with the audio buffer. *)
Definition engine_wf (s : emu_state) : Prop :=
  (is_Some (g_player s) -> is_Some (g_opl s)) /\
  (is_Some (g_opl s) <-> is_Some (g_audioBuffer s)).

(** A text field has its full capacity and ends in a NUL. *)
Definition field_wf (cap : nat) (buf : list ascii) : Prop :=
  length buf = cap /\ buf !! (cap - 1)%nat = Some NUL.

Definition meta_wf (s : emu_state) : Prop :=
  field_wf TITLE_CAP (g_title s) /\ field_wf TITLE_CAP (g_author s) /\
  field_wf TITLE_CAP (g_type s) /\ field_wf DESC_CAP (g_desc s).

(** The effective refresh rate of a player: what it reports, or 70 Hz
    when that is not positive. *)
Definition effective_refresh (p : CPlayer) : Q :=
  if Qle_bool (getrefresh p) 0 then 70%Q else getrefresh p.

(** The globals that the block-filling loop never writes. *)
Definition loop_untouched (s : emu_state) :=
  (g_sampleRate s, g_currentPosition s, g_maxPosition s,
   g_totalSamplesGenerated s, g_title s, g_author s, g_type s, g_desc s,
   g_files s, store_heap s, g_loopEnabled s).

(** The globals that [emu_compute_audio_samples] never writes. *)
Definition compute_untouched (s : emu_state) :=
  (g_sampleRate s, g_maxPosition s, g_title s, g_author s, g_type s,
   g_desc s, g_files s, store_heap s, g_loopEnabled s).

(** The globals that make up the playback clock. *)
Definition clock_of (s : emu_state) :=
  (g_sampleAccumulator s, g_currentTick s, g_totalSamplesGenerated s).

(** Player, OPL emulator and audio buffer all exist: the guard of
    [emu_compute_audio_samples]. *)
Definition running (s : emu_state) : Prop :=
  is_Some (g_player s) /\ is_Some (g_opl s) /\ is_Some (g_audioBuffer s).


(** The track metadata fields. *)
Definition emu_metadata (s : emu_state) :=
  (g_title s, g_author s, g_type s, g_desc s).

Definition emu_inv (s : emu_state) : Prop :=
  store_wf s /\ clock_wf s /\ engine_wf s /\ meta_wf s.

End Invariants.

(** ** Invariants of the libopenmpt adapter *)

Section MptInvariants.
Context `{Lib : OpenMPTAdapter.OpenMPT}.
Import OpenMPTAdapter.

(** Every text field has its full capacity. *)
Definition mpt_meta_wf (s : mpt_state) : Prop :=
  length (g_title s) = TITLE_CAP /\ length (g_artist s) = TITLE_CAP /\
  length (g_type s) = TITLE_CAP /\ length (g_trackInfo s) = INFO_CAP.

Definition mpt_metadata (s : mpt_state) :=
  (g_title s, g_artist s, g_type s).

(** The text [mpt_load_file] leaves in a field for a metadata value. *)
Definition metadata_text (value : option string) : string :=
  match value with
  | Some v => string_of_list_ascii (take (TITLE_CAP - 1) (c_str v))
  | None => EmptyString
  end.

End MptInvariants.

(** ** Further notions used in the statements below *)

(** The characters of a string. *)
Definition chars (s : string) : list ascii := list_ascii_of_string s.

(** An upper-case ASCII letter. *)
Definition is_upper (c : ascii) : bool :=
  let n := N_of_ascii c in ((65 <=? n) && (n <=? 90))%N.

Section ExtraNotions.
Context `{Lib : AdPlugAdapter.AdPlug}.
Import AdPlugAdapter.

(** The audio buffer, when allocated, holds 1024 samples, and its valid
    length in bytes is that of a whole number of stereo frames, at most
    512. *)
Definition audio_wf (s : emu_state) : Prop :=
  (forall buf, g_audioBuffer s = Some buf -> length buf = 1024%nat) /\
  exists frames, 0 <= frames <= AUDIO_BUFFER_SIZE /\
                 g_audioBufferLength s = frames * 2 * SIZEOF_INT16.


End ExtraNotions.

Section MptExtraNotions.
Context `{Lib : OpenMPTAdapter.OpenMPT}.
Import OpenMPTAdapter.

(** Each of the three metadata fields of the libopenmpt adapter has its
    256 characters and ends in a NUL. *)
Definition mpt_fields_wf (s : mpt_state) : Prop :=
  field_wf TITLE_CAP (g_title s) /\ field_wf TITLE_CAP (g_artist s) /\
  field_wf TITLE_CAP (g_type s) /\ length (g_trackInfo s) = INFO_CAP.

(** The sample rate is positive and the audio buffer, when it is
    allocated, holds 1024 stereo frames. *)
Definition mpt_audio_wf (s : mpt_state) : Prop :=
  0 < g_sampleRate s /\
  forall buf, g_audioBuffer s = Some buf ->
    length buf = Z.to_nat (AUDIO_BUFFER_FRAMES * 2).

(** The loaded module, if there is one, plays with the stored repeat
    count; [rc] reads the repeat count of a module. *)
Definition repeat_applied (rc : openmpt_module -> Z) (s : mpt_state) : Prop :=
  forall m, g_module s = Some m -> rc m = g_repeatCount s.

End MptExtraNotions.

(** ** The stream provider with its table of open streams

    [CProvider_Memory_open] above gives the bytes a stream reads.  Here is
    the provider as an object: [open] with the copy it allocates and the
    entry it makes in [m_streamBuffers], [close] and [clearBuffers].  A
    stream is the address of a [binisstream] object, which holds the
    address and the size of its copy; the copies live in a heap of their
    own. *)

Record binisstream := mkStream { stream_data : addr; stream_size : Z }.

Record provider := mkProvider {
  m_streamBuffers : gmap positive positive;
  stream_objects : gmap positive binisstream;
  copies : gmap positive (list byte)
}.

Definition provider_initial : provider :=
  {| m_streamBuffers := ∅; stream_objects := ∅; copies := ∅ |}.

(** [CProvider_Memory::open] on the store [files] with heap [h];
    [None] is [nullptr]. *)
Definition CProvider_Memory_open_stream (files : gmap string FileData)
    (h : heap_t) (filename : string) (prov : provider)
  : option addr * provider :=
  match open_find files filename with
  | None => (None, prov)
  | Some (_, fd) =>
      (* Create a copy of the data for the stream *)
      let '(dataCopy, copies') :=
        memcpy_new (copies prov) (default [] (h !! data fd)) (size fd) in
      let stream := fresh (dom (stream_objects prov)) in
      (* Track the buffer so we can free it in close() *)
      (Some stream,
       {| m_streamBuffers := <[stream := dataCopy]> (m_streamBuffers prov);
          stream_objects :=
            <[stream := mkStream dataCopy (size fd)]> (stream_objects prov);
          copies := copies' |})
  end.

(** [CProvider_Memory::close]. *)
Definition CProvider_Memory_close (f : option addr) (prov : provider)
  : provider :=
  match f with
  | None => prov
  | Some f =>
      (* Free the data buffer associated with this stream *)
      let prov :=
        match m_streamBuffers prov !! f with
        | Some buffer =>
            {| m_streamBuffers := delete f (m_streamBuffers prov);
               stream_objects := stream_objects prov;
               copies := delete_block (copies prov) buffer |}
        | None => prov
        end in
      (* delete f *)
      {| m_streamBuffers := m_streamBuffers prov;
         stream_objects := delete f (stream_objects prov);
         copies := copies prov |}
  end.

(** [CProvider_Memory::clearBuffers]. *)
Definition CProvider_Memory_clearBuffers (prov : provider) : provider :=
  {| m_streamBuffers := ∅;
     stream_objects := stream_objects prov;
     copies := map_fold (λ _ buffer acc, delete_block acc buffer)
                 (copies prov) (m_streamBuffers prov) |}.

(** What a stream reads. *)
Definition stream_bytes (prov : provider) (f : addr) : option (list byte) :=
  match stream_objects prov !! f with
  | Some obj =>
      match copies prov !! stream_data obj with
      | Some block => Some (take (Z.to_nat (stream_size obj)) block)
      | None => None
      end
  | None => None
  end.

(** Every table entry belongs to a live stream object that reads the
    entry's copy, which is live; every copy is in the table, and no copy
    is shared. *)
Definition provider_wf (prov : provider) : Prop :=
  (forall f a, m_streamBuffers prov !! f = Some a ->
     (exists obj, stream_objects prov !! f = Some obj /\ stream_data obj = a) /\
     is_Some (copies prov !! a)) /\
  (forall a, is_Some (copies prov !! a) ->
     exists f, m_streamBuffers prov !! f = Some a) /\
  (forall f g a, m_streamBuffers prov !! f = Some a ->
     m_streamBuffers prov !! g = Some a -> f = g).

(** * Properties *)

(** ** Text helpers *)

Example getFilename_ex1 : getFilename "a/b\c.bnk" = "c.bnk"%string.
Proof. reflexivity. Qed.
Example getFilename_ex2 : getFilename "plain" = "plain"%string.
Proof. reflexivity. Qed.
Example getFilename_ex3 : getFilename "dir/" = ""%string.
Proof. reflexivity. Qed.
Example toLower_ex : toLower "STANDARD.bnk[@`{" = "standard.bnk[@`{"%string.
Proof. reflexivity. Qed.

(** ** The order of the store's keys *)

Lemma ascii_compare_refl c : Ascii.compare c c = Eq.
Proof. unfold Ascii.compare. apply N.compare_refl. Qed.

Lemma string_compare_refl s : String.compare s s = Eq.
Proof.
  induction s as [|c s IH]; simpl; [done|].
  by rewrite ascii_compare_refl.
Qed.

Lemma string_leb_refl s : String.leb s s = true.
Proof. unfold String.leb. by rewrite string_compare_refl. Qed.

Lemma ascii_compare_eq c d : Ascii.compare c d = Eq -> c = d.
Proof. apply Ascii.compare_eq_iff. Qed.

Lemma ascii_compare_lt_trans a b c :
  Ascii.compare a b = Lt -> Ascii.compare b c = Lt -> Ascii.compare a c = Lt.
Proof.
  unfold Ascii.compare. rewrite !N.compare_lt_iff. lia.
Qed.

Lemma string_leb_trans s1 s2 s3 :
  String.leb s1 s2 = true -> String.leb s2 s3 = true -> String.leb s1 s3 = true.
Proof.
  unfold String.leb. revert s2 s3.
  induction s1 as [|a s1 IH]; intros [|b s2] [|c s3]; simpl; try done.
  destruct (Ascii.compare a b) eqn:Hab; try done.
  - apply ascii_compare_eq in Hab as ->.
    destruct (Ascii.compare b c) eqn:Hbc; try done.
    apply IH.
  - intros _.
    destruct (Ascii.compare b c) eqn:Hbc; try done.
    + apply ascii_compare_eq in Hbc as <-. by rewrite Hab.
    + by rewrite (ascii_compare_lt_trans _ _ _ Hab Hbc).
Qed.

#[local] Instance key_le_total : Total key_le.
Proof. intros p q. apply String.leb_total. Qed.

#[local] Instance key_le_trans : Transitive key_le.
Proof. intros p q r. apply string_leb_trans. Qed.

Lemma files_in_order_elem (files : gmap string FileData) k fd :
  (k, fd) ∈ files_in_order files <-> files !! k = Some fd.
Proof.
  unfold files_in_order. rewrite merge_sort_Permutation.
  apply elem_of_map_to_list.
Qed.

Lemma files_in_order_sorted (files : gmap string FileData) :
  StronglySorted key_le (files_in_order files).
Proof. apply StronglySorted_merge_sort; apply _. Qed.

(** In a sorted list, [find] returns the least element that satisfies the
    test. *)
Lemma find_sorted_least {A} (R : relation A) (f : A -> bool) l x :
  Reflexive R -> StronglySorted R l -> List.find f l = Some x ->
  forall y, y ∈ l -> f y = true -> R x y.
Proof.
  intros HR Hs. induction Hs as [|a l Hs IH Hall]; simpl; [done|].
  destruct (f a) eqn:Hfa.
  - intros [= <-] y Hy _. apply elem_of_cons in Hy as [->|Hy]; [done|].
    rewrite Forall_forall in Hall. by apply Hall.
  - intros Hx y Hy Hfy. apply elem_of_cons in Hy as [->|Hy]; [congruence|].
    by apply IH.
Qed.

(** ** Three-tier lookup *)

Lemma ci_match_spec filename kv :
  ci_match (toLower (getFilename filename)) kv = true <-> ci_equal kv.1 filename.
Proof. unfold ci_match, ci_equal. apply String.eqb_eq. Qed.

(** What the third tier finds. *)
Lemma tier_c_find (files : gmap string FileData) filename :
  match List.find (ci_match (toLower (getFilename filename)))
          (files_in_order files) with
  | Some kv =>
      files !! kv.1 = Some kv.2 /\ ci_equal kv.1 filename /\
      forall k, is_Some (files !! k) -> ci_equal k filename ->
                String.leb kv.1 k = true
  | None => forall k, is_Some (files !! k) -> ~ ci_equal k filename
  end.
Proof.
  destruct (List.find _ _) as [[k fd]|] eqn:Hfind.
  - pose proof (find_some _ _ Hfind) as [Hin Hm].
    apply list_elem_of_In, files_in_order_elem in Hin.
    apply ci_match_spec in Hm. simpl in *.
    split_and!; [done..|].
    intros k' [fd' Hk'] Hci.
    apply (find_sorted_least key_le _ _ _
             (λ p, string_leb_refl p.1) (files_in_order_sorted files) Hfind
             (k', fd')).
    + by apply files_in_order_elem.
    + by apply ci_match_spec.
  - intros k [fd Hk] Hci.
    pose proof (find_none _ _ Hfind (k, fd)) as Hn.
    assert (ci_match (toLower (getFilename filename)) (k, fd) = true) as Ht
      by by apply ci_match_spec.
    rewrite Hn in Ht; [done|].
    by apply list_elem_of_In, files_in_order_elem.
Qed.

(** C1.  [CProvider_Memory::open] looks a name up in three tiers, in this
    order, and stops at the first that matches: (a) the requested name as
    a key; (b) the requested name without its directory prefix as a key;
    (c) a key equal to the requested name up to directory prefix and
    letter case (the least such key in the map's order).  An exact entry
    therefore wins over any other entry, and when no tier matches the
    result is the null stream. *)
Theorem open_three_tiers (files : gmap string FileData) (h : heap_t)
    (filename : string) :
  (forall fd, files !! filename = Some fd ->
     CProvider_Memory_open files h filename = Some (file_bytes h fd)) /\
  (files !! filename = None ->
   forall fd, files !! getFilename filename = Some fd ->
     CProvider_Memory_open files h filename = Some (file_bytes h fd)) /\
  (files !! filename = None -> files !! getFilename filename = None ->
   forall key, is_Some (files !! key) -> ci_equal key filename ->
     exists key' fd,
       files !! key' = Some fd /\ ci_equal key' filename /\
       (forall k, is_Some (files !! k) -> ci_equal k filename ->
                  String.leb key' k = true) /\
       CProvider_Memory_open files h filename = Some (file_bytes h fd)) /\
  (files !! filename = None -> files !! getFilename filename = None ->
   (forall key, is_Some (files !! key) -> ~ ci_equal key filename) ->
     CProvider_Memory_open files h filename = None).
Proof.
  unfold CProvider_Memory_open, open_find.
  split_and!.
  - by intros fd ->.
  - by intros -> fd ->.
  - intros -> -> key Hkey Hci.
    pose proof (tier_c_find files filename) as Hc. simpl.
    destruct (List.find _ _) as [[k fd]|]; simpl in *.
    + destruct Hc as (Hk & Hck & Hleast).
      exists k, fd. by rewrite Hk.
    + by destruct (Hc key Hkey).
  - intros -> -> Hnone.
    pose proof (tier_c_find files filename) as Hc. simpl.
    destruct (List.find _ _) as [[k fd]|]; simpl in *; [|done].
    destruct Hc as (Hk & Hck & _).
    destruct (Hnone k); eauto.
Qed.

Lemma open_three_tiers_witness :
  CProvider_Memory_open Toy.demo_files Toy.demo_heap "STANDARD.BNK"
    = Some (file_bytes Toy.demo_heap (mkFileData 1%positive 2)) /\
  CProvider_Memory_open Toy.demo_files Toy.demo_heap "music/song.raw"
    = Some (file_bytes Toy.demo_heap (mkFileData 3%positive 3)) /\
  (exists key' fd,
     Toy.demo_files !! key' = Some fd /\ ci_equal key' "x\standard.bnk" /\
     (forall k, is_Some (Toy.demo_files !! k) -> ci_equal k "x\standard.bnk" ->
                String.leb key' k = true) /\
     CProvider_Memory_open Toy.demo_files Toy.demo_heap "x\standard.bnk"
       = Some (file_bytes Toy.demo_heap fd)) /\
  CProvider_Memory_open Toy.demo_files Toy.demo_heap "missing.bnk" = None.
Proof.
  split_and!.
  - apply (proj1 (open_three_tiers Toy.demo_files Toy.demo_heap "STANDARD.BNK")).
    vm_compute. reflexivity.
  - apply (proj1 (proj2 (open_three_tiers Toy.demo_files Toy.demo_heap
                           "music/song.raw"))).
    + vm_compute. reflexivity.
    + vm_compute. reflexivity.
  - apply (proj1 (proj2 (proj2 (open_three_tiers Toy.demo_files Toy.demo_heap
                                  "x\standard.bnk")))
             eq_refl eq_refl "bank/Standard.bnk"%string).
    + vm_compute. eauto.
    + vm_compute. reflexivity.
  - apply (proj2 (proj2 (proj2 (open_three_tiers Toy.demo_files Toy.demo_heap
                                  "missing.bnk")))).
    + vm_compute. reflexivity.
    + vm_compute. reflexivity.
    + intros key [fd Hkey].
      revert key fd Hkey.
      refine (bool_decide_unpack
                (map_Forall (λ k _, ¬ ci_equal k "missing.bnk") Toy.demo_files) _).
      vm_compute. exact I.
Defined.
(** ** The file store of the AdPlug adapter *)

Section StoreProps.
Context `{Lib : AdPlugAdapter.AdPlug}.
Import AdPlugAdapter.

Lemma store_owns_empty : store_owns ∅ ∅.
Proof.
  split_and!.
  - intros k fd Hk. by rewrite lookup_empty in Hk.
  - intros a [b Ha]. by rewrite lookup_empty in Ha.
  - intros k1 k2 fd1 fd2 Hk. by rewrite lookup_empty in Hk.
Qed.

Lemma store_owns_delete files h k fd :
  store_owns files h -> files !! k = Some fd ->
  store_owns (delete k files) (delete (data fd) h).
Proof.
  intros (Hlive & Hown & Hinj) Hk. split_and!.
  - intros k' fd' Hk'. apply lookup_delete_Some in Hk' as [Hne Hk'].
    rewrite lookup_delete_ne; [by eapply Hlive|].
    intros Heq. apply Hne. by eapply Hinj.
  - intros a [b Ha]. apply lookup_delete_Some in Ha as [Hne Ha].
    destruct (Hown a) as (k' & fd' & Hk' & <-); [by eexists|].
    exists k', fd'. split; [|done].
    rewrite lookup_delete_ne; [done|]. intros <-. congruence.
  - intros k1 k2 fd1 fd2 H1 H2.
    apply lookup_delete_Some in H1 as [_ H1].
    apply lookup_delete_Some in H2 as [_ H2]. by eapply Hinj.
Qed.

Lemma store_owns_insert files h k a n b :
  store_owns files h -> files !! k = None -> h !! a = None ->
  store_owns (<[k := mkFileData a n]> files) (<[a := b]> h).
Proof.
  intros (Hlive & Hown & Hinj) Hk Ha. split_and!.
  - intros k' fd' Hk'. apply lookup_insert_Some in Hk' as [[<- <-]|[Hne Hk']].
    + simpl. rewrite lookup_insert_eq. by eexists.
    + destruct (Hlive _ _ Hk') as [b' Hb'].
      rewrite lookup_insert_ne; [by eexists|]. congruence.
  - intros a' [b' Ha']. apply lookup_insert_Some in Ha' as [[<- <-]|[Hne Ha']].
    + exists k, (mkFileData a n). by rewrite lookup_insert_eq.
    + destruct (Hown a') as (k' & fd' & Hk' & <-); [by eexists|].
      exists k', fd'. split; [|done].
      rewrite lookup_insert_ne; [done|]. congruence.
  - intros k1 k2 fd1 fd2 H1 H2 Hd.
    apply lookup_insert_Some in H1 as [[<- <-]|[Hne1 H1]];
      apply lookup_insert_Some in H2 as [[<- <-]|[Hne2 H2]]; simpl in *.
    + done.
    + destruct (Hlive _ _ H2) as [b' Hb']. congruence.
    + destruct (Hlive _ _ H1) as [b' Hb']. congruence.
    + by eapply Hinj.
Qed.

(** One block per entry: the heap and the store have the same size. *)
Lemma store_owns_size files h :
  store_owns files h -> base.size h = base.size files.
Proof.
  revert h. induction files as [|k fd files Hk _ IH] using map_first_key_ind.
  - intros h (_ & Hown & _). rewrite map_size_empty.
    apply map_size_empty_iff, map_empty. intros a.
    destruct (h !! a) eqn:Ha; [|done].
    destruct (Hown a) as (k & fd & Hk & _); [by eexists|].
    by rewrite lookup_empty in Hk.
  - intros h Hwf.
    pose proof (store_owns_delete _ _ k fd Hwf (lookup_insert_eq _ _ _)) as Hd.
    rewrite delete_insert_id in Hd by done.
    apply IH in Hd. rewrite map_size_insert_None by done. rewrite <- Hd.
    destruct Hwf as (Hlive & _).
    destruct (Hlive k fd (lookup_insert_eq _ _ _)) as [b Hb].
    rewrite <- (insert_delete_id h (data fd) b) at 1 by done.
    rewrite map_size_insert_None; [done|]. apply lookup_delete_eq.
Qed.

(** Releasing the block of every entry removes exactly those blocks. *)
Lemma release_all_lookup files h a :
  release_all files h !! a =
    if decide (exists k fd, files !! k = Some fd /\ data fd = a)
    then None else h !! a.
Proof.
  unfold release_all.
  induction files as [|k fd files Hk Hfirst IH] using map_first_key_ind.
  - rewrite map_fold_empty. case_decide as H; [|done].
    destruct H as (k & fd & Hk & _). by rewrite lookup_empty in Hk.
  - rewrite map_fold_insert_first_key by done.
    unfold delete_block at 1.
    destruct (decide (data fd = a)) as [<-|Hne].
    + rewrite lookup_delete_eq. rewrite decide_True; [done|].
      exists k, fd. by rewrite lookup_insert_eq.
    + rewrite lookup_delete_ne by done. rewrite IH.
      apply decide_ext. split.
      * intros (k' & fd' & Hk' & Hd). exists k', fd'. split; [|done].
        rewrite lookup_insert_ne; [done|]. congruence.
      * intros (k' & fd' & Hk' & Hd).
        apply lookup_insert_Some in Hk' as [[<- <-]|[_ Hk']]; [done|].
        by exists k', fd'.
Qed.

Lemma release_all_owned files h : store_owns files h -> release_all files h = ∅.
Proof.
  intros (_ & Hown & _). apply map_empty. intros a.
  rewrite release_all_lookup. case_decide as H; [done|].
  destruct (h !! a) eqn:Ha; [|done].
  destruct H. apply Hown. by eexists.
Qed.

(** What a call of [emu_add_file] with valid arguments does: the block
    stored under the name is released, a new block receives the first [n]
    bytes, and the entry is bound to it. *)
Lemma emu_add_file_valid s name bytes n :
  0 < n ->
  emu_add_file (Some name) (Some bytes) n s =
    (0, let h1 := released name (g_files s) (store_heap s) in
        set_g_files (<[name := mkFileData (fresh (dom h1)) n]> (g_files s))
          (set_store_heap (<[fresh (dom h1) := take (Z.to_nat n) bytes]> h1) s)).
Proof.
  intros Hn. unfold emu_add_file, released.
  destruct (Z.leb_spec n 0) as [?|_]; [lia|].
  destruct (g_files s !! name) as [[old sz]|] eqn:Hold; simpl.
  - rewrite insert_delete_eq. by destruct s.
  - by destruct s.
Qed.

Lemma emu_add_file_invalid s filename data n :
  filename = None \/ data = None \/ n <= 0 ->
  emu_add_file filename data n s = (-1, s).
Proof.
  unfold emu_add_file. intros Hbad.
  destruct filename, data; try done.
  destruct (Z.leb_spec n 0); [done|].
  destruct Hbad as [?|[?|?]]; [done|done|lia].
Qed.

Lemma store_owns_released files h name :
  store_owns files h -> store_owns (delete name files) (released name files h).
Proof.
  intros Hwf. unfold released.
  destruct (files !! name) as [fd|] eqn:Hold.
  - by apply store_owns_delete.
  - by rewrite delete_id.
Qed.

Lemma store_owns_replace files h name n b :
  store_owns files h ->
  let h1 := released name files h in
  store_owns (<[name := mkFileData (fresh (dom h1)) n]> files)
             (<[fresh (dom h1) := b]> h1).
Proof.
  intros Hwf h1. rewrite <- insert_delete_eq.
  apply store_owns_insert.
  - by apply store_owns_released.
  - apply lookup_delete_eq.
  - apply not_elem_of_dom, is_fresh.
Qed.

Lemma emu_add_file_wf s filename data n :
  store_wf s -> store_wf (emu_add_file filename data n s).2.
Proof.
  intros Hwf.
  destruct filename as [name|]; [|done].
  destruct data as [bytes|]; [|done].
  destruct (Z.leb_spec n 0) as [Hle|Hn].
  { by rewrite emu_add_file_invalid by auto. }
  rewrite emu_add_file_valid by done. unfold store_wf. simpl.
  by apply store_owns_replace.
Qed.

End StoreProps.
(** ** The block-filling loop *)

Section LoopProps.
Context `{Lib : AdPlugAdapter.AdPlug}.
Import AdPlugAdapter.

Lemma Qtrunc_nonneg q : (0 <= q)%Q -> Qtrunc q = Qfloor q.
Proof.
  destruct q as [n d]. unfold Qle, Qtrunc, Qfloor. simpl. intros Hn.
  apply Z.quot_div_nonneg; lia.
Qed.

Lemma Qtrunc_le q : (0 <= q)%Q -> (inject_Z (Qtrunc q) <= q)%Q.
Proof. intros Hq. rewrite Qtrunc_nonneg by done. apply Qfloor_le. Qed.

Lemma Qtrunc_0_le q : (0 <= q)%Q -> 0 <= Qtrunc q.
Proof.
  intros Hq. rewrite Qtrunc_nonneg by done.
  change 0 with (Qfloor 0). by apply Qfloor_resp_le.
Qed.

Lemma effective_refresh_pos p : (0 < effective_refresh p)%Q.
Proof.
  unfold effective_refresh.
  destruct (Qle_bool (getrefresh p) 0) eqn:Hle; [done|].
  apply Qnot_le_lt. intros H%Qle_bool_iff. congruence.
Qed.

Lemma getSamplesPerTick_player s p :
  g_player s = Some p ->
  getSamplesPerTick s = (inject_Z (g_sampleRate s) / effective_refresh p)%Q.
Proof. unfold getSamplesPerTick, effective_refresh. by intros ->. Qed.

Lemma samples_per_tick_pos rate p :
  0 < rate -> (0 < inject_Z rate / effective_refresh p)%Q.
Proof.
  intros Hr. apply Qlt_shift_div_l; [apply effective_refresh_pos|].
  rewrite Qmult_0_l. change 0%Q with (inject_Z 0). by rewrite <- Zlt_Qlt.
Qed.

(** The rendering half of an iteration: a whole number [k] of samples,
    at most [floor accumulator] and at most the room left in the block, is
    rendered and taken off the accumulator. *)
Lemma render_pending_spec n s :
  0 <= n < AUDIO_BUFFER_SIZE -> (0 <= g_sampleAccumulator s)%Q ->
  exists k,
    0 <= k <= Qfloor (g_sampleAccumulator s) /\ k <= AUDIO_BUFFER_SIZE - n /\
    (render_pending n s).1 = n + k /\
    (g_sampleAccumulator (render_pending n s).2
       == g_sampleAccumulator s - inject_Z k)%Q /\
    (0 <= g_sampleAccumulator (render_pending n s).2)%Q /\
    loop_untouched (render_pending n s).2 = loop_untouched s /\
    g_player (render_pending n s).2 = g_player s /\
    g_currentTick (render_pending n s).2 = g_currentTick s /\
    g_audioBufferLength (render_pending n s).2 = g_audioBufferLength s /\
    (is_Some (g_opl (render_pending n s).2) <-> is_Some (g_opl s)) /\
    (is_Some (g_audioBuffer (render_pending n s).2)
       <-> is_Some (g_audioBuffer s)).
Proof.
  intros Hn Hacc. unfold render_pending.
  pose proof (Qtrunc_le _ Hacc) as Hle.
  rewrite <- (Qtrunc_nonneg _ Hacc).
  destruct (Z.ltb_spec 0 (Qtrunc (g_sampleAccumulator s))) as [Hpos|Hzero].
  - set (k := if Qtrunc (g_sampleAccumulator s) <? AUDIO_BUFFER_SIZE - n
              then Qtrunc (g_sampleAccumulator s) else AUDIO_BUFFER_SIZE - n).
    assert (0 <= k <= Qtrunc (g_sampleAccumulator s) /\ k <= AUDIO_BUFFER_SIZE - n)
      as (Hk & Hroom).
    { subst k. destruct (Z.ltb_spec (Qtrunc (g_sampleAccumulator s))
                           (AUDIO_BUFFER_SIZE - n)); lia. }
    exists k.
    assert (0 <= g_sampleAccumulator s - inject_Z k)%Q as Hres.
    { apply (Qplus_le_l _ _ (inject_Z k)). ring_simplify.
      eapply Qle_trans; [|exact Hle]. rewrite <- Zle_Qle. lia. }
    destruct (g_opl s) as [opl|] eqn:Hopl, (g_audioBuffer s) as [buf|] eqn:Hbuf;
      [destruct (opl_update opl k) as [samples opl']|..];
      simpl; rewrite ?Hopl, ?Hbuf;
      (split_and!; [lia|lia|done|done|done|done|done|done|done|..]);
      try done; by split; intros; eexists.
  - exists 0. simpl.
    split_and!; try done; try lia.
    + by rewrite Qtrunc_nonneg, <- Qtrunc_nonneg; [apply Qtrunc_0_le|..].
    + unfold Qminus. change (- inject_Z 0)%Q with 0%Q. by rewrite Qplus_0_r.
Qed.

(** The tick half of an iteration: when the block has room, the song
    advances by one tick and the tick counter by one; then either the song
    has ended, or one tick's worth of samples is added to the accumulator. *)
Lemma process_tick_spec n s :
  running s -> 0 < g_sampleRate s -> (0 <= g_sampleAccumulator s)%Q ->
  match process_tick n s with
  | Continue n' s' =>
      n' = n /\ running s' /\ loop_untouched s' = loop_untouched s /\
      g_audioBufferLength s' = g_audioBufferLength s /\
      (0 <= g_sampleAccumulator s')%Q /\
      ((AUDIO_BUFFER_SIZE <= n /\ s' = s) \/
       (n < AUDIO_BUFFER_SIZE /\
        g_currentTick s' = wrap_ulong (g_currentTick s + 1) /\
        exists p', g_player s' = Some p' /\
          g_sampleAccumulator s' =
            (g_sampleAccumulator s
             + inject_Z (g_sampleRate s) / effective_refresh p')%Q))
  | SongEnded s' =>
      n < AUDIO_BUFFER_SIZE /\ running s' /\
      loop_untouched s' = loop_untouched s /\
      g_currentTick s' = wrap_ulong (g_currentTick s + 1) /\
      g_sampleAccumulator s' = g_sampleAccumulator s /\
      g_audioBufferLength s' = n * 2 * SIZEOF_INT16
  end.
Proof.
  intros ([p Hp] & [opl Hopl] & Hbuf) Hrate Hacc. unfold process_tick.
  destruct (Z.ltb_spec n AUDIO_BUFFER_SIZE) as [Hlt|Hge].
  2:{ split_and!; try done. by left. }
  rewrite Hp, Hopl.
  destruct (update p opl) as [[still p'] opl'].
  assert (forall (q : CPlayer) (o : CNemuopl), is_Some (Some q) /\ is_Some (Some o)
                 /\ is_Some (g_audioBuffer s)) as Hrun by done.
  destruct still; simpl; unfold running; simpl.
  - split_and!; try done.
    + rewrite <- (Qplus_0_r 0). apply Qplus_le_compat; [done|].
      apply Qlt_le_weak, samples_per_tick_pos; done.
    + right. split_and!; try done. by exists p'.
  - split_and!; try done.
Qed.

(** One iteration of the loop, entered with room in the block. *)
Lemma loop_body_spec n s :
  running s -> 0 < g_sampleRate s -> (0 <= g_sampleAccumulator s)%Q ->
  0 <= n < AUDIO_BUFFER_SIZE ->
  exists k,
    0 <= k <= Qfloor (g_sampleAccumulator s) /\ k <= AUDIO_BUFFER_SIZE - n /\
    match loop_body n s with
    | Continue n' s' =>
        n' = n + k /\ running s' /\ loop_untouched s' = loop_untouched s /\
        g_audioBufferLength s' = g_audioBufferLength s /\
        (0 <= g_sampleAccumulator s')%Q /\
        ((n' = AUDIO_BUFFER_SIZE /\ g_currentTick s' = g_currentTick s /\
          (g_sampleAccumulator s' == g_sampleAccumulator s - inject_Z k)%Q) \/
         (n' < AUDIO_BUFFER_SIZE /\
          g_currentTick s' = wrap_ulong (g_currentTick s + 1) /\
          exists p', g_player s' = Some p' /\
            (g_sampleAccumulator s' ==
               g_sampleAccumulator s - inject_Z k
               + inject_Z (g_sampleRate s) / effective_refresh p')%Q))
    | SongEnded s' =>
        n + k < AUDIO_BUFFER_SIZE /\ running s' /\
        loop_untouched s' = loop_untouched s /\
        g_currentTick s' = wrap_ulong (g_currentTick s + 1) /\
        (g_sampleAccumulator s' == g_sampleAccumulator s - inject_Z k)%Q /\
        (0 <= g_sampleAccumulator s')%Q /\
        g_audioBufferLength s' = (n + k) * 2 * SIZEOF_INT16
    end.
Proof.
  intros (Hp & Hopl & Hbuf) Hrate Hacc Hn. unfold loop_body.
  destruct (render_pending_spec n s Hn Hacc)
    as (k & Hk & Hroom & Hn1 & Hacc1 & Hpos1 & Hun1 & Hp1 & Htick1 & Hlen1
        & Hopl1 & Hbuf1).
  exists k. split; [done|]. split; [done|].
  destruct (render_pending n s) as [n1 s1]. simpl in *. subst n1.
  assert (running s1) as Hrun1.
  { split_and!; [by rewrite Hp1|by apply Hopl1|by apply Hbuf1]. }
  assert (g_sampleRate s1 = g_sampleRate s) as Hrate1.
  { by injection Hun1. }
  pose proof (process_tick_spec (n + k) s1 Hrun1) as Ht.
  rewrite Hrate1 in Ht. specialize (Ht Hrate Hpos1).
  destruct (process_tick (n + k) s1) as [n' s'|s'].
  - destruct Ht as (-> & Hrun' & Hun' & Hlen' & Hpos' & Hcase).
    split_and!; try done; try congruence.
    destruct Hcase as [[Hfull ->]|(Hlt & Htick' & p' & Hp' & Hacc')].
    + left. split_and!; [lia|done|done].
    + right. split_and!; [done|congruence|].
      exists p'. split; [done|]. by rewrite Hacc', Hacc1.
  - destruct Ht as (Hlt & Hrun' & Hun' & Htick' & Hacc' & Hlen').
    split_and!; try done; try congruence; by rewrite Hacc'.
Qed.

Lemma loop_untouched_compute s s' :
  loop_untouched s' = loop_untouched s ->
  compute_untouched s' = compute_untouched s.
Proof. unfold loop_untouched, compute_untouched. congruence. Qed.

Lemma loop_untouched_rate s s' :
  loop_untouched s' = loop_untouched s -> g_sampleRate s' = g_sampleRate s.
Proof. unfold loop_untouched. congruence. Qed.

(** Every state at the head of the loop satisfies the loop invariant. *)
Lemma loop_head_inv s0 n s :
  running s0 -> 0 < g_sampleRate s0 -> (0 <= g_sampleAccumulator s0)%Q ->
  loop_head s0 n s ->
  0 <= n <= AUDIO_BUFFER_SIZE /\ running s /\
  loop_untouched s = loop_untouched s0 /\ (0 <= g_sampleAccumulator s)%Q /\
  g_audioBufferLength s = g_audioBufferLength s0.
Proof.
  intros Hrun Hrate Hacc Hhead.
  induction Hhead as [|n s n' s' _ IH Hlt Hbody]; [done|].
  destruct IH as (Hn & Hrun1 & Hun1 & Hacc1 & Hlen1).
  pose proof (loop_untouched_rate _ _ Hun1) as Hrate1.
  destruct (loop_body_spec n s) as (k & Hk & Hroom & Hspec);
    [done|lia|done|lia|].
  rewrite Hbody in Hspec.
  destruct Hspec as (-> & Hrun' & Hun' & Hlen' & Hacc' & _).
  split_and!; try done; try lia; by etrans.
Qed.

(** The result of the loop: either the block was filled and the position
    recomputed from the advanced total, or the song ended and neither was
    written. *)
Lemma compute_loop_spec fuel n s r s' :
  running s -> 0 < g_sampleRate s -> (0 <= g_sampleAccumulator s)%Q ->
  0 <= n <= AUDIO_BUFFER_SIZE ->
  compute_loop fuel n s = Some (r, s') ->
  running s' /\ (0 <= g_sampleAccumulator s')%Q /\
  compute_untouched s' = compute_untouched s /\
  ((r = 0 /\
    g_totalSamplesGenerated s' =
      wrap_ulong (g_totalSamplesGenerated s + AUDIO_BUFFER_SIZE) /\
    g_currentPosition s' =
      position_of (g_totalSamplesGenerated s') (g_sampleRate s) /\
    g_audioBufferLength s' = AUDIO_BUFFER_SIZE * 2 * SIZEOF_INT16) \/
   (r = 1 /\ loop_untouched s' = loop_untouched s /\
    exists m, 0 <= m < AUDIO_BUFFER_SIZE /\
              g_audioBufferLength s' = m * 2 * SIZEOF_INT16)).
Proof.
  revert n s. induction fuel as [|fuel IH]; intros n s Hrun Hrate Hacc Hn; simpl.
  - destruct (Z.ltb_spec n AUDIO_BUFFER_SIZE) as [Hlt|Hge]; [done|].
    intros [= <- <-]. assert (n = AUDIO_BUFFER_SIZE) as -> by lia.
    split_and!; try done. left. by split_and!.
  - destruct (Z.ltb_spec n AUDIO_BUFFER_SIZE) as [Hlt|Hge].
    2:{ intros [= <- <-]. assert (n = AUDIO_BUFFER_SIZE) as -> by lia.
        split_and!; try done. left. by split_and!. }
    destruct (loop_body_spec n s) as (k & Hk & Hroom & Hspec);
      [done|done|done|lia|].
    destruct (loop_body n s) as [n1 s1|s1].
    + destruct Hspec as (-> & Hrun1 & Hun1 & Hlen1 & Hacc1 & _).
      pose proof (loop_untouched_rate _ _ Hun1) as Hrate1.
      pose proof (loop_untouched_compute _ _ Hun1) as Hcu1.
      intros Hloop. apply IH in Hloop; [|done|lia|done|lia].
      destruct Hloop as (Hrun' & Hacc' & Hcu' & Hcase).
      split_and!; [done|done|congruence|].
      assert (g_totalSamplesGenerated s1 = g_totalSamplesGenerated s) as Htot
        by (unfold loop_untouched in Hun1; congruence).
      destruct Hcase as [(-> & Ht & Hp & Hl)|(-> & Hun' & Hm)].
      * left. split_and!; try done; congruence.
      * right. split_and!; try done; congruence.
    + intros [= <- <-].
      destruct Hspec as (Hlt' & Hrun1 & Hun1 & Htick1 & Hacc1 & Hpos1 & Hlen1).
      split_and!; [done|done|by apply loop_untouched_compute|].
      right. split_and!; [done|done|]. exists (n + k). split; [lia|done].
Qed.

(** [emu_compute_audio_samples] as a whole. *)
Lemma emu_compute_spec fuel s r s' :
  0 < g_sampleRate s -> (0 <= g_sampleAccumulator s)%Q ->
  emu_compute_audio_samples fuel s = Some (r, s') ->
  (~ running s /\ r = 1 /\ s' = s) \/
  (running s /\ running s' /\ (0 <= g_sampleAccumulator s')%Q /\
   compute_untouched s' = compute_untouched s /\
   ((r = 0 /\
     g_totalSamplesGenerated s' =
       wrap_ulong (g_totalSamplesGenerated s + AUDIO_BUFFER_SIZE) /\
     g_currentPosition s' =
       position_of (g_totalSamplesGenerated s') (g_sampleRate s) /\
     g_audioBufferLength s' = AUDIO_BUFFER_SIZE * 2 * SIZEOF_INT16) \/
    (r = 1 /\ loop_untouched s' = loop_untouched s /\
     exists m, 0 <= m < AUDIO_BUFFER_SIZE /\
               g_audioBufferLength s' = m * 2 * SIZEOF_INT16))).
Proof.
  intros Hrate Hacc. unfold emu_compute_audio_samples.
  destruct (g_player s) as [p|] eqn:Hp.
  2:{ intros [= <- <-]. left. split; [|done]. intros ([? ?] & _). congruence. }
  destruct (g_opl s) as [opl|] eqn:Hopl.
  2:{ intros [= <- <-]. left. split; [|done].
      intros (_ & [? ?] & _). congruence. }
  destruct (g_audioBuffer s) as [buf|] eqn:Hbuf.
  2:{ intros [= <- <-]. left. split; [|done].
      intros (_ & _ & [? ?]). congruence. }
  intros Hloop. right.
  assert (running s) as Hrun.
  { unfold running. rewrite Hp, Hopl, Hbuf. by split_and!. }
  split; [done|].
  eapply compute_loop_spec; [done..| |done]. unfold AUDIO_BUFFER_SIZE. lia.
Qed.

End LoopProps.
(** ** Invariants of the AdPlug adapter hold in every reachable state *)

Section InvariantProps.
Context `{Lib : AdPlugAdapter.AdPlug}.
Import AdPlugAdapter.

Lemma strncpy_written src n :
  length (take n (c_str src ++ replicate n NUL)) = n.
Proof. rewrite length_take, length_app, length_replicate. lia. Qed.

Lemma strncpy_length dst src n : length (strncpy dst src n) = length dst.
Proof. apply length_inserts. Qed.

Lemma strncpy_lookup_ge dst src n j :
  (n <= j)%nat -> strncpy dst src n !! j = dst !! j.
Proof.
  intros Hj. unfold strncpy. apply list_lookup_inserts_ge.
  rewrite strncpy_written. lia.
Qed.

Lemma field_wf_strncpy cap dst src :
  (0 < cap)%nat -> field_wf cap dst -> field_wf cap (strncpy dst src (cap - 1)).
Proof.
  intros Hcap [Hlen Hlast]. split.
  - by rewrite strncpy_length.
  - by rewrite strncpy_lookup_ge.
Qed.

Lemma field_wf_initial cap : (0 < cap)%nat -> field_wf cap (replicate cap NUL).
Proof.
  intros Hcap. split; [apply length_replicate|].
  apply lookup_replicate_2. lia.
Qed.

Lemma emu_initial_inv : emu_inv emu_initial.
Proof.
  split_and!.
  - apply store_owns_empty.
  - by split.
  - split; [by intros [? ?]|]. by split; intros [? ?].
  - unfold meta_wf, emu_initial, TITLE_CAP, DESC_CAP. simpl.
    split_and!; apply field_wf_initial; lia.
Qed.

Lemma emu_init_inv r s : emu_inv s -> emu_inv (emu_init r s).2.
Proof.
  intros (Hstore & Hclock & Hengine & Hmeta). split_and!.
  - unfold store_wf, emu_init. simpl.
    rewrite release_all_owned by done. apply store_owns_empty.
  - unfold clock_wf, emu_init. simpl. split; [done|].
    destruct (Z.ltb_spec 0 r); [done|]. by unfold DEFAULT_SAMPLE_RATE.
  - unfold engine_wf, emu_init. simpl. split; [by intros [? ?]|].
    by split; intros _; eexists.
  - done.
Qed.

Lemma emu_teardown_inv s : emu_inv s -> emu_inv (emu_teardown s).
Proof.
  intros (Hstore & Hclock & Hengine & Hmeta). split_and!.
  - unfold store_wf, emu_teardown. simpl.
    rewrite release_all_owned by done. apply store_owns_empty.
  - done.
  - unfold engine_wf, emu_teardown. simpl. split; [by intros [? ?]|].
    by split; intros [? ?].
  - done.
Qed.

Lemma emu_add_file_frame filename data n s :
  let s' := (emu_add_file filename data n s).2 in
  g_opl s' = g_opl s /\ g_player s' = g_player s /\
  g_audioBuffer s' = g_audioBuffer s /\
  g_sampleRate s' = g_sampleRate s /\
  g_sampleAccumulator s' = g_sampleAccumulator s /\
  g_title s' = g_title s /\ g_author s' = g_author s /\
  g_type s' = g_type s /\ g_desc s' = g_desc s.
Proof.
  destruct filename as [name|]; [|done].
  destruct data as [bytes|]; [|done].
  destruct (Z.leb_spec n 0) as [Hle|Hn].
  { by rewrite emu_add_file_invalid by auto. }
  by rewrite emu_add_file_valid by done.
Qed.

Lemma emu_add_file_inv filename data n s :
  emu_inv s -> emu_inv (emu_add_file filename data n s).2.
Proof.
  intros (Hstore & Hclock & Hengine & Hmeta).
  destruct (emu_add_file_frame filename data n s)
    as (Ho & Hp & Hb & Hr & Ha & Ht & Hau & Hty & Hd).
  split_and!.
  - by apply emu_add_file_wf.
  - unfold clock_wf. by rewrite Ha, Hr.
  - unfold engine_wf. by rewrite Ho, Hp, Hb.
  - unfold meta_wf. by rewrite Ht, Hau, Hty, Hd.
Qed.

Lemma emu_load_file_invalid s filename data n :
  g_opl s = None \/ filename = None \/ data = None \/ n <= 0 ->
  emu_load_file filename data n s = (-1, s).
Proof.
  unfold emu_load_file. intros Hbad.
  destruct (g_opl s), filename, data; try done.
  destruct (Z.leb_spec n 0); [done|].
  destruct Hbad as [?|[?|[?|?]]]; [done|done|done|lia].
Qed.

Lemma emu_load_file_inv filename data n s :
  emu_inv s -> emu_inv (emu_load_file filename data n s).2.
Proof.
  intros (Hstore & Hclock & Hengine & Hmeta).
  destruct (g_opl s) as [opl|] eqn:Hopl;
    [|by rewrite emu_load_file_invalid by auto].
  destruct filename as [name|]; [|by rewrite emu_load_file_invalid by auto].
  destruct data as [bytes|]; [|by rewrite emu_load_file_invalid by auto].
  destruct (Z.leb_spec n 0) as [Hle|Hn];
    [by rewrite emu_load_file_invalid by auto|].
  unfold emu_load_file. rewrite Hopl.
  destruct (Z.leb_spec n 0) as [?|_]; [lia|].
  rewrite emu_add_file_valid by done. simpl.
  destruct (factory _ _ _) as [[p|] opl1]; simpl.
  - destruct (songlength p opl1 (-1)) as [[len p'] opl2]. simpl.
    split_and!.
    + unfold store_wf. simpl. by apply store_owns_replace.
    + split; [done|]. apply Hclock.
    + destruct Hengine as [_ Hb]. split; simpl; [by eexists|].
      rewrite <- Hb, Hopl. by split; eexists.
    + destruct Hmeta as (Ht & Ha & Hty & Hd).
      unfold meta_wf, TITLE_CAP, DESC_CAP in *. simpl.
      split_and!; apply field_wf_strncpy; (lia || done).
  - split_and!.
    + unfold store_wf. simpl. by apply store_owns_replace.
    + split; [done|]. apply Hclock.
    + destruct Hengine as [_ Hb]. split; simpl; [by intros [? ?]|].
      rewrite <- Hb, Hopl. by split; eexists.
    + done.
Qed.

Lemma emu_compute_inv fuel s r s' :
  emu_inv s -> emu_compute_audio_samples fuel s = Some (r, s') -> emu_inv s'.
Proof.
  intros (Hstore & [Hacc Hrate] & Hengine & Hmeta) Hc.
  apply emu_compute_spec in Hc; [|done..].
  destruct Hc as [(_ & _ & ->)|(Hrun & Hrun' & Hacc' & Hun & _)]; [done|].
  unfold compute_untouched in Hun.
  injection Hun as Hr Hm Ht Ha Hty Hd Hf Hh Hl.
  destruct Hrun' as (Hp' & Ho' & Hb').
  split_and!.
  - unfold store_wf. by rewrite Hf, Hh.
  - split; [done|]. by rewrite Hr.
  - by split.
  - unfold meta_wf. by rewrite Ht, Ha, Hty, Hd.
Qed.

Lemma emu_seek_position_inv ms s : emu_inv s -> emu_inv (emu_seek_position ms s).
Proof.
  intros (Hstore & Hclock & Hengine & Hmeta). unfold emu_seek_position.
  destruct (g_player s) as [p|] eqn:Hp; [|done].
  destruct (g_opl s) as [opl|] eqn:Hopl; [|done].
  destruct (seek p opl ms) as [p' opl'].
  split_and!; try done.
  destruct Hengine as [_ Hb]. split; simpl; [by eexists|].
  rewrite <- Hb, Hopl. by split; eexists.
Qed.

Lemma emu_set_subsong_inv i s : emu_inv s -> emu_inv (emu_set_subsong i s).
Proof.
  intros (Hstore & Hclock & Hengine & Hmeta). unfold emu_set_subsong.
  destruct (g_player s) as [p|] eqn:Hp; [|done].
  destruct (g_opl s) as [opl|] eqn:Hopl; [|done].
  destruct (rewind p opl i) as [p1 opl1].
  destruct (songlength p1 opl1 i) as [[len p2] opl2].
  split_and!; try done.
  destruct Hengine as [_ Hb]. split; simpl; [by eexists|].
  rewrite <- Hb, Hopl. by split; eexists.
Qed.

Lemma emu_rewind_inv s : emu_inv s -> emu_inv (emu_rewind s).
Proof.
  intros (Hstore & Hclock & Hengine & Hmeta). unfold emu_rewind.
  destruct (g_player s) as [p|] eqn:Hp; [|done].
  destruct (g_opl s) as [opl|] eqn:Hopl; [|done].
  destruct (rewind p opl (-1)) as [p1 opl1].
  split_and!; try done.
  - split; [done|]. apply Hclock.
  - destruct Hengine as [_ Hb]. split; simpl; [by eexists|].
    rewrite <- Hb, Hopl. by split; eexists.
Qed.

Lemma emu_run_inv c s s' : emu_inv s -> emu_run c s = Some s' -> emu_inv s'.
Proof.
  intros Hinv. destruct c; simpl.
  - intros [= <-]. by apply emu_init_inv.
  - intros [= <-]. by apply emu_teardown_inv.
  - intros [= <-]. by apply emu_add_file_inv.
  - intros [= <-]. by apply emu_load_file_inv.
  - destruct (emu_compute_audio_samples fuel s) as [[r s1]|] eqn:Hc; [|done].
    intros [= <-]. by eapply emu_compute_inv.
  - intros [= <-]. by apply emu_seek_position_inv.
  - intros [= <-]. by apply emu_set_subsong_inv.
  - intros [= <-]. by apply emu_rewind_inv.
  - by intros [= <-].
Qed.

Lemma reachable_inv s : reachable s -> emu_inv s.
Proof.
  induction 1 as [|c s s' _ IH Hrun].
  - apply emu_initial_inv.
  - by eapply emu_run_inv.
Qed.

End InvariantProps.
(** ** Fixed-capacity text fields *)

Lemma until_nul_no_nul l : Forall (λ c, c ≠ NUL) (until_nul l).
Proof.
  induction l as [|c l IH]; simpl; [constructor|].
  destruct (Ascii.eqb_spec c NUL); [constructor|]. by constructor.
Qed.

Lemma until_nul_app_nul l r :
  Forall (λ c, c ≠ NUL) l -> until_nul (l ++ NUL :: r) = l.
Proof.
  induction 1 as [|c l Hc _ IH]; simpl; [done|].
  destruct (Ascii.eqb_spec c NUL); [done|]. by rewrite IH.
Qed.

(** The characters [strncpy] writes, followed by a NUL, read back as the
    source text cut to [n] characters. *)
Lemma strncpy_written_text src n r :
  until_nul (take n (c_str src ++ replicate n NUL) ++ NUL :: r)
  = take n (c_str src).
Proof.
  destruct (decide (n <= length (c_str src))%nat) as [Hle|Hgt].
  - rewrite take_app_le by done.
    apply until_nul_app_nul, Forall_take, until_nul_no_nul.
  - rewrite take_app_ge by lia. rewrite take_replicate.
    rewrite (take_ge (c_str src)) by lia.
    rewrite <- app_assoc.
    assert (exists r', replicate ((n - length (c_str src)) `min` n) NUL
                       ++ NUL :: r = NUL :: r') as [r' ->].
    { destruct ((n - length (c_str src)) `min` n)%nat; simpl; eauto. }
    apply until_nul_app_nul, until_nul_no_nul.
Qed.

(** A field filled by [strncpy] up to its last character, which is NUL,
    reads as the source text cut to [cap - 1] characters. *)
Lemma strncpy_text cap dst src :
  (0 < cap)%nat -> field_wf cap dst ->
  until_nul (strncpy dst src (cap - 1)) = take (cap - 1) (c_str src).
Proof.
  intros Hcap [Hlen Hlast]. unfold strncpy.
  assert (dst = take (cap - 1) dst ++ [NUL]) as Hsplit.
  { rewrite <- (take_drop (cap - 1) dst) at 1. f_equal.
    apply list_eq. intros [|i].
    - rewrite lookup_drop, Nat.add_0_r. done.
    - rewrite lookup_drop. simpl. rewrite lookup_nil.
      apply lookup_ge_None. lia. }
  rewrite Hsplit at 1.
  rewrite list_inserts_0_r.
  2:{ rewrite strncpy_written, length_take. lia. }
  apply strncpy_written_text.
Qed.

Lemma field_text_strncpy cap dst src :
  (0 < cap)%nat -> field_wf cap dst ->
  field_text (strncpy dst src (cap - 1))
  = string_of_list_ascii (take (cap - 1) (c_str src)).
Proof. intros. unfold field_text. by rewrite strncpy_text. Qed.

(** ** Termination of the block-filling loop *)

Section Termination.
Context `{Lib : AdPlugAdapter.AdPlug}.
Import AdPlugAdapter.








End Termination.
(** ** Re-registration in the file store *)

Section AddFileClaim.
Context `{Lib : AdPlugAdapter.AdPlug}.
Import AdPlugAdapter.

(** C7.  Registering a name that is already in the store releases the
    block stored under it and then binds the name to a new block holding a
    private copy of the new bytes.  Afterwards the store still has one
    entry per name and the heap one block per entry (the old block is not
    leaked), and resolving the name yields the new bytes. *)
Theorem emu_add_file_replaces (s : emu_state) (name : string)
    (bytes : list byte) (n : Z) (old : FileData) :
  store_wf s -> g_files s !! name = Some old -> 0 < n ->
  let r := emu_add_file (Some name) (Some bytes) n s in
  let h1 := delete (data old) (store_heap s) in
  let a := fresh (dom h1) in
  r.1 = 0 /\
  h1 !! data old = None /\ h1 !! a = None /\
  store_heap r.2 = <[a := take (Z.to_nat n) bytes]> h1 /\
  g_files r.2 = <[name := mkFileData a n]> (g_files s) /\
  store_wf r.2 /\
  base.size (g_files r.2) = base.size (g_files s) /\
  base.size (store_heap r.2) = base.size (store_heap s) /\
  NoDup (files_in_order (g_files r.2)).*1 /\
  CProvider_Memory_open (g_files r.2) (store_heap r.2) name
    = Some (take (Z.to_nat n) bytes).
Proof.
  intros Hwf Hold Hn r h1 a. subst r.
  rewrite emu_add_file_valid by done. unfold released. rewrite Hold.
  fold h1. fold a. simpl.
  assert (store_owns (<[name := mkFileData a n]> (g_files s))
            (<[a := take (Z.to_nat n) bytes]> h1)) as Hwf'.
  { pose proof (store_owns_replace (g_files s) (store_heap s) name n
                  (take (Z.to_nat n) bytes) Hwf) as H.
    unfold released in H. by rewrite Hold in H. }
  assert (base.size (<[name := mkFileData a n]> (g_files s))
          = base.size (g_files s)) as Hsize.
  { by erewrite map_size_insert_Some. }
  split_and!; try done.
  - apply lookup_delete_eq.
  - apply not_elem_of_dom, is_fresh.
  - rewrite (store_owns_size _ _ Hwf'), Hsize.
    symmetry. by apply store_owns_size.
  - unfold files_in_order. rewrite merge_sort_Permutation.
    apply NoDup_fst_map_to_list.
  - unfold CProvider_Memory_open, open_find.
    rewrite lookup_insert_eq. unfold file_bytes. simpl.
    rewrite lookup_insert_eq. simpl. rewrite take_take. f_equal. f_equal. lia.
Qed.

End AddFileClaim.

Section AddFileRun.
Import Toy.

Lemma emu_add_file_replaces_witness :
  let s := (AdPlugAdapter.emu_add_file (Some "a.bnk"%string)
              (Some ["001"; "002"]%byte) 2 AdPlugAdapter.emu_initial).2 in
  let r := AdPlugAdapter.emu_add_file (Some "a.bnk"%string)
             (Some ["009"; "008"; "007"]%byte) 2 s in
  store_wf s /\
  AdPlugAdapter.g_files s !! "a.bnk"%string = Some (mkFileData 1%positive 2) /\
  base.size (AdPlugAdapter.store_heap r.2) = base.size (AdPlugAdapter.store_heap s) /\
  CProvider_Memory_open (AdPlugAdapter.g_files r.2) (AdPlugAdapter.store_heap r.2)
    "a.bnk" = Some ["009"; "008"]%byte.
Proof.
  intros s r.
  assert (store_wf s) as Hwf.
  { apply emu_add_file_wf, store_owns_empty. }
  assert (AdPlugAdapter.g_files s !! "a.bnk"%string
          = Some (mkFileData 1%positive 2)) as Hold
    by (vm_compute; reflexivity).
  pose proof (emu_add_file_replaces s "a.bnk" ["009"; "008"; "007"]%byte 2
                (mkFileData 1%positive 2) Hwf Hold ltac:(lia)) as H.
  simpl in H. destruct H as (_ & _ & _ & _ & _ & _ & _ & Hsize & _ & Hopen).
  split_and!; [exact Hwf|exact Hold|exact Hsize|exact Hopen].
Defined.

End AddFileRun.

(** ** The refresh-rate default *)

Section RefreshClaim.
Context `{Lib : AdPlugAdapter.AdPlug}.
Import AdPlugAdapter.

Lemma reachable_clock s :
  reachable s -> (0 <= g_sampleAccumulator s)%Q /\ 0 < g_sampleRate s.
Proof. intros Hr. by destruct (reachable_inv s Hr) as (_ & ? & _). Qed.

(** C4.  Whenever a tick's quota is computed, a reported refresh rate
    that is zero or negative is replaced by 70 Hz, so the sample rate is
    divided by a positive number and the quota is strictly positive;
    [emu_get_refresh_rate] makes the same substitution.  In particular, in
    every call made in a reachable state, each iteration of the loop that
    processes a tick without ending the song adds a strictly positive
    quota to the accumulator. *)
Theorem refresh_rate_default :
  (forall (s : emu_state) (p : CPlayer),
     g_player s = Some p -> 0 < g_sampleRate s ->
     ((getrefresh p <= 0)%Q ->
        getSamplesPerTick s = (inject_Z (g_sampleRate s) / 70)%Q /\
        emu_get_refresh_rate s = 70%Q) /\
     ((0 < getrefresh p)%Q ->
        getSamplesPerTick s = (inject_Z (g_sampleRate s) / getrefresh p)%Q /\
        emu_get_refresh_rate s = getrefresh p) /\
     (0 < emu_get_refresh_rate s)%Q /\
     (0 < getSamplesPerTick s)%Q) /\
  (forall (s0 s s' : emu_state) (n n' : Z),
     reachable s0 -> running s0 -> loop_head s0 n s ->
     n < AUDIO_BUFFER_SIZE -> loop_body n s = Continue n' s' ->
     n' < AUDIO_BUFFER_SIZE ->
     0 < g_sampleRate s /\
     exists p', g_player s' = Some p' /\
       (0 < inject_Z (g_sampleRate s) / effective_refresh p')%Q /\
       (g_sampleAccumulator s' ==
          g_sampleAccumulator s - inject_Z (n' - n)
          + inject_Z (g_sampleRate s) / effective_refresh p')%Q).
Proof.
  split.
  - intros s p Hp Hrate.
    pose proof (getSamplesPerTick_player s p Hp) as Hspt.
    pose proof (effective_refresh_pos p) as Heff.
    assert (emu_get_refresh_rate s = effective_refresh p) as Hget.
    { unfold emu_get_refresh_rate, effective_refresh, Qltb. rewrite Hp.
      by destruct (Qle_bool (getrefresh p) 0). }
    rewrite Hget, Hspt. unfold effective_refresh in *.
    split_and!.
    + intros Hle%Qle_bool_iff. by rewrite Hle.
    + intros Hlt. destruct (Qle_bool (getrefresh p) 0) eqn:Hle; [|done].
      apply Qle_bool_iff in Hle. by apply Qle_not_lt in Hle.
    + done.
    + by apply samples_per_tick_pos.
  - intros s0 s s' n n' Hreach Hrun Hhead Hlt Hbody Hlt'.
    destruct (reachable_clock s0 Hreach) as [Hacc0 Hrate0].
    destruct (loop_head_inv s0 n s Hrun Hrate0 Hacc0 Hhead)
      as (Hn & Hrun1 & Hun & Hacc & _).
    pose proof (loop_untouched_rate _ _ Hun) as Hr.
    assert (0 < g_sampleRate s) as Hrate by lia.
    split; [done|].
    destruct (loop_body_spec n s) as (k & Hk & _ & Hspec);
      [done|done|done|lia|].
    rewrite Hbody in Hspec.
    destruct Hspec as (-> & _ & _ & _ & _ & [[? _]|(_ & _ & p' & Hp' & Heq)]);
      [lia|].
    exists p'. split_and!; [done|by apply samples_per_tick_pos|].
    by replace (n + k - n) with k by lia.
Qed.

End RefreshClaim.

Section RefreshRun.
Import AdPlugAdapter Toy.

Lemma reachable_ready : reachable ready.
Proof. exact (reach_call (CallInit 49716) _ _ reach_initial eq_refl). Qed.

Lemma reachable_loaded : reachable loaded.
Proof.
  exact (reach_call (CallLoadFile (Some "song.d00"%string) (Some demo_song) 3)
           _ _ reachable_ready eq_refl).
Qed.

Lemma running_loaded : running loaded.
Proof. vm_compute. split_and!; eauto. Qed.

Lemma run_first_tick : loop_body 0 loaded = Continue 0 first_tick.
Proof. vm_compute. reflexivity. Qed.

(** A song that reports 0 Hz gets the quota of 70 Hz; and the first tick
    of the demo song adds its positive quota to the accumulator. *)
Lemma refresh_rate_default_witness :
  let s := (emu_load_file (Some "song.d00"%string) (Some demo_song_hz0) 3
              ready).2 in
  (g_player s = Some (mkToy 3 3 0 0 "T") /\
   (getrefresh (mkToy 3 3 0 0 "T") <= 0)%Q /\
   getSamplesPerTick s = (inject_Z (g_sampleRate s) / 70)%Q /\
   emu_get_refresh_rate s = 70%Q) /\
  (reachable loaded /\ running loaded /\ loop_head loaded 0 loaded /\
   loop_body 0 loaded = Continue 0 first_tick /\
   exists p', g_player first_tick = Some p' /\
     (0 < inject_Z (g_sampleRate loaded) / effective_refresh p')%Q /\
     (g_sampleAccumulator first_tick ==
        g_sampleAccumulator loaded - inject_Z (0 - 0)
        + inject_Z (g_sampleRate loaded) / effective_refresh p')%Q).
Proof.
  intros s. split.
  - assert (g_player s = Some (mkToy 3 3 0 0 "T")) as Hp
      by (vm_compute; reflexivity).
    assert (getrefresh (mkToy 3 3 0 0 "T") <= 0)%Q as Hle by done.
    split; [exact Hp|]. split; [exact Hle|].
    apply (proj1 (proj1 refresh_rate_default s (mkToy 3 3 0 0 "T") Hp
                    ltac:(vm_compute; reflexivity))).
    exact Hle.
  - split_and!;
      [apply reachable_loaded|apply running_loaded|apply head_entry
      |apply run_first_tick|].
    apply (proj2 refresh_rate_default loaded loaded first_tick 0 0
             reachable_loaded running_loaded (head_entry loaded)
             ltac:(vm_compute; reflexivity) run_first_tick
             ltac:(vm_compute; reflexivity)).
Defined.

End RefreshRun.

(** ** The sample accumulator *)

Section AccumulatorClaim.
Context `{Lib : AdPlugAdapter.AdPlug}.
Import AdPlugAdapter.

(** In every reachable state, and at the head of every iteration of the
    block-filling loop of a call made in a reachable state, the
    accumulator is not negative; an iteration takes a whole number [k] of
    rendered samples off it, with [k <= floor accumulator], and adds at
    most one tick's quota, the sample rate divided by the refresh rate in
    force after the tick. *)
Lemma accumulator_steps s0 :
  reachable s0 ->
  (0 <= g_sampleAccumulator s0)%Q /\
  forall n s, running s0 -> loop_head s0 n s ->
    (0 <= g_sampleAccumulator s)%Q /\
    (n < AUDIO_BUFFER_SIZE ->
     exists k, 0 <= k <= Qfloor (g_sampleAccumulator s) /\
       match loop_body n s with
       | Continue n' s' =>
           n' = n + k /\ (0 <= g_sampleAccumulator s')%Q /\
           ((g_sampleAccumulator s'
               == g_sampleAccumulator s - inject_Z k)%Q \/
            exists p', g_player s' = Some p' /\
              (g_sampleAccumulator s' ==
                 g_sampleAccumulator s - inject_Z k
                 + inject_Z (g_sampleRate s) / effective_refresh p')%Q)
       | SongEnded s' =>
           (0 <= g_sampleAccumulator s')%Q /\
           (g_sampleAccumulator s' == g_sampleAccumulator s - inject_Z k)%Q
       end).
Proof.
  intros Hreach. destruct (reachable_clock s0 Hreach) as [Hacc Hrate].
  split; [done|]. intros n s Hrun Hhead.
  destruct (loop_head_inv s0 n s Hrun Hrate Hacc Hhead)
    as (Hn & Hrun' & Hun & Hacc' & _).
  split; [done|]. intros Hlt.
  pose proof (loop_untouched_rate _ _ Hun) as Hr.
  destruct (loop_body_spec n s) as (k & Hk & _ & Hspec);
    [done|lia|done|lia|].
  exists k. split; [done|].
  destruct (loop_body n s) as [n' s'|s'].
  - destruct Hspec as (-> & _ & _ & _ & Hpos & Hcase).
    split_and!; [done|done|].
    destruct Hcase as [(_ & _ & Heq)|(_ & _ & p' & Hp' & Heq)];
      [by left|right; by exists p'].
  - by destruct Hspec as (_ & _ & _ & _ & Heq & Hpos & _).
Qed.

End AccumulatorClaim.

Section AccumulatorRun.
Import AdPlugAdapter Toy.

Lemma reachable_after_block s : reachable s -> reachable (after_block s).
Proof.
  intros Hs. unfold after_block.
  destruct (emu_compute_audio_samples 8 s) as [[r s']|] eqn:Hc; [|done].
  apply (reach_call (CallCompute 8) s s' Hs). simpl. by rewrite Hc.
Qed.

Lemma reachable_block1 : reachable block1.
Proof. apply reachable_after_block, reachable_loaded. Qed.

Lemma reachable_block2 : reachable block2.
Proof. apply reachable_after_block, reachable_block1. Qed.

End AccumulatorRun.

(** C2.  On the tick backend the accumulator is never negative at the
    start of a scheduling step, in any state reachable through the
    exported calls; within one call it decreases only by the whole number
    of samples rendered, which is at most its floor, and increases only by
    one tick's worth of samples.  It is not bounded by 1: after the first
    block of the demo song some 198 samples are still owed. *)
Theorem accumulator_nonneg :
  (forall (Lib : AdPlugAdapter.AdPlug) (s0 : AdPlugAdapter.emu_state),
     AdPlugAdapter.reachable s0 ->
     (0 <= AdPlugAdapter.g_sampleAccumulator s0)%Q /\
     forall n s, running s0 -> AdPlugAdapter.loop_head s0 n s ->
       (0 <= AdPlugAdapter.g_sampleAccumulator s)%Q /\
       (n < AdPlugAdapter.AUDIO_BUFFER_SIZE ->
        exists k, 0 <= k <= Qfloor (AdPlugAdapter.g_sampleAccumulator s) /\
          match AdPlugAdapter.loop_body n s with
          | AdPlugAdapter.Continue n' s' =>
              n' = n + k /\ (0 <= AdPlugAdapter.g_sampleAccumulator s')%Q /\
              ((AdPlugAdapter.g_sampleAccumulator s'
                  == AdPlugAdapter.g_sampleAccumulator s - inject_Z k)%Q \/
               exists p', AdPlugAdapter.g_player s' = Some p' /\
                 (AdPlugAdapter.g_sampleAccumulator s' ==
                    AdPlugAdapter.g_sampleAccumulator s - inject_Z k
                    + inject_Z (AdPlugAdapter.g_sampleRate s)
                      / effective_refresh p')%Q)
          | AdPlugAdapter.SongEnded s' =>
              (0 <= AdPlugAdapter.g_sampleAccumulator s')%Q /\
              (AdPlugAdapter.g_sampleAccumulator s'
                 == AdPlugAdapter.g_sampleAccumulator s - inject_Z k)%Q
          end)) /\
  (AdPlugAdapter.reachable Toy.block1 /\
   (198 <= AdPlugAdapter.g_sampleAccumulator Toy.block1)%Q).
Proof.
  split.
  - intros Lib s0. apply accumulator_steps.
  - split; [apply reachable_block1|]. vm_compute. discriminate.
Qed.

Lemma accumulator_nonneg_witness :
  AdPlugAdapter.reachable Toy.block1 /\ running Toy.block1 /\
  AdPlugAdapter.loop_head Toy.block1 0 Toy.block1 /\
  (0 <= AdPlugAdapter.g_sampleAccumulator Toy.block1)%Q /\
  exists k, 0 <= k <= Qfloor (AdPlugAdapter.g_sampleAccumulator Toy.block1) /\
    match AdPlugAdapter.loop_body 0 Toy.block1 with
    | AdPlugAdapter.Continue n' s' =>
        n' = 0 + k /\ (0 <= AdPlugAdapter.g_sampleAccumulator s')%Q /\
        ((AdPlugAdapter.g_sampleAccumulator s'
            == AdPlugAdapter.g_sampleAccumulator Toy.block1 - inject_Z k)%Q \/
         exists p', AdPlugAdapter.g_player s' = Some p' /\
           (AdPlugAdapter.g_sampleAccumulator s' ==
              AdPlugAdapter.g_sampleAccumulator Toy.block1 - inject_Z k
              + inject_Z (AdPlugAdapter.g_sampleRate Toy.block1)
                / effective_refresh p')%Q)
    | AdPlugAdapter.SongEnded s' =>
        (0 <= AdPlugAdapter.g_sampleAccumulator s')%Q /\
        (AdPlugAdapter.g_sampleAccumulator s'
           == AdPlugAdapter.g_sampleAccumulator Toy.block1 - inject_Z k)%Q
    end.
Proof.
  assert (running Toy.block1) as Hrun by (vm_compute; split_and!; eauto).
  pose proof (proj1 accumulator_nonneg Toy.toy_adplug Toy.block1
                reachable_block1) as [Hacc Hloop].
  destruct (Hloop 0 Toy.block1 Hrun (AdPlugAdapter.head_entry Toy.block1))
    as [_ Hstep].
  split_and!;
    [apply reachable_block1|exact Hrun|apply AdPlugAdapter.head_entry
    |exact Hacc|].
  apply Hstep. vm_compute. reflexivity.
Defined.

(** ** The position estimate *)

Section PositionClaim.
Context `{Lib : AdPlugAdapter.AdPlug}.
Import AdPlugAdapter.





(** ** Seeking *)

(** C10.  [emu_seek_position] writes only the player (with the OPL
    emulator it drives) and the reported position, which becomes [ms]; the
    accumulator, the tick counter and the total are as before.  The next
    call of [emu_compute_audio_samples] that fills a block therefore sets
    the position to a value computed from the total alone, whatever the
    seek target was. *)
Theorem emu_seek_position_frame (ms : Z) (s : emu_state) :
  reachable s ->
  clock_of (emu_seek_position ms s) = clock_of s /\
  compute_untouched (emu_seek_position ms s) = compute_untouched s /\
  g_audioBuffer (emu_seek_position ms s) = g_audioBuffer s /\
  g_audioBufferLength (emu_seek_position ms s) = g_audioBufferLength s /\
  (g_player s = None -> emu_seek_position ms s = s) /\
  (forall p, g_player s = Some p ->
     exists opl, g_opl s = Some opl /\
       g_player (emu_seek_position ms s) = Some (seek p opl ms).1 /\
       g_opl (emu_seek_position ms s) = Some (seek p opl ms).2 /\
       g_currentPosition (emu_seek_position ms s) = ms) /\
  (forall fuel s',
     emu_compute_audio_samples fuel (emu_seek_position ms s) = Some (0, s') ->
     g_currentPosition s' =
       position_of (wrap_ulong (g_totalSamplesGenerated s + AUDIO_BUFFER_SIZE))
         (g_sampleRate s)).
Proof.
  intros Hreach.
  assert (reachable (emu_seek_position ms s)) as Hreach'.
  { by apply (reach_call (CallSeek ms) s). }
  assert (clock_of (emu_seek_position ms s) = clock_of s /\
          compute_untouched (emu_seek_position ms s) = compute_untouched s /\
          g_audioBuffer (emu_seek_position ms s) = g_audioBuffer s /\
          g_audioBufferLength (emu_seek_position ms s) = g_audioBufferLength s)
    as (Hclock & Hun & Hbuf & Hlen).
  { unfold emu_seek_position.
    destruct (g_player s) as [p|]; [|done].
    destruct (g_opl s) as [opl|]; [|done].
    by destruct (seek p opl ms) as [p' opl']. }
  split_and!; try done.
  - unfold emu_seek_position. by intros ->.
  - intros p Hp.
    destruct (reachable_inv s Hreach) as (_ & _ & [Hopl _] & _).
    destruct Hopl as [opl Hopl]; [by eexists|].
    exists opl. unfold emu_seek_position. rewrite Hp, Hopl.
    by destruct (seek p opl ms) as [p' opl'].
  - intros fuel s' Hc.
    destruct (reachable_clock _ Hreach') as [Hacc Hrate].
    apply emu_compute_spec in Hc; [|done..].
    destruct Hc as [(_ & ? & _)|(_ & _ & _ & _ & Hcase)]; [done|].
    destruct Hcase as [(_ & Ht & Hp & _)|(? & _)]; [|done].
    rewrite Hp, Ht.
    unfold clock_of in Hclock. unfold compute_untouched in Hun.
    congruence.
Qed.

End PositionClaim.

Section PositionRun.
Import AdPlugAdapter Toy.


Lemma run_block3 : emu_compute_audio_samples 8 block2 = Some (1, block3).
Proof. vm_compute. reflexivity. Qed.



Lemma emu_seek_position_frame_witness :
  reachable block1 /\
  g_currentPosition (emu_seek_position 60000 block1) = 60000 /\
  forall s', emu_compute_audio_samples 8 (emu_seek_position 60000 block1)
             = Some (0, s') ->
    g_currentPosition s' =
      position_of (wrap_ulong (g_totalSamplesGenerated block1
                               + AUDIO_BUFFER_SIZE)) (g_sampleRate block1).
Proof.
  pose proof (emu_seek_position_frame 60000 block1 reachable_block1)
    as (_ & _ & _ & _ & _ & _ & Hnext).
  split_and!; [apply reachable_block1|vm_compute; reflexivity|].
  intros s'. apply Hnext.
Defined.

End PositionRun.

(** ** The libopenmpt adapter *)

Section MptProps.
Context `{Lib : OpenMPTAdapter.OpenMPT}.
Import OpenMPTAdapter.

Lemma store_metadata_length dst value :
  length (store_metadata dst value) = length dst.
Proof.
  destruct value as [v|]; simpl.
  - by rewrite length_insert, strncpy_length.
  - by rewrite length_insert.
Qed.

Lemma cleared_field_text (dst : list ascii) :
  (0 < length dst)%nat -> field_text (<[0%nat := NUL]> dst) = EmptyString.
Proof. destruct dst as [|c r]; simpl; [lia|done]. Qed.

(** A field written by [mpt_load_file] reads as the metadata value cut to
    255 characters, or as the empty text when there is no value. *)
Lemma store_metadata_text dst value :
  length dst = TITLE_CAP ->
  field_text (store_metadata dst value) = metadata_text value.
Proof.
  intros Hlen. destruct value as [v|]; unfold store_metadata, metadata_text.
  2:{ apply cleared_field_text. rewrite Hlen. unfold TITLE_CAP. lia. }
  unfold field_text. f_equal. unfold strncpy.
  set (w := take (TITLE_CAP - 1) (c_str v ++ replicate (TITLE_CAP - 1) NUL)).
  assert (length w = (TITLE_CAP - 1)%nat) as Hw by apply strncpy_written.
  rewrite <- (take_drop (TITLE_CAP - 1) dst).
  rewrite list_inserts_0_r.
  2:{ rewrite Hw, length_take, Hlen. unfold TITLE_CAP. lia. }
  destruct (drop (TITLE_CAP - 1) dst) as [|x r] eqn:Hdrop.
  { apply (f_equal length) in Hdrop. rewrite length_drop, Hlen in Hdrop.
    unfold TITLE_CAP in Hdrop. simpl in Hdrop. lia. }
  rewrite insert_app_r_alt by lia.
  rewrite Hw, Nat.sub_diag. simpl.
  apply strncpy_written_text.
Qed.

Lemma mpt_initial_wf : mpt_meta_wf mpt_initial.
Proof. unfold mpt_meta_wf, mpt_initial. cbn -[replicate]. by rewrite !length_replicate. Qed.

Lemma mpt_load_file_invalid filename data n s :
  data = None \/ n <= 0 -> mpt_load_file filename data n s = (-1, s).
Proof.
  unfold mpt_load_file. intros Hbad. destruct data as [bytes|]; [|done].
  destruct (Z.leb_spec n 0); [done|]. destruct Hbad; [done|lia].
Qed.

(** A call of [mpt_load_file] that passes the argument check. *)
Lemma mpt_load_file_valid filename bytes n s :
  0 < n ->
  mpt_load_file filename (Some bytes) n s =
    match openmpt_module_create_from_memory2 bytes n with
    | None => (-1, set_g_module None s)
    | Some m0 =>
        let m := openmpt_module_set_repeat_count m0 (g_repeatCount s) in
        (0, set_g_type
              (store_metadata (g_type s)
                 (openmpt_module_get_metadata m "type_long"))
              (set_g_artist
                 (store_metadata (g_artist s)
                    (openmpt_module_get_metadata m "artist"))
                 (set_g_title
                    (store_metadata (g_title s)
                       (openmpt_module_get_metadata m "title"))
                    (set_g_module (Some m) s))))
    end.
Proof.
  intros Hn. unfold mpt_load_file.
  destruct (Z.leb_spec n 0); [lia|]. simpl.
  by destruct (openmpt_module_create_from_memory2 bytes n).
Qed.

Lemma mpt_run_wf c s : mpt_meta_wf s -> mpt_meta_wf (mpt_run c s).
Proof.
  intros (Ht & Ha & Hty & Hi).
  destruct c as [r| |f d n| |t| |k|]; simpl; try done.
  - unfold mpt_meta_wf. simpl. by rewrite !length_insert.
  - destruct d as [bytes|]; [|done].
    destruct (Z.leb_spec n 0) as [Hle|Hn].
    { by rewrite mpt_load_file_invalid by auto. }
    rewrite mpt_load_file_valid by done.
    destruct (openmpt_module_create_from_memory2 bytes n); [|done].
    unfold mpt_meta_wf. simpl. by rewrite !store_metadata_length.
  - unfold mpt_compute_audio_samples.
    destruct (g_module s) as [m|]; [|done].
    destruct (g_audioBuffer s) as [buf|]; [|done].
    destruct (openmpt_module_read_interleaved_float_stereo _ _ _)
      as [[frames samples] m'].
    by destruct (frames =? 0).
  - unfold mpt_set_position_seconds. by destruct (g_module s).
  - unfold mpt_meta_wf. simpl. by rewrite length_inserts.
  - unfold mpt_set_repeat_count. simpl. by destruct (g_module s).
  - unfold mpt_rewind. by destruct (g_module s).
Qed.

Lemma mpt_reachable_wf s : mpt_reachable s -> mpt_meta_wf s.
Proof.
  induction 1 as [|c s _ IH]; [apply mpt_initial_wf|by apply mpt_run_wf].
Qed.

End MptProps.

(** ** Rewinding *)

Section RewindAdPlug.
Context `{Lib : AdPlugAdapter.AdPlug}.
Import AdPlugAdapter.

Lemma emu_rewind_resets s :
  reachable s -> is_Some (g_player s) ->
  emu_get_current_position (emu_rewind s) = 0 /\
  g_sampleAccumulator (emu_rewind s) = 0%Q /\
  g_currentTick (emu_rewind s) = 0 /\
  g_totalSamplesGenerated (emu_rewind s) = 0 /\
  is_Some (g_player (emu_rewind s)) /\
  forall fuel s',
    emu_compute_audio_samples fuel (emu_rewind s) = Some (0, s') ->
    g_totalSamplesGenerated s' = AUDIO_BUFFER_SIZE /\
    g_currentPosition s' = position_of AUDIO_BUFFER_SIZE (g_sampleRate s).
Proof.
  intros Hreach [p Hp].
  destruct (reachable_inv s Hreach) as (_ & _ & [Hopl _] & _).
  destruct Hopl as [opl Hopl]; [by eexists|].
  assert (reachable (emu_rewind s)) as Hreach'.
  { by apply (reach_call CallRewind s). }
  destruct (reachable_clock _ Hreach') as [Hacc Hrate].
  revert Hreach' Hacc Hrate. unfold emu_rewind. rewrite Hp, Hopl.
  destruct (rewind p opl (-1)) as [p' opl']. simpl.
  intros Hreach' Hacc Hrate.
  split_and!; try done.
  intros fuel s' Hc.
  apply emu_compute_spec in Hc; [|done..].
  destruct Hc as [(_ & ? & _)|(_ & _ & _ & _ & Hcase)]; [done|].
  destruct Hcase as [(_ & Ht & Hpos & _)|(? & _)]; [|done].
  simpl in *. by rewrite Hpos, Ht.
Qed.

End RewindAdPlug.

Section RewindMpt.
Context `{Lib : OpenMPTAdapter.OpenMPT}.
Import OpenMPTAdapter.

Lemma mpt_rewind_position s m :
  g_module s = Some m ->
  mpt_get_position_seconds (mpt_rewind s) =
    openmpt_module_get_position_seconds
      (openmpt_module_set_position_seconds m 0%Q).
Proof.
  intros Hm. unfold mpt_rewind, mpt_get_position_seconds. by rewrite Hm.
Qed.

End RewindMpt.

(** C8.  With a track loaded, [rewind] followed by a position query
    yields 0 on both surfaces.  On the tick backend the position is the
    adapter's own and [emu_rewind] also zeroes the accumulator, the tick
    counter and the total, so that the next full block puts the position
    where the first block after a load puts it.  On the frame-pull backend
    the position is the library's: [mpt_rewind] sets it to 0.0 and the
    query reads it back, so the result is 0 for every library that reports
    the position it was last set to. *)
Theorem rewind_position_zero :
  (forall (Lib : AdPlugAdapter.AdPlug) (s : AdPlugAdapter.emu_state),
     AdPlugAdapter.reachable s -> is_Some (AdPlugAdapter.g_player s) ->
     AdPlugAdapter.emu_get_current_position (AdPlugAdapter.emu_rewind s) = 0 /\
     AdPlugAdapter.g_sampleAccumulator (AdPlugAdapter.emu_rewind s) = 0%Q /\
     AdPlugAdapter.g_currentTick (AdPlugAdapter.emu_rewind s) = 0 /\
     AdPlugAdapter.g_totalSamplesGenerated (AdPlugAdapter.emu_rewind s) = 0 /\
     is_Some (AdPlugAdapter.g_player (AdPlugAdapter.emu_rewind s)) /\
     forall fuel s',
       AdPlugAdapter.emu_compute_audio_samples fuel (AdPlugAdapter.emu_rewind s)
         = Some (0, s') ->
       AdPlugAdapter.g_totalSamplesGenerated s'
         = AdPlugAdapter.AUDIO_BUFFER_SIZE /\
       AdPlugAdapter.g_currentPosition s' =
         AdPlugAdapter.position_of AdPlugAdapter.AUDIO_BUFFER_SIZE
           (AdPlugAdapter.g_sampleRate s)) /\
  (forall (Lib : OpenMPTAdapter.OpenMPT) (s : OpenMPTAdapter.mpt_state) m,
     OpenMPTAdapter.g_module s = Some m ->
     OpenMPTAdapter.mpt_get_position_seconds (OpenMPTAdapter.mpt_rewind s) =
       OpenMPTAdapter.openmpt_module_get_position_seconds
         (OpenMPTAdapter.openmpt_module_set_position_seconds m 0%Q) /\
     ((forall m',
         (OpenMPTAdapter.openmpt_module_get_position_seconds
            (OpenMPTAdapter.openmpt_module_set_position_seconds m' 0%Q)
          == 0)%Q) ->
      (OpenMPTAdapter.mpt_get_position_seconds (OpenMPTAdapter.mpt_rewind s)
       == 0)%Q)).
Proof.
  split.
  - intros Lib s. apply emu_rewind_resets.
  - intros Lib s m Hm. rewrite (mpt_rewind_position s m Hm).
    split; [done|]. intros Hlib. apply Hlib.
Qed.

Section RewindRun.
Import Toy.

Lemma rewind_position_zero_witness :
  (AdPlugAdapter.reachable block2 /\
   is_Some (AdPlugAdapter.g_player block2) /\
   AdPlugAdapter.g_currentPosition block2 = 20 /\
   AdPlugAdapter.emu_get_current_position (AdPlugAdapter.emu_rewind block2) = 0) /\
  (OpenMPTAdapter.g_module (OpenMPTAdapter.mpt_compute_audio_samples mpt_loaded).2
     = Some (mkToyModule 0 1024 (8 # 375) 0 "T") /\
   (OpenMPTAdapter.mpt_get_position_seconds
      (OpenMPTAdapter.mpt_rewind
         (OpenMPTAdapter.mpt_compute_audio_samples mpt_loaded).2) == 0)%Q).
Proof.
  split.
  - assert (is_Some (AdPlugAdapter.g_player block2)) as Hp
      by (vm_compute; eauto).
    split_and!; [apply reachable_block2|exact Hp|vm_compute; reflexivity|].
    apply (proj1 rewind_position_zero toy_adplug block2 reachable_block2 Hp).
  - assert (OpenMPTAdapter.g_module
              (OpenMPTAdapter.mpt_compute_audio_samples mpt_loaded).2
            = Some (mkToyModule 0 1024 (8 # 375) 0 "T")) as Hm
      by (vm_compute; reflexivity).
    split; [exact Hm|].
    apply (proj2 rewind_position_zero toy_openmpt _ _ Hm). done.
Defined.

End RewindRun.

(** ** Computing without a track *)

Section NoTrackAdPlug.
Context `{Lib : AdPlugAdapter.AdPlug}.
Import AdPlugAdapter.




End NoTrackAdPlug.

Section NoTrackMpt.
Context `{Lib : OpenMPTAdapter.OpenMPT}.
Import OpenMPTAdapter.




End NoTrackMpt.


Section NoTrackRun.
Import Toy.


End NoTrackRun.

(** ** Invalid arguments *)

Section InvalidArgsMpt.
Context `{Lib : OpenMPTAdapter.OpenMPT}.
Import OpenMPTAdapter.

(** [mpt_load_file] never looks at its file name. *)
Lemma mpt_load_file_ignores_name filename filename' data n s :
  mpt_load_file filename data n s = mpt_load_file filename' data n s.
Proof. reflexivity. Qed.

End InvalidArgsMpt.

(** C6 (amended).  On the tick surface, [emu_add_file] and
    [emu_load_file] called with a null file name, a null data pointer or a
    size that is not positive return -1 and leave the whole state as it
    is.  On the frame-pull surface, [mpt_load_file] does so for a null data
    pointer or a size that is not positive; it does not examine the file
    name, so a null name is accepted like any other. *)
Theorem invalid_arguments_rejected :
  (forall (Lib : AdPlugAdapter.AdPlug) (s : AdPlugAdapter.emu_state)
          filename data n,
     filename = None \/ data = None \/ n <= 0 ->
     AdPlugAdapter.emu_add_file filename data n s = (-1, s) /\
     AdPlugAdapter.emu_load_file filename data n s = (-1, s)) /\
  (forall (Lib : OpenMPTAdapter.OpenMPT) (s : OpenMPTAdapter.mpt_state)
          filename data n,
     (data = None \/ n <= 0 ->
      OpenMPTAdapter.mpt_load_file filename data n s = (-1, s)) /\
     OpenMPTAdapter.mpt_load_file None data n s
       = OpenMPTAdapter.mpt_load_file filename data n s).
Proof.
  split.
  - intros Lib s filename data n Hbad. split.
    + by apply emu_add_file_invalid.
    + apply emu_load_file_invalid. by right.
  - intros Lib s filename data n. split.
    + apply mpt_load_file_invalid.
    + apply mpt_load_file_ignores_name.
Qed.

Section InvalidArgsRun.
Import Toy.

(** On the frame-pull surface a load with a null file name and valid data
    succeeds and replaces the module. *)
Lemma null_filename_counterexample :
  OpenMPTAdapter.mpt_load_file None (Some demo_module) 3 mpt_ready
    = (0, mpt_loaded) /\
  OpenMPTAdapter.g_module mpt_ready = None /\
  OpenMPTAdapter.g_module mpt_loaded
    = Some (mkToyModule 1024 1024 0 0 "T") /\
  OpenMPTAdapter.mpt_load_file None (Some demo_module) 3 mpt_ready
    <> (-1, mpt_ready).
Proof.
  split_and!.
  - vm_compute. reflexivity.
  - reflexivity.
  - vm_compute. reflexivity.
  - vm_compute. discriminate.
Qed.

Lemma invalid_arguments_rejected_witness :
  AdPlugAdapter.emu_add_file None (Some demo_song) 3 block1 = (-1, block1) /\
  AdPlugAdapter.emu_load_file (Some "song.d00"%string) (Some demo_song) 0 block1
    = (-1, block1) /\
  OpenMPTAdapter.mpt_load_file (Some "tune.mod"%string) None 3 mpt_loaded
    = (-1, mpt_loaded).
Proof.
  split_and!.
  - apply (proj1 invalid_arguments_rejected). by left.
  - apply (proj1 invalid_arguments_rejected). right. right. lia.
  - apply (proj2 invalid_arguments_rejected). by left.
Defined.

End InvalidArgsRun.

(** ** Track metadata *)

Section MetadataAdPlug.
Context `{Lib : AdPlugAdapter.AdPlug}.
Import AdPlugAdapter.

(** A successful load fills the four fields from the player the factory
    returned, each cut to one character less than the capacity of its
    field. *)
Lemma emu_load_file_metadata s filename data n s' :
  reachable s -> emu_load_file filename data n s = (0, s') ->
  meta_wf s' /\
  exists name opl p opl',
    filename = Some name /\ g_opl s = Some opl /\
    factory name (opl_init opl)
      (CProvider_Memory_open (g_files s') (store_heap s')) = (Some p, opl') /\
    field_text (g_title s')
      = string_of_list_ascii (take (TITLE_CAP - 1) (c_str (gettitle p))) /\
    field_text (g_author s')
      = string_of_list_ascii (take (TITLE_CAP - 1) (c_str (getauthor p))) /\
    field_text (g_type s')
      = string_of_list_ascii (take (TITLE_CAP - 1) (c_str (gettype p))) /\
    field_text (g_desc s')
      = string_of_list_ascii (take (DESC_CAP - 1) (c_str (getdesc p))).
Proof.
  intros Hreach Hload.
  pose proof (reachable_inv s Hreach) as Hinv.
  assert (meta_wf s') as Hwf'.
  { pose proof (emu_load_file_inv filename data n s Hinv) as Hinv'.
    rewrite Hload in Hinv'. apply Hinv'. }
  split; [done|].
  destruct Hinv as (_ & _ & _ & Ht & Ha & Hty & Hd).
  destruct (g_opl s) as [opl|] eqn:Hopl;
    [|by rewrite emu_load_file_invalid in Hload by auto].
  destruct filename as [name|];
    [|by rewrite emu_load_file_invalid in Hload by auto].
  destruct data as [bytes|];
    [|by rewrite emu_load_file_invalid in Hload by auto].
  destruct (Z.leb_spec n 0) as [Hle|Hn];
    [by rewrite emu_load_file_invalid in Hload by auto|].
  exists name, opl.
  revert Hload. unfold emu_load_file. rewrite Hopl.
  destruct (Z.leb_spec n 0) as [?|_]; [lia|].
  rewrite emu_add_file_valid by done. simpl.
  destruct (factory _ _ _) as [[p|] opl1] eqn:Hfac; simpl; [|done].
  destruct (songlength p opl1 (-1)) as [[len p'] opl2]. simpl.
  intros [= <-]. simpl. exists p, opl1.
  split_and!; try done.
  - apply (field_text_strncpy TITLE_CAP); [unfold TITLE_CAP; lia|done].
  - apply (field_text_strncpy TITLE_CAP); [unfold TITLE_CAP; lia|done].
  - apply (field_text_strncpy TITLE_CAP); [unfold TITLE_CAP; lia|done].
  - apply (field_text_strncpy DESC_CAP); [unfold DESC_CAP; lia|done].
Qed.

(** A load that fails writes none of the fields. *)
Lemma emu_load_file_failed_metadata s filename data n s' :
  emu_load_file filename data n s = (-1, s') ->
  emu_metadata s' = emu_metadata s.
Proof.
  destruct (g_opl s) as [opl|] eqn:Hopl;
    [|rewrite emu_load_file_invalid by auto; by intros [= <-]].
  destruct filename as [name|];
    [|rewrite emu_load_file_invalid by auto; by intros [= <-]].
  destruct data as [bytes|];
    [|rewrite emu_load_file_invalid by auto; by intros [= <-]].
  destruct (Z.leb_spec n 0) as [Hle|Hn];
    [rewrite emu_load_file_invalid by auto; by intros [= <-]|].
  unfold emu_load_file. rewrite Hopl.
  destruct (Z.leb_spec n 0) as [?|_]; [lia|].
  rewrite emu_add_file_valid by done. simpl.
  destruct (factory _ _ _) as [[p|] opl1]; simpl.
  - by destruct (songlength p opl1 (-1)) as [[len p'] opl2].
  - by intros [= <-].
Qed.

End MetadataAdPlug.

Section MetadataMpt.
Context `{Lib : OpenMPTAdapter.OpenMPT}.
Import OpenMPTAdapter.

Lemma mpt_load_file_metadata s filename data n s' :
  mpt_reachable s -> mpt_load_file filename data n s = (0, s') ->
  mpt_meta_wf s' /\
  exists bytes m0,
    data = Some bytes /\
    openmpt_module_create_from_memory2 bytes n = Some m0 /\
    let m := openmpt_module_set_repeat_count m0 (g_repeatCount s) in
    field_text (g_title s')
      = metadata_text (openmpt_module_get_metadata m "title") /\
    field_text (g_artist s')
      = metadata_text (openmpt_module_get_metadata m "artist") /\
    field_text (g_type s')
      = metadata_text (openmpt_module_get_metadata m "type_long").
Proof.
  intros Hreach Hload.
  pose proof (mpt_reachable_wf s Hreach) as Hwf.
  split.
  { pose proof (mpt_run_wf (MptLoadFile filename data n) s Hwf) as Hwf'.
    simpl in Hwf'. by rewrite Hload in Hwf'. }
  destruct Hwf as (Ht & Ha & Hty & _).
  destruct data as [bytes|];
    [|by rewrite mpt_load_file_invalid in Hload by auto].
  destruct (Z.leb_spec n 0) as [Hle|Hn];
    [by rewrite mpt_load_file_invalid in Hload by auto|].
  rewrite mpt_load_file_valid in Hload by done.
  destruct (openmpt_module_create_from_memory2 bytes n) as [m0|] eqn:Hm0;
    [|done].
  injection Hload as <-. exists bytes, m0. simpl.
  split_and!; try done; by apply store_metadata_text.
Qed.

Lemma mpt_load_file_failed_metadata s filename data n s' :
  mpt_load_file filename data n s = (-1, s') ->
  mpt_metadata s' = mpt_metadata s.
Proof.
  destruct data as [bytes|];
    [|rewrite mpt_load_file_invalid by auto; by intros [= <-]].
  destruct (Z.leb_spec n 0) as [Hle|Hn];
    [rewrite mpt_load_file_invalid by auto; by intros [= <-]|].
  rewrite mpt_load_file_valid by done.
  destruct (openmpt_module_create_from_memory2 bytes n); [done|].
  by intros [= <-].
Qed.

Lemma mpt_init_clears r s :
  mpt_reachable s ->
  field_text (g_title (mpt_init r s).2) = EmptyString /\
  field_text (g_artist (mpt_init r s).2) = EmptyString /\
  field_text (g_type (mpt_init r s).2) = EmptyString.
Proof.
  intros Hreach. destruct (mpt_reachable_wf s Hreach) as (Ht & Ha & Hty & _).
  simpl. split_and!; apply cleared_field_text;
    rewrite ?Ht, ?Ha, ?Hty; unfold TITLE_CAP; lia.
Qed.

End MetadataMpt.

(** C9 (amended).  On both surfaces a successful load writes the text
    fields once, from the track just created, and cuts each text to one
    character less than the capacity of its field (255 for title, author or
    artist and type, 1023 for the description, which only the tick surface
    has); the fields keep their capacity.  Neither teardown nor a failed
    load writes them: they keep the text of the last successful load.  On
    the frame-pull surface [mpt_init] empties them. *)
Theorem metadata_fields :
  (forall (Lib : AdPlugAdapter.AdPlug) (s s' : AdPlugAdapter.emu_state)
          filename data n,
     AdPlugAdapter.reachable s ->
     AdPlugAdapter.emu_load_file filename data n s = (0, s') ->
     meta_wf s' /\
     exists name opl p opl',
       filename = Some name /\ AdPlugAdapter.g_opl s = Some opl /\
       AdPlugAdapter.factory name (AdPlugAdapter.opl_init opl)
         (CProvider_Memory_open (AdPlugAdapter.g_files s')
            (AdPlugAdapter.store_heap s')) = (Some p, opl') /\
       field_text (AdPlugAdapter.g_title s')
         = string_of_list_ascii
             (take 255 (c_str (AdPlugAdapter.gettitle p))) /\
       field_text (AdPlugAdapter.g_author s')
         = string_of_list_ascii
             (take 255 (c_str (AdPlugAdapter.getauthor p))) /\
       field_text (AdPlugAdapter.g_type s')
         = string_of_list_ascii
             (take 255 (c_str (AdPlugAdapter.gettype p))) /\
       field_text (AdPlugAdapter.g_desc s')
         = string_of_list_ascii
             (take 1023 (c_str (AdPlugAdapter.getdesc p)))) /\
  (forall (Lib : AdPlugAdapter.AdPlug) (s s' : AdPlugAdapter.emu_state)
          filename data n,
     AdPlugAdapter.emu_load_file filename data n s = (-1, s') ->
     emu_metadata s' = emu_metadata s) /\
  (forall (Lib : AdPlugAdapter.AdPlug) (s : AdPlugAdapter.emu_state),
     emu_metadata (AdPlugAdapter.emu_teardown s) = emu_metadata s) /\
  (forall (Lib : OpenMPTAdapter.OpenMPT) (s s' : OpenMPTAdapter.mpt_state)
          filename data n,
     OpenMPTAdapter.mpt_reachable s ->
     OpenMPTAdapter.mpt_load_file filename data n s = (0, s') ->
     mpt_meta_wf s' /\
     exists bytes m0,
       data = Some bytes /\
       OpenMPTAdapter.openmpt_module_create_from_memory2 bytes n = Some m0 /\
       let m := OpenMPTAdapter.openmpt_module_set_repeat_count m0
                  (OpenMPTAdapter.g_repeatCount s) in
       field_text (OpenMPTAdapter.g_title s')
         = metadata_text (OpenMPTAdapter.openmpt_module_get_metadata m "title") /\
       field_text (OpenMPTAdapter.g_artist s')
         = metadata_text (OpenMPTAdapter.openmpt_module_get_metadata m "artist") /\
       field_text (OpenMPTAdapter.g_type s')
         = metadata_text
             (OpenMPTAdapter.openmpt_module_get_metadata m "type_long")) /\
  (forall (Lib : OpenMPTAdapter.OpenMPT) (s s' : OpenMPTAdapter.mpt_state)
          filename data n,
     OpenMPTAdapter.mpt_load_file filename data n s = (-1, s') ->
     mpt_metadata s' = mpt_metadata s) /\
  (forall (Lib : OpenMPTAdapter.OpenMPT) (s : OpenMPTAdapter.mpt_state),
     mpt_metadata (OpenMPTAdapter.mpt_teardown s) = mpt_metadata s) /\
  (forall (Lib : OpenMPTAdapter.OpenMPT) (s : OpenMPTAdapter.mpt_state) r,
     OpenMPTAdapter.mpt_reachable s ->
     field_text (OpenMPTAdapter.g_title (OpenMPTAdapter.mpt_init r s).2)
       = EmptyString /\
     field_text (OpenMPTAdapter.g_artist (OpenMPTAdapter.mpt_init r s).2)
       = EmptyString /\
     field_text (OpenMPTAdapter.g_type (OpenMPTAdapter.mpt_init r s).2)
       = EmptyString).
Proof.
  split_and!.
  - intros Lib s s' filename data n. apply emu_load_file_metadata.
  - intros Lib s s' filename data n. apply emu_load_file_failed_metadata.
  - done.
  - intros Lib s s' filename data n. apply mpt_load_file_metadata.
  - intros Lib s s' filename data n. apply mpt_load_file_failed_metadata.
  - done.
  - intros Lib s r. apply mpt_init_clears.
Qed.

Section MetadataRun.
Import Toy.

(** The title "T" of the loaded track is still in its field after
    teardown and after a failed load, on both surfaces. *)
Lemma metadata_not_cleared_counterexample :
  field_text (AdPlugAdapter.g_title loaded) = "T"%string /\
  field_text (AdPlugAdapter.g_title (AdPlugAdapter.emu_teardown loaded))
    = "T"%string /\
  (AdPlugAdapter.emu_load_file (Some "bad.d00"%string)
     (Some ["000"; "000"]%byte) 2 loaded).1 = -1 /\
  field_text (AdPlugAdapter.g_title
                (AdPlugAdapter.emu_load_file (Some "bad.d00"%string)
                   (Some ["000"; "000"]%byte) 2 loaded).2) = "T"%string /\
  field_text (OpenMPTAdapter.g_title mpt_loaded) = "T"%string /\
  field_text (OpenMPTAdapter.g_title (OpenMPTAdapter.mpt_teardown mpt_loaded))
    = "T"%string /\
  (OpenMPTAdapter.mpt_load_file (Some "bad.mod"%string)
     (Some ["000"; "000"]%byte) 2 mpt_loaded).1 = -1 /\
  field_text (OpenMPTAdapter.g_title
                (OpenMPTAdapter.mpt_load_file (Some "bad.mod"%string)
                   (Some ["000"; "000"]%byte) 2 mpt_loaded).2) = "T"%string.
Proof. split_and!; vm_compute; reflexivity. Qed.

Lemma run_long_loaded :
  AdPlugAdapter.emu_load_file (Some "long.d00"%string) (Some long_song) 302 ready
  = (0, long_loaded).
Proof. vm_compute. reflexivity. Qed.

Lemma metadata_fields_witness :
  AdPlugAdapter.reachable ready /\
  AdPlugAdapter.emu_load_file (Some "long.d00"%string) (Some long_song) 302 ready
    = (0, long_loaded) /\
  meta_wf long_loaded /\
  String.length (AdPlugAdapter.gettitle (mkToy 3 3 70 0
                   (string_of_bytes (replicate 300 "065"%byte)))) = 300%nat /\
  String.length (field_text (AdPlugAdapter.g_title long_loaded)) = 255%nat.
Proof.
  split_and!.
  - apply reachable_ready.
  - apply run_long_loaded.
  - apply (proj1 metadata_fields toy_adplug ready long_loaded _ _ _
             reachable_ready run_long_loaded).
  - vm_compute. reflexivity.
  - vm_compute. reflexivity.
Defined.

End MetadataRun.

(** * Further properties of the adapters *)

(** ** [toLower] and [getFilename] *)

Lemma lower_char_cases c :
  is_upper (lower_char c) = false /\
  (is_upper c = false -> lower_char c = c) /\
  (is_upper c = true ->
   N_of_ascii (lower_char c) = (N_of_ascii c + 32)%N).
Proof.
  destruct c as [[] [] [] [] [] [] [] []]; vm_compute; split_and!; by intros.
Qed.

(** [toLower] keeps the length of a string, leaves every character that
    is not an upper-case ASCII letter as it is, moves each upper-case
    letter 32 code points up, and produces a string without upper-case
    letters; applying it twice is the same as applying it once. *)
Theorem toLower_spec (s : string) :
  String.length (toLower s) = String.length s /\
  Forall2 (λ c d, if is_upper c then N_of_ascii d = (N_of_ascii c + 32)%N
                  else d = c) (chars s) (chars (toLower s)) /\
  Forall (λ d, is_upper d = false) (chars (toLower s)) /\
  toLower (toLower s) = toLower s.
Proof.
  induction s as [|c s (IHlen & IHrel & IHlow & IHid)]; simpl.
  { split_and!; try done; constructor. }
  destruct (lower_char_cases c) as (Hlow & Hkeep & Hmove).
  split_and!.
  - by rewrite IHlen.
  - constructor; [|done].
    destruct (is_upper c) eqn:Hc; [by apply Hmove|by apply Hkeep].
  - by constructor.
  - rewrite IHid. f_equal.
    destruct (lower_char_cases (lower_char c)) as (_ & Hkeep' & _).
    by apply Hkeep'.
Qed.

Lemma find_last_of_sep_shift s i :
  find_last_of_sep s (S i) = S <$> find_last_of_sep s i.
Proof.
  revert i. induction s as [|c s IH]; intros i; simpl; [done|].
  rewrite (IH (S i)), (IH i).
  destruct (find_last_of_sep s i); simpl; [done|].
  by destruct (is_path_sep c).
Qed.

Lemma find_last_of_sep_none s i :
  find_last_of_sep s i = None <->
  Forall (λ c, is_path_sep c = false) (chars s).
Proof.
  revert i. induction s as [|c s IH]; intros i; simpl.
  { split; [constructor|done]. }
  split.
  - destruct (find_last_of_sep s (S i)) eqn:Hr; [done|].
    destruct (is_path_sep c) eqn:Hc; [done|]. intros _.
    constructor; [done|]. by eapply IH.
  - intros Hall. apply Forall_cons in Hall as [Hc Hs].
    apply (IH (S i)) in Hs. by rewrite Hs, Hc.
Qed.

(** [getFilename] on a path that starts with the character [c]. *)
Lemma getFilename_cons c s :
  getFilename (String c s) =
    match find_last_of_sep s 0 with
    | Some _ => getFilename s
    | None => if is_path_sep c then s else String c s
    end.
Proof.
  unfold getFilename. simpl. rewrite find_last_of_sep_shift.
  destruct (find_last_of_sep s 0) as [j|]; simpl.
  - by rewrite Nat.add_1_r.
  - by destruct (is_path_sep c).
Qed.

Lemma getFilename_no_sep s :
  Forall (λ c, is_path_sep c = false) (chars s) -> getFilename s = s.
Proof.
  intros Hs. unfold getFilename.
  by rewrite (proj2 (find_last_of_sep_none s 0) Hs).
Qed.

Lemma getFilename_clean s :
  Forall (λ c, is_path_sep c = false) (chars (getFilename s)).
Proof.
  induction s as [|c s IH]; [constructor|].
  rewrite getFilename_cons.
  destruct (find_last_of_sep s 0) as [j|] eqn:Hfind; [done|].
  apply (find_last_of_sep_none s 0) in Hfind.
  destruct (is_path_sep c) eqn:Hc; [done|by constructor].
Qed.

Lemma getFilename_idemp s : getFilename (getFilename s) = getFilename s.
Proof. apply getFilename_no_sep, getFilename_clean. Qed.

(** [getFilename path] is what follows the last ['/'] or ['\'] of the
    path: the path is a directory part, empty or ending in a separator,
    followed by the result, and the result holds no separator.  A path
    without separator is returned whole, and stripping twice is the same as
    stripping once. *)
Theorem getFilename_spec (path : string) :
  Forall (λ c, is_path_sep c = false) (chars (getFilename path)) /\
  (exists dir,
     path = (dir ++ getFilename path)%string /\
     (dir = EmptyString \/
      exists sep, last (chars dir) = Some sep /\ is_path_sep sep = true)) /\
  (Forall (λ c, is_path_sep c = false) (chars path) ->
   getFilename path = path) /\
  getFilename (getFilename path) = getFilename path.
Proof.
  assert (Forall (λ c, is_path_sep c = false) (chars (getFilename path)) /\
          exists dir,
            path = (dir ++ getFilename path)%string /\
            (dir = EmptyString \/
             exists sep, last (chars dir) = Some sep /\ is_path_sep sep = true))
    as [Hclean Hdir].
  { induction path as [|c s (IHclean & dir & IHeq & IHdir)].
    { split; [constructor|]. exists EmptyString. by split; [|left]. }
    rewrite getFilename_cons.
    destruct (find_last_of_sep s 0) as [j|] eqn:Hfind.
    - split; [done|]. exists (String c dir).
      split; [change (String c s = String c (dir ++ getFilename s)%string);
              by f_equal|].
      right. destruct IHdir as [->|(sep & Hlast & Hsep)].
      + change (s = getFilename s) in IHeq.
        assert (find_last_of_sep s 0 = None) as Hn.
        { apply find_last_of_sep_none. by rewrite IHeq. }
        congruence.
      + exists sep. split; [|done]. unfold chars in *. simpl.
        destruct (list_ascii_of_string dir); [done|]. done.
    - apply (find_last_of_sep_none s 0) in Hfind.
      destruct (is_path_sep c) eqn:Hc.
      + split; [done|]. exists (String c EmptyString). split; [done|].
        right. by exists c.
      + split; [by constructor|]. exists EmptyString. by split; [|left]. }
  split_and!; [done|done|apply getFilename_no_sep|by apply getFilename_no_sep].
Qed.

(** ** When [open] finds a file *)

Lemma ci_equal_stripped filename : ci_equal (getFilename filename) filename.
Proof.
  unfold ci_equal. by rewrite getFilename_idemp.
Qed.

Lemma open_is_Some_iff (files : gmap string FileData) (h : heap_t) filename :
  is_Some (CProvider_Memory_open files h filename) <->
  exists key, is_Some (files !! key) /\ ci_equal key filename.
Proof.
  unfold CProvider_Memory_open, open_find.
  pose proof (tier_c_find files filename) as Hc.
  split.
  - destruct (files !! filename) as [fd|] eqn:Ha.
    { intros _. exists filename. split; [by eexists|done]. }
    destruct (files !! getFilename filename) as [fd|] eqn:Hb.
    { intros _. exists (getFilename filename).
      split; [by eexists|apply ci_equal_stripped]. }
    simpl. destruct (List.find _ _) as [[k fd]|]; simpl in *.
    + destruct Hc as (Hk & Hci & _). intros _. exists k.
      split; [by eexists|done].
    + by intros [? ?].
  - intros (key & Hkey & Hci).
    destruct (files !! filename) as [fd|]; [by eexists|].
    destruct (files !! getFilename filename) as [fd|]; [by eexists|].
    simpl. destruct (List.find _ _) as [[k fd]|]; simpl in *.
    + destruct Hc as (-> & _). by eexists.
    + by destruct (Hc key Hkey).
Qed.

(** [CProvider_Memory::open] returns a stream exactly when some stored
    name equals the requested one up to directory prefix and letter case,
    and the stream then carries the bytes of such an entry. *)
Theorem open_finds_iff (files : gmap string FileData) (h : heap_t)
    (filename : string) :
  (is_Some (CProvider_Memory_open files h filename) <->
   exists key, is_Some (files !! key) /\ ci_equal key filename) /\
  (forall bytes, CProvider_Memory_open files h filename = Some bytes ->
     exists key fd,
       files !! key = Some fd /\ ci_equal key filename /\
       bytes = file_bytes h fd).
Proof.
  split; [apply open_is_Some_iff|].
  unfold CProvider_Memory_open, open_find.
  pose proof (tier_c_find files filename) as Hc.
  intros bytes.
  destruct (files !! filename) as [fd|] eqn:Ha.
  { intros [= <-]. by exists filename, fd. }
  destruct (files !! getFilename filename) as [fd|] eqn:Hb.
  { intros [= <-]. exists (getFilename filename), fd.
    split_and!; [done|apply ci_equal_stripped|done]. }
  simpl. destruct (List.find _ _) as [[k fd]|]; simpl in *; [|done].
  destruct Hc as (Hk & Hci & _). rewrite Hk. simpl.
  intros [= <-]. by exists k, fd.
Qed.

(** ** Registering files *)

Section AddFileExtra.
Context `{Lib : AdPlugAdapter.AdPlug}.
Import AdPlugAdapter.

(** What [emu_add_file] leaves alone: every global but the store, and in
    the store every entry under another name, whose bytes stay what they
    were; no other name appears.  The name itself resolves to the copied
    bytes, whether it was registered before or not. *)
Theorem emu_add_file_frame_store (s : emu_state) (name : string)
    (bytes : list byte) (n : Z) :
  store_wf s -> 0 < n ->
  let r := emu_add_file (Some name) (Some bytes) n s in
  r.1 = 0 /\
  (forall v w, set_g_files v (set_store_heap w r.2)
               = set_g_files v (set_store_heap w s)) /\
  CProvider_Memory_open (g_files r.2) (store_heap r.2) name
    = Some (take (Z.to_nat n) bytes) /\
  (forall k, k <> name -> g_files r.2 !! k = g_files s !! k) /\
  (forall k fd, k <> name -> g_files s !! k = Some fd ->
     file_bytes (store_heap r.2) fd = file_bytes (store_heap s) fd).
Proof.
  intros Hwf Hn r. subst r. rewrite emu_add_file_valid by done. simpl.
  split_and!.
  - done.
  - intros v w. by destruct s.
  - unfold CProvider_Memory_open, open_find.
    rewrite lookup_insert_eq. unfold file_bytes. simpl.
    rewrite lookup_insert_eq. simpl. rewrite take_take. f_equal. f_equal. lia.
  - intros k Hk. by rewrite lookup_insert_ne.
  - intros k fd Hk Hfd. unfold file_bytes. f_equal. f_equal.
    destruct Hwf as (Hlive & _ & Hinj).
    assert (released name (g_files s) (store_heap s) !! data fd
            = store_heap s !! data fd) as Hrel.
    { unfold released. destruct (g_files s !! name) as [old|] eqn:Hold; [|done].
      apply lookup_delete_ne. intros Heq. apply Hk. symmetry. by eapply Hinj. }
    rewrite lookup_insert_ne; [done|].
    intros Heq. destruct (Hlive k fd Hfd) as [b Hb].
    rewrite <- Hrel, <- Heq in Hb.
    pose proof (is_fresh (dom (released name (g_files s) (store_heap s)))) as Hf.
    apply Hf, elem_of_dom. by eexists.
Qed.

(** Once a file is registered, every request for a name that equals its
    name up to directory prefix and letter case gets a stream. *)
Theorem emu_add_file_then_open (s : emu_state) (name request : string)
    (bytes : list byte) (n : Z) :
  0 < n -> ci_equal name request ->
  let s' := (emu_add_file (Some name) (Some bytes) n s).2 in
  is_Some (CProvider_Memory_open (g_files s') (store_heap s') request).
Proof.
  intros Hn Hci s'. apply open_is_Some_iff. exists name. split; [|done].
  subst s'. rewrite emu_add_file_valid by done. simpl.
  rewrite lookup_insert_eq. by eexists.
Qed.

End AddFileExtra.

Section AddFileExtraRun.
Import AdPlugAdapter Toy.

Lemma emu_add_file_frame_store_witness :
  store_wf loaded /\
  CProvider_Memory_open
    (g_files (emu_add_file (Some "STANDARD.BNK"%string)
                (Some ["001"; "002"; "003"]%byte) 2 loaded).2)
    (store_heap (emu_add_file (Some "STANDARD.BNK"%string)
                   (Some ["001"; "002"; "003"]%byte) 2 loaded).2)
    "STANDARD.BNK" = Some (take (Z.to_nat 2) ["001"; "002"; "003"]%byte) /\
  g_files (emu_add_file (Some "STANDARD.BNK"%string)
             (Some ["001"; "002"; "003"]%byte) 2 loaded).2 !! "song.d00"%string
    = g_files loaded !! "song.d00"%string.
Proof.
  assert (store_wf loaded) as Hwf by apply (reachable_inv _ reachable_loaded).
  pose proof (emu_add_file_frame_store loaded "STANDARD.BNK"
                ["001"; "002"; "003"]%byte 2 Hwf ltac:(lia))
    as (_ & _ & Hopen & Hother & _).
  split_and!; [exact Hwf|exact Hopen|by apply Hother].
Defined.

Lemma emu_add_file_then_open_witness :
  ci_equal "STANDARD.BNK" "banks\standard.bnk" /\
  is_Some (CProvider_Memory_open
             (g_files (emu_add_file (Some "STANDARD.BNK"%string)
                         (Some ["001"; "002"]%byte) 2 loaded).2)
             (store_heap (emu_add_file (Some "STANDARD.BNK"%string)
                            (Some ["001"; "002"]%byte) 2 loaded).2)
             "banks\standard.bnk").
Proof.
  assert (ci_equal "STANDARD.BNK" "banks\standard.bnk") as Hci
    by (vm_compute; reflexivity).
  split; [exact Hci|].
  exact (emu_add_file_then_open loaded "STANDARD.BNK" "banks\standard.bnk"
           ["001"; "002"]%byte 2 ltac:(lia) Hci).
Defined.

End AddFileExtraRun.

(** ** Initialisation and teardown of the AdPlug adapter *)

Section LifecycleExtra.
Context `{Lib : AdPlugAdapter.AdPlug}.
Import AdPlugAdapter.

Lemma open_empty (h : heap_t) filename :
  CProvider_Memory_open ∅ h filename = None.
Proof.
  destruct (CProvider_Memory_open ∅ h filename) eqn:Ho; [|done].
  assert (is_Some (CProvider_Memory_open ∅ h filename)) as Hs by by eexists.
  apply open_is_Some_iff in Hs as (key & [fd Hkey] & _).
  by rewrite lookup_empty in Hkey.
Qed.

(** The state [emu_init] produces depends on the state it starts from only
    through the metadata fields and the loop flag, which it does not
    write. *)
Lemma emu_init_state r s :
  store_wf s ->
  (emu_init r s).2 =
    let rate := if 0 <? r then r else DEFAULT_SAMPLE_RATE in
    {| g_opl := Some (opl_init (CNemuopl_new rate)); g_player := None;
       g_sampleRate := rate;
       g_audioBuffer := Some (replicate (Z.to_nat (AUDIO_BUFFER_SIZE * 2)) 0);
       g_audioBufferLength := 0; g_currentPosition := 0; g_maxPosition := 0;
       g_sampleAccumulator := 0%Q; g_totalSamplesGenerated := 0;
       g_currentTick := 0;
       g_title := g_title s; g_author := g_author s; g_type := g_type s;
       g_desc := g_desc s; g_files := ∅; store_heap := ∅;
       g_loopEnabled := g_loopEnabled s |}.
Proof.
  intros Hwf. unfold emu_init, clear_files. simpl.
  by rewrite release_all_owned.
Qed.

(** [emu_init] always succeeds.  It drops the player, empties the file
    store and releases all its blocks, so that no name resolves any more;
    it creates the OPL emulator and a zeroed buffer of 1024 samples, takes
    the requested sample rate if it is positive and 49716 otherwise, and
    zeroes clock and position.  It keeps the metadata fields and the loop
    flag.  A second [emu_init] overrides the first, whatever the rates. *)
Theorem emu_init_resets (r r' : Z) (s : emu_state) :
  store_wf s ->
  let s' := (emu_init r s).2 in
  (emu_init r s).1 = 0 /\
  g_player s' = None /\ is_Some (g_opl s') /\
  g_audioBuffer s' = Some (replicate 1024 0) /\
  g_audioBufferLength s' = 0 /\
  g_sampleRate s' = (if 0 <? r then r else 49716) /\
  clock_of s' = (0%Q, 0, 0) /\
  g_currentPosition s' = 0 /\ g_maxPosition s' = 0 /\
  g_files s' = ∅ /\ store_heap s' = ∅ /\
  (forall filename,
     CProvider_Memory_open (g_files s') (store_heap s') filename = None) /\
  emu_metadata s' = emu_metadata s /\
  g_loopEnabled s' = g_loopEnabled s /\
  (emu_init r' s').2 = (emu_init r' s).2.
Proof.
  intros Hwf s'.
  assert (store_wf s') as Hwf'.
  { unfold store_wf. subst s'. rewrite emu_init_state by done. simpl.
    apply store_owns_empty. }
  assert ((emu_init r' s').2 = (emu_init r' s).2) as Hagain.
  { rewrite (emu_init_state r' s') by done.
    rewrite (emu_init_state r' s) by done.
    subst s'. by rewrite (emu_init_state r s) by done. }
  subst s'. rewrite emu_init_state in * by done. simpl.
  split_and!; try done; try (by eexists); intros; apply open_empty.
Qed.

Lemma emu_teardown_state s :
  store_wf s ->
  emu_teardown s =
    {| g_opl := None; g_player := None; g_sampleRate := g_sampleRate s;
       g_audioBuffer := None; g_audioBufferLength := 0;
       g_currentPosition := 0; g_maxPosition := 0;
       g_sampleAccumulator := g_sampleAccumulator s;
       g_totalSamplesGenerated := g_totalSamplesGenerated s;
       g_currentTick := g_currentTick s;
       g_title := g_title s; g_author := g_author s; g_type := g_type s;
       g_desc := g_desc s; g_files := ∅; store_heap := ∅;
       g_loopEnabled := g_loopEnabled s |}.
Proof.
  intros Hwf. unfold emu_teardown, clear_files. simpl.
  by rewrite release_all_owned.
Qed.

(** [emu_teardown] drops player, OPL emulator and buffer, empties the
    store and zeroes the position and the valid length; it writes neither
    the clock nor the sample rate, the metadata or the loop flag.  Tearing
    down twice is tearing down once.  Afterwards [emu_compute_audio_samples]
    answers 1 and [emu_load_file] answers -1, both without changing the
    state, until [emu_init] is called. *)
Theorem emu_teardown_spec (s : emu_state) :
  store_wf s ->
  let s' := emu_teardown s in
  g_player s' = None /\ g_opl s' = None /\ g_audioBuffer s' = None /\
  g_files s' = ∅ /\ store_heap s' = ∅ /\
  g_audioBufferLength s' = 0 /\
  g_currentPosition s' = 0 /\ g_maxPosition s' = 0 /\
  clock_of s' = clock_of s /\ g_sampleRate s' = g_sampleRate s /\
  emu_metadata s' = emu_metadata s /\ g_loopEnabled s' = g_loopEnabled s /\
  emu_teardown s' = s' /\
  (forall fuel, emu_compute_audio_samples fuel s' = Some (1, s')) /\
  (forall filename data n, emu_load_file filename data n s' = (-1, s')).
Proof.
  intros Hwf s'.
  assert (store_wf s') as Hwf'.
  { unfold store_wf. subst s'. rewrite emu_teardown_state by done. simpl.
    apply store_owns_empty. }
  assert (emu_teardown s' = s') as Hagain.
  { rewrite (emu_teardown_state s') by done.
    subst s'. by rewrite (emu_teardown_state s) by done. }
  split_and!; try done; subst s'; rewrite emu_teardown_state by done;
    done.
Qed.

(** The outcome of [emu_load_file] once its arguments are accepted.  The
    file is registered under its name before the factory runs, and stays
    registered whether the factory recognises it or not; the clock is
    zeroed in both cases.  On success (status 0) a player exists, the
    position is 0 and the duration is the song length the player reports;
    on failure (status -1) no player exists and position and duration are
    not written. *)
Theorem emu_load_file_outcome (s : emu_state) (opl : CNemuopl) (name : string)
    (bytes : list byte) (n : Z) :
  g_opl s = Some opl -> 0 < n ->
  let r := emu_load_file (Some name) (Some bytes) n s in
  let added := (emu_add_file (Some name) (Some bytes) n s).2 in
  g_files r.2 = g_files added /\ store_heap r.2 = store_heap added /\
  CProvider_Memory_open (g_files r.2) (store_heap r.2) name
    = Some (take (Z.to_nat n) bytes) /\
  clock_of r.2 = (0%Q, 0, 0) /\
  g_sampleRate r.2 = g_sampleRate s /\
  g_audioBuffer r.2 = g_audioBuffer s /\
  match factory name (opl_init opl)
          (CProvider_Memory_open (g_files added) (store_heap added)) with
  | (Some p, opl') =>
      r.1 = 0 /\
      g_player r.2 = Some (songlength p opl' (-1)).1.2 /\
      g_opl r.2 = Some (songlength p opl' (-1)).2 /\
      g_maxPosition r.2 = (songlength p opl' (-1)).1.1 /\
      g_currentPosition r.2 = 0
  | (None, opl') =>
      r.1 = -1 /\ g_player r.2 = None /\ g_opl r.2 = Some opl' /\
      g_maxPosition r.2 = g_maxPosition s /\
      g_currentPosition r.2 = g_currentPosition s /\
      emu_metadata r.2 = emu_metadata s
  end.
Proof.
  intros Hopl Hn r added. subst r added.
  unfold emu_load_file. rewrite Hopl.
  destruct (Z.leb_spec n 0) as [?|_]; [lia|].
  rewrite !emu_add_file_valid by done. simpl.
  destruct (factory _ _ _) as [[p|] opl1]; simpl.
  - destruct (songlength p opl1 (-1)) as [[len p'] opl2]. simpl.
    split_and!; try done.
    unfold CProvider_Memory_open, open_find.
    rewrite lookup_insert_eq. unfold file_bytes. simpl.
    rewrite lookup_insert_eq. simpl. rewrite take_take. f_equal. f_equal. lia.
  - split_and!; try done.
    unfold CProvider_Memory_open, open_find.
    rewrite lookup_insert_eq. unfold file_bytes. simpl.
    rewrite lookup_insert_eq. simpl. rewrite take_take. f_equal. f_equal. lia.
Qed.

End LifecycleExtra.

Section LifecycleRun.
Import AdPlugAdapter Toy.

Lemma emu_init_resets_witness :
  store_wf block2 /\
  g_files (emu_init 0 block2).2 = ∅ /\
  g_sampleRate (emu_init 0 block2).2 = 49716 /\
  (emu_init 44100 (emu_init 0 block2).2).2 = (emu_init 44100 block2).2.
Proof.
  assert (store_wf block2) as Hwf by apply (reachable_inv _ reachable_block2).
  pose proof (emu_init_resets 0 44100 block2 Hwf)
    as (_ & _ & _ & _ & _ & Hrate & _ & _ & _ & Hfiles & _ & _ & _ & _ & Hagain).
  split_and!; [exact Hwf|exact Hfiles|exact Hrate|exact Hagain].
Defined.

Lemma emu_teardown_spec_witness :
  store_wf block2 /\
  emu_teardown (emu_teardown block2) = emu_teardown block2 /\
  emu_compute_audio_samples 3 (emu_teardown block2)
    = Some (1, emu_teardown block2) /\
  clock_of (emu_teardown block2) = clock_of block2.
Proof.
  assert (store_wf block2) as Hwf by apply (reachable_inv _ reachable_block2).
  pose proof (emu_teardown_spec block2 Hwf)
    as (_ & _ & _ & _ & _ & _ & _ & _ & Hclock & _ & _ & _ & Hagain & Hc & _).
  split_and!; [exact Hwf|exact Hagain|apply Hc|exact Hclock].
Defined.

Lemma emu_load_file_outcome_witness :
  g_opl block1 = Some 512 /\
  (emu_load_file (Some "bad.d00"%string) (Some ["000"; "001"]%byte) 2 block1).1
    = -1 /\
  CProvider_Memory_open
    (g_files (emu_load_file (Some "bad.d00"%string)
                (Some ["000"; "001"]%byte) 2 block1).2)
    (store_heap (emu_load_file (Some "bad.d00"%string)
                   (Some ["000"; "001"]%byte) 2 block1).2)
    "bad.d00" = Some (take (Z.to_nat 2) ["000"; "001"]%byte) /\
  clock_of (emu_load_file (Some "bad.d00"%string)
              (Some ["000"; "001"]%byte) 2 block1).2 = (0%Q, 0, 0).
Proof.
  assert (g_opl block1 = Some 512) as Hopl by (vm_compute; reflexivity).
  pose proof (emu_load_file_outcome block1 512 "bad.d00" ["000"; "001"]%byte 2
                Hopl ltac:(lia)) as (_ & _ & Hopen & Hclock & _).
  split_and!; [exact Hopl|vm_compute; reflexivity|exact Hopen|exact Hclock].
Defined.

End LifecycleRun.

(** ** More on [emu_compute_audio_samples] *)

Section ComputeExtra.
Context `{Lib : AdPlugAdapter.AdPlug}.
Import AdPlugAdapter.

Lemma render_pending_buffer n s :
  length <$> g_audioBuffer (render_pending n s).2 = length <$> g_audioBuffer s.
Proof.
  unfold render_pending.
  destruct (0 <? Qtrunc (g_sampleAccumulator s)); [|done].
  destruct (g_opl s) as [opl|] eqn:Hopl, (g_audioBuffer s) as [buf|] eqn:Hbuf;
    simpl; rewrite ?Hbuf; try done.
  destruct (opl_update opl _) as [samples opl']. simpl.
  by rewrite length_inserts.
Qed.

Lemma loop_body_buffer n s :
  match loop_body n s with
  | Continue _ s' | SongEnded s' =>
      length <$> g_audioBuffer s' = length <$> g_audioBuffer s
  end.
Proof.
  unfold loop_body. pose proof (render_pending_buffer n s) as Hr.
  destruct (render_pending n s) as [n1 s1]. simpl in Hr.
  unfold process_tick.
  destruct (n1 <? AUDIO_BUFFER_SIZE); [|done].
  destruct (g_player s1) as [p|]; [|done].
  destruct (g_opl s1) as [opl|]; [|done].
  destruct (update p opl) as [[still p'] opl'].
  by destruct still.
Qed.

Lemma compute_loop_buffer fuel n s r s' :
  compute_loop fuel n s = Some (r, s') ->
  length <$> g_audioBuffer s' = length <$> g_audioBuffer s.
Proof.
  revert n s. induction fuel as [|fuel IH]; intros n s; simpl.
  - destruct (n <? AUDIO_BUFFER_SIZE); [done|]. by intros [= <- <-].
  - destruct (n <? AUDIO_BUFFER_SIZE); [|by intros [= <- <-]].
    pose proof (loop_body_buffer n s) as Hb.
    destruct (loop_body n s) as [n1 s1|s1].
    + intros Hc. apply IH in Hc. congruence.
    + by intros [= <- <-].
Qed.

Lemma emu_compute_buffer fuel s r s' :
  emu_compute_audio_samples fuel s = Some (r, s') ->
  length <$> g_audioBuffer s' = length <$> g_audioBuffer s.
Proof.
  unfold emu_compute_audio_samples.
  destruct (g_player s); [|by intros [= <- <-]].
  destruct (g_opl s); [|by intros [= <- <-]].
  destruct (g_audioBuffer s) eqn:Hb; [|intros [= <- <-]; by rewrite Hb].
  rewrite <- Hb. apply compute_loop_buffer.
Qed.

Lemma audio_wf_same s s' :
  g_audioBuffer s' = g_audioBuffer s ->
  g_audioBufferLength s' = g_audioBufferLength s ->
  audio_wf s -> audio_wf s'.
Proof. unfold audio_wf. by intros -> ->. Qed.

Lemma emu_run_audio_wf c s s' :
  emu_inv s -> audio_wf s -> emu_run c s = Some s' -> audio_wf s'.
Proof.
  intros Hinv Hwf.
  destruct c as [r| |f d n|f d n|fuel|ms|i| |e]; cbn [emu_run].
  - intros [= <-]. split.
    + intros buf Hb. unfold emu_init in Hb. cbn -[replicate] in Hb.
      injection Hb as <-. vm_compute. reflexivity.
    + exists 0. by unfold AUDIO_BUFFER_SIZE.
  - intros [= <-]. split; [done|]. exists 0. by unfold AUDIO_BUFFER_SIZE.
  - intros [= <-]. revert Hwf. apply audio_wf_same.
    + by destruct (emu_add_file_frame f d n s) as (_ & _ & -> & _).
    + destruct f as [name|]; [|done]. destruct d as [bytes|]; [|done].
      destruct (Z.leb_spec n 0) as [Hle|Hn].
      * by rewrite emu_add_file_invalid by auto.
      * by rewrite emu_add_file_valid by done.
  - intros [= <-].
    destruct (g_opl s) as [opl|] eqn:Hopl;
      [|by rewrite emu_load_file_invalid by auto].
    destruct f as [name|]; [|by rewrite emu_load_file_invalid by auto].
    destruct d as [bytes|]; [|by rewrite emu_load_file_invalid by auto].
    destruct (Z.leb_spec n 0) as [Hle|Hn];
      [by rewrite emu_load_file_invalid by auto|].
    revert Hwf. unfold emu_load_file. rewrite Hopl.
    destruct (Z.leb_spec n 0) as [?|_]; [lia|].
    rewrite emu_add_file_valid by done. simpl.
    destruct (factory _ _ _) as [[p|] opl1]; simpl;
      [destruct (songlength p opl1 (-1)) as [[len p'] opl2]|];
      by apply audio_wf_same.
  - destruct (emu_compute_audio_samples fuel s) as [[r s1]|] eqn:Hc; [|done].
    simpl. intros [= <-]. destruct Hwf as [Hbuf Hlen].
    pose proof (emu_compute_buffer _ _ _ _ Hc) as Hb.
    destruct Hinv as (_ & [Hacc Hrate] & _).
    apply emu_compute_spec in Hc; [|done..]. split.
    + intros buf Hbuf'. rewrite Hbuf' in Hb.
      destruct (g_audioBuffer s) as [buf0|]; [|done].
      injection Hb as ->. by apply Hbuf.
    + destruct Hc as [(_ & _ & ->)|(_ & _ & _ & _ & Hcase)]; [done|].
      destruct Hcase as [(_ & _ & _ & ->)|(_ & _ & m & Hm & ->)].
      * exists AUDIO_BUFFER_SIZE. by unfold AUDIO_BUFFER_SIZE.
      * exists m. split; [lia|done].
  - intros [= <-]. revert Hwf. unfold emu_seek_position.
    destruct (g_player s) as [p|]; [|done].
    destruct (g_opl s) as [opl|]; [|done].
    destruct (seek p opl ms) as [p' opl']. by apply audio_wf_same.
  - intros [= <-]. revert Hwf. unfold emu_set_subsong.
    destruct (g_player s) as [p|]; [|done].
    destruct (g_opl s) as [opl|]; [|done].
    destruct (rewind p opl i) as [p1 opl1].
    destruct (songlength p1 opl1 i) as [[len p2] opl2].
    by apply audio_wf_same.
  - intros [= <-]. revert Hwf. unfold emu_rewind.
    destruct (g_player s) as [p|]; [|done].
    destruct (g_opl s) as [opl|]; [|done].
    destruct (rewind p opl (-1)) as [p1 opl1]. by apply audio_wf_same.
  - by intros [= <-].
Qed.

Lemma reachable_audio_wf s : reachable s -> audio_wf s.
Proof.
  induction 1 as [|c s s' Hs IH Hrun].
  - split; [done|]. exists 0. by unfold AUDIO_BUFFER_SIZE.
  - eapply emu_run_audio_wf; [by apply reachable_inv|done|done].
Qed.

(** In every state the host can reach, the audio buffer, when it exists,
    has its 1024 samples, and the valid length reported to the host is a
    whole number of 4-byte stereo frames between 0 and 2048 bytes, so it
    never exceeds the buffer.  Inside a call, every rendering step writes
    the frames from [n] up to less than [n'] with [n' <= 512]: the writes
    stay inside the buffer. *)
Theorem audio_buffer_bounds (s : emu_state) :
  reachable s ->
  (forall buf, g_audioBuffer s = Some buf -> length buf = 1024%nat) /\
  0 <= emu_get_audio_buffer_length s <= 2048 /\
  emu_get_audio_buffer_length s `mod` 4 = 0 /\
  (forall n s1, running s -> loop_head s n s1 -> n < AUDIO_BUFFER_SIZE ->
     n <= (render_pending n s1).1 <= AUDIO_BUFFER_SIZE /\
     forall buf, g_audioBuffer (render_pending n s1).2 = Some buf ->
                 length buf = 1024%nat).
Proof.
  intros Hreach. destruct (reachable_audio_wf s Hreach) as [Hbuf Hlen].
  destruct Hlen as (m & Hm & Hlen).
  unfold emu_get_audio_buffer_length, AUDIO_BUFFER_SIZE, SIZEOF_INT16 in *.
  split_and!; [done|lia|lia| |].
  - rewrite Hlen. replace (m * 2 * 2) with (m * 4) by lia.
    apply Z.mod_mul. lia.
  - intros n s1 Hrun Hhead Hn.
    destruct (reachable_inv s Hreach) as (_ & [Hacc Hrate] & _).
    destruct (loop_head_inv s n s1 Hrun Hrate Hacc Hhead)
      as (Hn1 & Hrun1 & Hun & Hacc1 & _).
    destruct (render_pending_spec n s1) as (k & Hk & Hroom & Hcount & _);
      [unfold AUDIO_BUFFER_SIZE; lia|done|].
    unfold AUDIO_BUFFER_SIZE in *. split; [lia|].
    intros buf Hb.
    pose proof (render_pending_buffer n s1) as Hrb. rewrite Hb in Hrb.
    assert (length <$> g_audioBuffer s1 = length <$> g_audioBuffer s) as Hsame.
    { clear -Hhead. induction Hhead as [|n s1 n' s' _ IH _ Hbody]; [done|].
      pose proof (loop_body_buffer n s1) as Hlb. rewrite Hbody in Hlb.
      congruence. }
    rewrite Hsame in Hrb.
    destruct (g_audioBuffer s) as [buf0|] eqn:Hb0; [|done].
    injection Hrb as ->. by apply Hbuf.
Qed.

(** A call of [emu_compute_audio_samples] never writes the sample rate,
    the duration, the metadata, the file store or the loop flag, and it
    neither creates nor drops the player.  It returns 0 only with a full
    block of 2048 valid bytes; when it returns 1 with a track loaded, the
    valid length is that of the partial block and is below 2048. *)
Theorem emu_compute_frame (fuel : nat) (s s' : emu_state) (r : Z) :
  reachable s -> emu_compute_audio_samples fuel s = Some (r, s') ->
  compute_untouched s' = compute_untouched s /\
  (is_Some (g_player s') <-> is_Some (g_player s)) /\
  (r = 0 -> running s /\ emu_get_audio_buffer_length s' = 2048) /\
  (r = 1 -> running s -> emu_get_audio_buffer_length s' < 2048) /\
  (~ running s -> r = 1 /\ s' = s).
Proof.
  intros Hreach Hc.
  destruct (reachable_inv s Hreach) as (_ & [Hacc Hrate] & _).
  apply emu_compute_spec in Hc; [|done..].
  unfold emu_get_audio_buffer_length, AUDIO_BUFFER_SIZE, SIZEOF_INT16 in *.
  destruct Hc as [(Hnot & -> & ->)|(Hrun & Hrun' & _ & Hun & Hcase)].
  { split_and!; try done. }
  destruct Hrun as (Hp & Ho & Hb). destruct Hrun' as (Hp' & _).
  split_and!; try done.
  - destruct Hcase as [(_ & _ & _ & ->)|(-> & _)]; [|done]. by intros _.
  - destruct Hcase as [(-> & _)|(_ & _ & m & Hm & ->)]; [done|]. intros _ _. lia.
  - intros Hnot. destruct Hnot. by split_and!.
Qed.




(** [emu_set_subsong] rewinds the player to the subsong, takes the
    subsong's length as the duration and sets the position to 0; without a
    player it does nothing.  It does not touch the clock: unlike after
    [emu_rewind], the next full block sets the position from the total
    accumulated before the call. *)
Theorem emu_set_subsong_spec (i : Z) (s : emu_state) :
  reachable s ->
  clock_of (emu_set_subsong i s) = clock_of s /\
  g_sampleRate (emu_set_subsong i s) = g_sampleRate s /\
  emu_metadata (emu_set_subsong i s) = emu_metadata s /\
  g_files (emu_set_subsong i s) = g_files s /\
  (g_player s = None -> emu_set_subsong i s = s) /\
  (forall p, g_player s = Some p ->
     exists opl, g_opl s = Some opl /\
       let rewound := rewind p opl i in
       let measured := songlength rewound.1 rewound.2 i in
       g_player (emu_set_subsong i s) = Some measured.1.2 /\
       g_opl (emu_set_subsong i s) = Some measured.2 /\
       emu_get_max_position (emu_set_subsong i s) = measured.1.1 /\
       emu_get_current_position (emu_set_subsong i s) = 0) /\
  (forall fuel s',
     emu_compute_audio_samples fuel (emu_set_subsong i s) = Some (0, s') ->
     g_currentPosition s' =
       position_of (wrap_ulong (g_totalSamplesGenerated s + AUDIO_BUFFER_SIZE))
         (g_sampleRate s)).
Proof.
  intros Hreach.
  assert (reachable (emu_set_subsong i s)) as Hreach'.
  { by apply (reach_call (CallSetSubsong i) s). }
  assert (clock_of (emu_set_subsong i s) = clock_of s /\
          g_sampleRate (emu_set_subsong i s) = g_sampleRate s /\
          emu_metadata (emu_set_subsong i s) = emu_metadata s /\
          g_files (emu_set_subsong i s) = g_files s)
    as (Hclock & Hrate & Hmeta & Hfiles).
  { unfold emu_set_subsong.
    destruct (g_player s) as [p|]; [|done].
    destruct (g_opl s) as [opl|]; [|done].
    destruct (rewind p opl i) as [p1 opl1].
    by destruct (songlength p1 opl1 i) as [[len p2] opl2]. }
  split_and!; try done.
  - unfold emu_set_subsong. by intros ->.
  - intros p Hp.
    destruct (reachable_inv s Hreach) as (_ & _ & [Hopl _] & _).
    destruct Hopl as [opl Hopl]; [by eexists|].
    exists opl. unfold emu_set_subsong. rewrite Hp, Hopl.
    destruct (rewind p opl i) as [p1 opl1]. simpl.
    by destruct (songlength p1 opl1 i) as [[len p2] opl2].
  - intros fuel s' Hc.
    destruct (reachable_inv _ Hreach') as (_ & [Hacc Hr] & _).
    apply emu_compute_spec in Hc; [|done..].
    destruct Hc as [(_ & ? & _)|(_ & _ & _ & _ & Hcase)]; [done|].
    destruct Hcase as [(_ & Ht & Hp & _)|(? & _)]; [|done].
    rewrite Hp, Ht. unfold clock_of in Hclock. congruence.
Qed.

End ComputeExtra.

Section ComputeExtraRun.
Import AdPlugAdapter Toy.

Lemma running_block1 : running block1.
Proof. vm_compute. split_and!; eauto. Qed.


Lemma audio_buffer_bounds_witness :
  reachable block3 /\
  emu_get_audio_buffer_length block3 = 1584 /\
  0 <= emu_get_audio_buffer_length block3 <= 2048 /\
  emu_get_audio_buffer_length block3 `mod` 4 = 0.
Proof.
  assert (reachable block3) as Hr by apply reachable_after_block, reachable_block2.
  pose proof (audio_buffer_bounds block3 Hr) as (_ & Hlen & Hmod & _).
  refine (conj Hr (conj _ (conj Hlen Hmod))). vm_compute. reflexivity.
Defined.

Lemma emu_compute_frame_witness :
  reachable block2 /\
  emu_compute_audio_samples 8 block2 = Some (1, block3) /\
  compute_untouched block3 = compute_untouched block2 /\
  (running block2 -> emu_get_audio_buffer_length block3 < 2048).
Proof.
  pose proof (emu_compute_frame 8 block2 block3 1 reachable_block2 run_block3)
    as (Hun & _ & _ & Hpartial & _).
  split_and!; [apply reachable_block2|apply run_block3|exact Hun|].
  by apply Hpartial.
Defined.





Lemma emu_set_subsong_spec_witness :
  reachable block1 /\
  g_currentPosition block1 = 10 /\
  emu_get_current_position (emu_set_subsong 0 block1) = 0 /\
  clock_of (emu_set_subsong 0 block1) = clock_of block1 /\
  forall s', emu_compute_audio_samples 8 (emu_set_subsong 0 block1)
             = Some (0, s') ->
    g_currentPosition s' =
      position_of (wrap_ulong (g_totalSamplesGenerated block1
                               + AUDIO_BUFFER_SIZE)) (g_sampleRate block1).
Proof.
  pose proof (emu_set_subsong_spec 0 block1 reachable_block1)
    as (Hclock & _ & _ & _ & _ & _ & Hnext).
  split_and!; [apply reachable_block1|vm_compute; reflexivity
              |vm_compute; reflexivity|exact Hclock|].
  intros s'. apply Hnext.
Defined.

End ComputeExtraRun.

(** ** The track-info strings *)

Lemma string_of_list_ascii_app l k :
  string_of_list_ascii (l ++ k)
  = (string_of_list_ascii l ++ string_of_list_ascii k)%string.
Proof. induction l as [|c l IH]; simpl; [done|by rewrite IH]. Qed.

Lemma string_of_list_ascii_length l :
  String.length (string_of_list_ascii l) = length l.
Proof. induction l as [|c l IH]; simpl; [done|by rewrite IH]. Qed.

(** The text of a well-formed field is shorter than its capacity. *)
Lemma field_text_fits cap buf :
  (0 < cap)%nat -> field_wf cap buf -> (length (until_nul buf) < cap)%nat.
Proof.
  intros Hcap [Hlen Hlast].
  assert (buf = take (cap - 1) buf ++ NUL :: []) as ->.
  { rewrite <- (take_drop (cap - 1) buf) at 1. f_equal.
    apply list_eq. intros [|i].
    - rewrite lookup_drop, Nat.add_0_r. done.
    - rewrite lookup_drop. simpl. rewrite lookup_nil.
      apply lookup_ge_None. lia. }
  clear Hlast.
  assert (forall l r, length (until_nul (l ++ NUL :: r)) <= length l)%nat as Hb.
  { clear. induction l as [|c l IH]; intros r; simpl; [done|].
    destruct (Ascii.eqb c NUL); simpl; [lia|]. specialize (IH r). lia. }
  specialize (Hb (take (cap - 1) buf) []).
  rewrite length_take in Hb. lia.
Qed.

Section TrackInfoAdPlug.
Context `{Lib : AdPlugAdapter.AdPlug}.
Import AdPlugAdapter.

(** In every reachable state each metadata text is shorter than its field
    (at most 255 characters, 1023 for the description), so the 2048-byte
    buffer of [emu_get_track_info] is never too small: the result is
    always the four texts joined by ['|'], without truncation, and has at
    most 1791 characters. *)
Theorem emu_get_track_info_joined (s : emu_state) :
  reachable s ->
  (String.length (field_text (g_title s)) <= 255)%nat /\
  (String.length (field_text (g_author s)) <= 255)%nat /\
  (String.length (field_text (g_type s)) <= 255)%nat /\
  (String.length (field_text (g_desc s)) <= 1023)%nat /\
  emu_get_track_info s =
    (field_text (g_title s) ++ "|" ++ field_text (g_author s) ++ "|" ++
     field_text (g_type s) ++ "|" ++ field_text (g_desc s))%string /\
  (String.length (emu_get_track_info s) <= 1791)%nat.
Proof.
  intros Hreach.
  destruct (reachable_inv s Hreach) as (_ & _ & _ & Ht & Ha & Hty & Hd).
  apply field_text_fits in Ht; [|unfold TITLE_CAP; lia].
  apply field_text_fits in Ha; [|unfold TITLE_CAP; lia].
  apply field_text_fits in Hty; [|unfold TITLE_CAP; lia].
  apply field_text_fits in Hd; [|unfold DESC_CAP; lia].
  unfold TITLE_CAP, DESC_CAP in *.
  unfold field_text. rewrite !string_of_list_ascii_length.
  assert (emu_get_track_info s =
            string_of_list_ascii
              (until_nul (g_title s) ++ ["|"%char] ++ until_nul (g_author s) ++
               ["|"%char] ++ until_nul (g_type s) ++ ["|"%char] ++
               until_nul (g_desc s))) as Hinfo.
  { unfold emu_get_track_info. f_equal. apply take_ge.
    rewrite !length_app. simpl. lia. }
  split_and!; [lia..| |].
  - rewrite Hinfo. by rewrite !string_of_list_ascii_app.
  - rewrite Hinfo, string_of_list_ascii_length, !length_app. simpl. lia.
Qed.

End TrackInfoAdPlug.

Section TrackInfoMpt.
Context `{Lib : OpenMPTAdapter.OpenMPT}.
Import OpenMPTAdapter.

Lemma field_wf_cleared cap dst :
  (1 < cap)%nat -> field_wf cap dst -> field_wf cap (<[0%nat := NUL]> dst).
Proof.
  intros Hcap [Hlen Hlast]. split; [by rewrite length_insert|].
  rewrite list_lookup_insert_ne by lia. done.
Qed.

Lemma field_wf_store_metadata dst value :
  field_wf TITLE_CAP dst -> field_wf TITLE_CAP (store_metadata dst value).
Proof.
  intros Hwf. destruct value as [v|]; unfold store_metadata.
  - destruct Hwf as [Hlen _]. split.
    + by rewrite length_insert, strncpy_length.
    + apply list_lookup_insert_eq. rewrite strncpy_length, Hlen.
      unfold TITLE_CAP. lia.
  - apply field_wf_cleared; [unfold TITLE_CAP; lia|done].
Qed.

Lemma mpt_run_fields_wf c s : mpt_fields_wf s -> mpt_fields_wf (mpt_run c s).
Proof.
  intros (Ht & Ha & Hty & Hi).
  destruct c as [r| |f d n| |t| |k|]; cbn [mpt_run]; try done.
  - unfold mpt_fields_wf, mpt_init. cbn -[TITLE_CAP INFO_CAP].
    split_and!; try (apply field_wf_cleared; [unfold TITLE_CAP; lia|done]).
    by rewrite length_insert.
  - destruct d as [bytes|]; [|done].
    destruct (Z.leb_spec n 0) as [Hle|Hn].
    { by rewrite mpt_load_file_invalid by auto. }
    rewrite mpt_load_file_valid by done.
    destruct (openmpt_module_create_from_memory2 bytes n); [|done].
    unfold mpt_fields_wf. cbn -[TITLE_CAP INFO_CAP store_metadata].
    split_and!; try done; by apply field_wf_store_metadata.
  - unfold mpt_compute_audio_samples.
    destruct (g_module s) as [m|]; [|done].
    destruct (g_audioBuffer s) as [buf|]; [|done].
    destruct (openmpt_module_read_interleaved_float_stereo _ _ _)
      as [[frames samples] m'].
    by destruct (frames =? 0).
  - unfold mpt_set_position_seconds. by destruct (g_module s).
  - unfold mpt_fields_wf. cbn -[TITLE_CAP INFO_CAP].
    split_and!; try done. by rewrite length_inserts.
  - unfold mpt_set_repeat_count. simpl. by destruct (g_module s).
  - unfold mpt_rewind. by destruct (g_module s).
Qed.

Lemma mpt_reachable_fields_wf s : mpt_reachable s -> mpt_fields_wf s.
Proof.
  induction 1 as [|c s _ IH]; [|by apply mpt_run_fields_wf].
  unfold mpt_fields_wf, mpt_initial. cbn -[replicate].
  unfold TITLE_CAP, INFO_CAP.
  refine (conj _ (conj _ (conj _ _)));
    try (apply field_wf_initial; lia); apply length_replicate.
Qed.

(** In every reachable state of the libopenmpt adapter each metadata text
    has at most 255 characters, so [mpt_get_track_info] never truncates:
    it returns the three texts joined by ['|'], at most 767 characters,
    and the text it leaves in [g_trackInfo] is the one it returns.  It
    writes nothing else. *)
Theorem mpt_get_track_info_joined (s : mpt_state) :
  mpt_reachable s ->
  (mpt_get_track_info s).1 =
    (field_text (g_title s) ++ "|" ++ field_text (g_artist s) ++ "|" ++
     field_text (g_type s))%string /\
  (String.length (mpt_get_track_info s).1 <= 767)%nat /\
  field_text (g_trackInfo (mpt_get_track_info s).2)
    = (mpt_get_track_info s).1 /\
  length (g_trackInfo (mpt_get_track_info s).2) = INFO_CAP /\
  (forall v, set_g_trackInfo v (mpt_get_track_info s).2 = set_g_trackInfo v s).
Proof.
  intros Hreach.
  destruct (mpt_reachable_fields_wf s Hreach) as (Ht & Ha & Hty & Hi).
  apply field_text_fits in Ht; [|unfold TITLE_CAP; lia].
  apply field_text_fits in Ha; [|unfold TITLE_CAP; lia].
  apply field_text_fits in Hty; [|unfold TITLE_CAP; lia].
  unfold TITLE_CAP, INFO_CAP in *.
  set (text := until_nul (g_title s) ++ ["|"%char] ++
               until_nul (g_artist s) ++ ["|"%char] ++ until_nul (g_type s)).
  assert (length text <= 767)%nat as Hlen.
  { subst text. rewrite !length_app. simpl. lia. }
  assert (Forall (λ c, c ≠ NUL) text) as Hclean.
  { subst text. repeat apply Forall_app_2; try apply until_nul_no_nul;
      by repeat constructor. }
  assert (mpt_get_track_info s =
            (string_of_list_ascii text,
             set_g_trackInfo (list_inserts 0 (text ++ [NUL]) (g_trackInfo s)) s))
    as ->.
  { unfold mpt_get_track_info, INFO_CAP. fold text.
    rewrite (take_ge text) by lia. done. }
  cbn [fst snd].
  split_and!.
  - subst text. unfold field_text. by rewrite !string_of_list_ascii_app.
  - by rewrite string_of_list_ascii_length.
  - unfold field_text. f_equal. simpl.
    rewrite <- (take_drop (length (text ++ [NUL])) (g_trackInfo s)).
    rewrite list_inserts_0_r.
    2:{ rewrite length_take. rewrite Hi, length_app. simpl. lia. }
    rewrite <- app_assoc. simpl. by apply until_nul_app_nul.
  - simpl. by rewrite length_inserts.
  - intros v. by destruct s.
Qed.

End TrackInfoMpt.

Section TrackInfoRun.
Import Toy.

Lemma emu_get_track_info_joined_witness :
  AdPlugAdapter.reachable loaded /\
  AdPlugAdapter.emu_get_track_info loaded = "T|toy|TOY|"%string /\
  AdPlugAdapter.emu_get_track_info loaded =
    (field_text (AdPlugAdapter.g_title loaded) ++ "|" ++
     field_text (AdPlugAdapter.g_author loaded) ++ "|" ++
     field_text (AdPlugAdapter.g_type loaded) ++ "|" ++
     field_text (AdPlugAdapter.g_desc loaded))%string.
Proof.
  pose proof (emu_get_track_info_joined loaded reachable_loaded)
    as (_ & _ & _ & _ & Hinfo & _).
  split_and!; [apply reachable_loaded|vm_compute; reflexivity|exact Hinfo].
Defined.

Lemma mpt_reachable_loaded : OpenMPTAdapter.mpt_reachable mpt_loaded.
Proof.
  exact (OpenMPTAdapter.mpt_reach_call
           (OpenMPTAdapter.MptLoadFile (Some "tune.mod"%string)
              (Some demo_module) 3) _
           (OpenMPTAdapter.mpt_reach_call (OpenMPTAdapter.MptInit 48000) _
              OpenMPTAdapter.mpt_reach_initial)).
Qed.

Lemma mpt_get_track_info_joined_witness :
  OpenMPTAdapter.mpt_reachable mpt_loaded /\
  (OpenMPTAdapter.mpt_get_track_info mpt_loaded).1 = "T||"%string /\
  field_text (OpenMPTAdapter.g_trackInfo
                (OpenMPTAdapter.mpt_get_track_info mpt_loaded).2)
    = (OpenMPTAdapter.mpt_get_track_info mpt_loaded).1.
Proof.
  pose proof (mpt_get_track_info_joined mpt_loaded mpt_reachable_loaded)
    as (_ & _ & Hstored & _).
  split_and!; [apply mpt_reachable_loaded|vm_compute; reflexivity|exact Hstored].
Defined.

End TrackInfoRun.

(** ** Opening and closing streams *)

Lemma provider_initial_wf : provider_wf provider_initial.
Proof.
  split_and!; simpl.
  - intros f a Hf. by rewrite lookup_empty in Hf.
  - intros a [b Ha]. by rewrite lookup_empty in Ha.
  - intros f g a Hf. by rewrite lookup_empty in Hf.
Qed.

Lemma provider_fresh prov :
  provider_wf prov ->
  copies prov !! fresh (dom (copies prov)) = None /\
  stream_objects prov !! fresh (dom (stream_objects prov)) = None /\
  m_streamBuffers prov !! fresh (dom (stream_objects prov)) = None.
Proof.
  intros (Hlive & _). split_and!; try apply not_elem_of_dom, is_fresh.
  destruct (m_streamBuffers prov !! _) as [b|] eqn:Hb; [|done].
  destruct (Hlive _ b Hb) as [(o & Ho & _) _].
  pose proof (is_fresh (dom (stream_objects prov))) as Hf.
  destruct Hf. apply elem_of_dom. by eexists.
Qed.

Lemma open_stream_wf files h filename prov :
  provider_wf prov ->
  provider_wf (CProvider_Memory_open_stream files h filename prov).2.
Proof.
  intros Hwf. destruct (provider_fresh prov Hwf) as (Ha & Hf & Hft).
  destruct Hwf as (Hlive & Hown & Hinj). unfold CProvider_Memory_open_stream.
  destruct (open_find files filename) as [[k fd]|]; [|done]. simpl.
  set (a := fresh (dom (copies prov))) in *.
  set (f := fresh (dom (stream_objects prov))) in *.
  split_and!; simpl.
  - intros g b Hg. apply lookup_insert_Some in Hg as [[<- <-]|[Hne Hg]].
    + rewrite !lookup_insert_eq. split; by eexists.
    + destruct (Hlive g b Hg) as [(o & Ho & Hd) [c Hc]].
      rewrite !lookup_insert_ne by congruence. split; by eexists.
  - intros b [c Hb]. apply lookup_insert_Some in Hb as [[<- <-]|[Hne Hb]].
    + exists f. by rewrite lookup_insert_eq.
    + destruct (Hown b) as [g Hg]; [by eexists|]. exists g.
      rewrite lookup_insert_ne; [done|]. congruence.
  - intros g1 g2 b H1 H2.
    apply lookup_insert_Some in H1 as [[E1 B1]|[Hne1 H1]];
      apply lookup_insert_Some in H2 as [[E2 B2]|[Hne2 H2]].
    + congruence.
    + subst b. destruct (Hlive g2 a H2) as [_ [c Hc]]. congruence.
    + subst b. destruct (Hlive g1 a H1) as [_ [c Hc]]. congruence.
    + by eapply Hinj.
Qed.

Lemma close_wf f prov :
  provider_wf prov -> provider_wf (CProvider_Memory_close f prov).
Proof.
  intros (Hlive & Hown & Hinj). destruct f as [f|]; [|done].
  unfold CProvider_Memory_close, delete_block.
  destruct (m_streamBuffers prov !! f) as [a|] eqn:Hf; simpl.
  - split_and!; simpl.
    + intros g b Hg. apply lookup_delete_Some in Hg as [Hne Hg].
      destruct (Hlive g b Hg) as [(o & Ho & Hd) [c Hc]].
      rewrite !lookup_delete_ne; [split; by eexists|..]; try done.
      intros <-. apply Hne. by eapply Hinj.
    + intros b [c Hb]. apply lookup_delete_Some in Hb as [Hne Hb].
      destruct (Hown b) as [g Hg]; [by eexists|]. exists g.
      rewrite lookup_delete_ne; [done|]. intros <-. congruence.
    + intros g1 g2 b H1 H2.
      apply lookup_delete_Some in H1 as [_ H1].
      apply lookup_delete_Some in H2 as [_ H2]. by eapply Hinj.
  - split_and!; simpl; [|done|done].
    intros g b Hg. destruct (Hlive g b Hg) as [(o & Ho & Hd) Hc].
    split; [|done]. rewrite lookup_delete_ne; [by eexists|].
    intros <-. congruence.
Qed.

(** [open] and the stream it returns.  The stream is null exactly when the
    three-tier lookup finds nothing, and the provider is then unchanged.
    Otherwise the new stream reads the bytes of the entry found, the
    streams in the table keep their bytes, and closing the new stream
    frees its copy and gives back the provider as it was before the
    [open]. *)
Theorem open_close_round_trip (files : gmap string FileData) (h : heap_t)
    (filename : string) (prov : provider) :
  provider_wf prov ->
  let r := CProvider_Memory_open_stream files h filename prov in
  provider_wf r.2 /\
  (r.1 = None <-> CProvider_Memory_open files h filename = None) /\
  (r.1 = None -> r.2 = prov) /\
  (forall f, r.1 = Some f ->
     stream_objects prov !! f = None /\
     stream_bytes r.2 f = CProvider_Memory_open files h filename /\
     (forall g, is_Some (m_streamBuffers prov !! g) ->
                stream_bytes r.2 g = stream_bytes prov g) /\
     base.size (copies r.2) = S (base.size (copies prov)) /\
     CProvider_Memory_close (Some f) r.2 = prov).
Proof.
  intros Hwf r.
  split; [by apply open_stream_wf|]. subst r.
  destruct (provider_fresh prov Hwf) as (Ha & Hf & Hft).
  destruct Hwf as (Hlive & Hown & Hinj).
  unfold CProvider_Memory_open_stream, CProvider_Memory_open.
  destruct (open_find files filename) as [[k fd]|]; [|done]. simpl.
  set (a := fresh (dom (copies prov))) in *.
  set (f := fresh (dom (stream_objects prov))) in *.
  split_and!; [done|done|]. intros f' [= <-].
  split_and!.
  - done.
  - unfold stream_bytes. simpl. rewrite !lookup_insert_eq. simpl.
    unfold file_bytes. rewrite take_take. f_equal. f_equal. lia.
  - intros g [b Hg]. unfold stream_bytes. simpl.
    destruct (Hlive g b Hg) as [(o & Ho & Hd) [c Hc]].
    rewrite lookup_insert_ne by congruence. rewrite Ho.
    rewrite lookup_insert_ne; [done|]. congruence.
  - simpl. by rewrite map_size_insert_None.
  - unfold CProvider_Memory_close. simpl. rewrite lookup_insert_eq. simpl.
    unfold delete_block. rewrite !delete_insert_id by done. by destruct prov.
Qed.

Lemma clear_lookup (table : gmap positive positive)
    (h : gmap positive (list byte)) a :
  h !! a = None \/ (exists f, table !! f = Some a) ->
  map_fold (λ _ buffer acc, delete_block acc buffer) h table !! a = None.
Proof.
  induction table as [|f b table Hf Hfirst IH] using map_first_key_ind.
  - rewrite map_fold_empty. intros [H|(f & Hf)]; [done|].
    by rewrite lookup_empty in Hf.
  - intros H. rewrite map_fold_insert_first_key by done.
    unfold delete_block at 1.
    destruct (decide (b = a)) as [<-|Hne]; [by rewrite lookup_delete_eq|].
    rewrite lookup_delete_ne by done. apply IH.
    destruct H as [H|(g & Hg)]; [by left|right].
    apply lookup_insert_Some in Hg as [[<- <-]|[_ Hg]]; [done|].
    by exists g.
Qed.

(** [close] frees at most the one copy the table holds for the stream and
    erases the entry, so that no later [clearBuffers] finds the copy again;
    the other streams of the table keep their bytes.  A null stream is
    ignored, and for a stream that is not in the table, as after
    [clearBuffers], no copy is freed.  [clearBuffers] frees every copy and
    empties the table. *)
Theorem close_frees_once (prov : provider) (f : addr) :
  provider_wf prov ->
  CProvider_Memory_close None prov = prov /\
  provider_wf (CProvider_Memory_close (Some f) prov) /\
  (forall a, m_streamBuffers prov !! f = Some a ->
     copies (CProvider_Memory_close (Some f) prov) = delete a (copies prov) /\
     S (base.size (copies (CProvider_Memory_close (Some f) prov)))
       = base.size (copies prov) /\
     forall g, g <> f -> is_Some (m_streamBuffers prov !! g) ->
       stream_bytes (CProvider_Memory_close (Some f) prov) g
       = stream_bytes prov g) /\
  (m_streamBuffers prov !! f = None ->
     copies (CProvider_Memory_close (Some f) prov) = copies prov) /\
  m_streamBuffers (CProvider_Memory_close (Some f) prov) !! f = None /\
  m_streamBuffers (CProvider_Memory_clearBuffers prov) = ∅ /\
  copies (CProvider_Memory_clearBuffers prov) = ∅ /\
  copies (CProvider_Memory_close (Some f) (CProvider_Memory_clearBuffers prov))
    = ∅.
Proof.
  intros Hwf.
  assert (copies (CProvider_Memory_clearBuffers prov) = ∅) as Hclear.
  { destruct Hwf as (_ & Hown & _). simpl. apply map_empty. intros a.
    apply clear_lookup.
    destruct (copies prov !! a) eqn:Ha; [right|by left].
    apply Hown. by eexists. }
  split_and!; [done|by apply close_wf| | | |done|done|].
  - intros a Hf. destruct Hwf as (Hlive & Hown & Hinj).
    destruct (Hlive f a Hf) as [_ [c Hc]].
    unfold CProvider_Memory_close, delete_block. rewrite Hf. simpl.
    split_and!; [done| |].
    + rewrite <- (insert_delete_id (copies prov) a c Hc) at 2.
      rewrite map_size_insert_None; [done|apply lookup_delete_eq].
    + intros g Hne [b Hg]. unfold stream_bytes. simpl.
      destruct (Hlive g b Hg) as [(o & Ho & Hd) _].
      rewrite lookup_delete_ne by done. rewrite Ho.
      rewrite lookup_delete_ne; [done|].
      intros Heq. apply Hne. eapply Hinj; [exact Hg|]. congruence.
  - intros Hf. unfold CProvider_Memory_close. by rewrite Hf.
  - unfold CProvider_Memory_close, delete_block.
    destruct (m_streamBuffers prov !! f) as [a|] eqn:Hf; simpl; [|done].
    apply lookup_delete_eq.
  - unfold CProvider_Memory_close. cbn [m_streamBuffers CProvider_Memory_clearBuffers].
    rewrite lookup_empty. exact Hclear.
Qed.

Section ProviderRun.
Import Toy.

Lemma open_close_round_trip_witness :
  provider_wf provider_initial /\
  (CProvider_Memory_open_stream demo_files demo_heap "x\standard.bnk"
     provider_initial).1 = Some 1%positive /\
  stream_bytes (CProvider_Memory_open_stream demo_files demo_heap
                  "x\standard.bnk" provider_initial).2 1%positive
    = CProvider_Memory_open demo_files demo_heap "x\standard.bnk" /\
  CProvider_Memory_close (Some 1%positive)
    (CProvider_Memory_open_stream demo_files demo_heap "x\standard.bnk"
       provider_initial).2 = provider_initial.
Proof.
  assert ((CProvider_Memory_open_stream demo_files demo_heap "x\standard.bnk"
             provider_initial).1 = Some 1%positive) as Hopen
    by (vm_compute; reflexivity).
  pose proof (open_close_round_trip demo_files demo_heap "x\standard.bnk"
                provider_initial provider_initial_wf) as (_ & _ & _ & Hf).
  destruct (Hf 1%positive Hopen) as (_ & Hbytes & _ & _ & Hclose).
  split_and!; [apply provider_initial_wf|exact Hopen|exact Hbytes|exact Hclose].
Defined.

Lemma close_frees_once_witness :
  let opened := (CProvider_Memory_open_stream demo_files demo_heap
                   "STANDARD.BNK" provider_initial).2 in
  provider_wf opened /\
  m_streamBuffers opened !! 1%positive = Some 1%positive /\
  copies (CProvider_Memory_close (Some 1%positive) opened)
    = delete 1%positive (copies opened) /\
  m_streamBuffers (CProvider_Memory_close (Some 1%positive) opened)
    !! 1%positive = None.
Proof.
  intros opened.
  assert (provider_wf opened) as Hwf
    by apply open_stream_wf, provider_initial_wf.
  assert (m_streamBuffers opened !! 1%positive = Some 1%positive) as Hf
    by (vm_compute; reflexivity).
  pose proof (close_frees_once opened 1%positive Hwf)
    as (_ & _ & Hfree & _ & Htwice & _).
  destruct (Hfree _ Hf) as (Hcopies & _).
  split_and!; [exact Hwf|exact Hf|exact Hcopies|exact Htwice].
Defined.

End ProviderRun.

(** ** The libopenmpt adapter: life cycle, rendering and repeat count *)

Section MptExtra.
Context `{Lib : OpenMPTAdapter.OpenMPT}.
Import OpenMPTAdapter.


Lemma mpt_init_audio r s :
  0 < g_sampleRate (mpt_init r s).2 /\
  g_audioBuffer (mpt_init r s).2
    = Some (replicate (Z.to_nat (AUDIO_BUFFER_FRAMES * 2)) 0%Q).
Proof.
  unfold mpt_init. cbn -[replicate Z.to_nat]. split; [|done].
  destruct (Z.ltb_spec 0 r); [done|]. unfold DEFAULT_SAMPLE_RATE. lia.
Qed.

Lemma mpt_load_file_frame f d n s :
  g_sampleRate (mpt_load_file f d n s).2 = g_sampleRate s /\
  g_audioBuffer (mpt_load_file f d n s).2 = g_audioBuffer s /\
  g_repeatCount (mpt_load_file f d n s).2 = g_repeatCount s.
Proof.
  destruct d as [bytes|]; [|by rewrite mpt_load_file_invalid by auto].
  destruct (Z.le_gt_cases n 0) as [Hn|Hn];
    [by rewrite mpt_load_file_invalid by auto|].
  rewrite mpt_load_file_valid by lia.
  by destruct (openmpt_module_create_from_memory2 bytes n).
Qed.

Lemma mpt_load_file_module f d n s m :
  g_module (mpt_load_file f d n s).2 = Some m ->
  g_module s = Some m \/
  exists m0, m = openmpt_module_set_repeat_count m0 (g_repeatCount s).
Proof.
  destruct d as [bytes|]; [|rewrite mpt_load_file_invalid by auto; auto].
  destruct (Z.le_gt_cases n 0) as [Hn|Hn];
    [rewrite mpt_load_file_invalid by auto; auto|].
  rewrite mpt_load_file_valid by lia.
  destruct (openmpt_module_create_from_memory2 bytes n) as [m0|]; [|done].
  simpl. intros [= <-]. right. by exists m0.
Qed.

Lemma mpt_compute_frame s :
  length <$> g_audioBuffer (mpt_compute_audio_samples s).2
    = length <$> g_audioBuffer s /\
  g_sampleRate (mpt_compute_audio_samples s).2 = g_sampleRate s /\
  g_repeatCount (mpt_compute_audio_samples s).2 = g_repeatCount s.
Proof.
  unfold mpt_compute_audio_samples.
  destruct (g_module s) as [m|]; [|done].
  destruct (g_audioBuffer s) as [buf|] eqn:Hb; [|by rewrite <- Hb].
  destruct (openmpt_module_read_interleaved_float_stereo m (g_sampleRate s)
              AUDIO_BUFFER_FRAMES) as [[framesRead samples] m'].
  destruct (framesRead =? 0); simpl; by rewrite length_inserts.
Qed.


(** [mpt_teardown] leaves no module and no audio buffer.  Tearing down
    again changes nothing; afterwards position and duration read 0,
    seeking, rewinding and rendering change nothing, and rendering reports
    the end.  Sample rate, repeat count and the text fields survive. *)
Theorem mpt_teardown_spec (s : mpt_state) :
  let t := mpt_teardown s in
  g_module t = None /\ mpt_get_audio_buffer t = None /\
  mpt_get_audio_buffer_frames t = 0 /\
  mpt_teardown t = t /\
  mpt_compute_audio_samples t = (1, t) /\
  mpt_get_position_seconds t = 0%Q /\
  mpt_get_duration_seconds t = 0%Q /\
  (forall seconds, mpt_set_position_seconds seconds t = t) /\
  mpt_rewind t = t /\
  mpt_get_sample_rate t = mpt_get_sample_rate s /\
  g_repeatCount t = g_repeatCount s /\
  mpt_metadata t = mpt_metadata s /\
  g_trackInfo t = g_trackInfo s.
Proof. intros t. subst t. by split_and!. Qed.

(** Every outcome of [mpt_load_file].  The status is 0 or -1, and it is 0
    exactly when the data pointer is not null, the size is positive and the
    library creates a module; the module kept is then the created one with
    the stored repeat count applied.  A failed call leaves the session as
    it was, except that a call that reached the library has destroyed the
    module that was loaded.  No call touches the sample rate, the audio
    buffer, the frame count, the repeat count or the track info buffer. *)
Theorem mpt_load_file_outcome (filename : option string)
    (data : option (list byte)) (n : Z) (s : mpt_state) :
  let r := mpt_load_file filename data n s in
  (r.1 = 0 \/ r.1 = -1) /\
  (r.1 = 0 <->
   exists bytes m0, data = Some bytes /\ 0 < n /\
     openmpt_module_create_from_memory2 bytes n = Some m0 /\
     g_module r.2
       = Some (openmpt_module_set_repeat_count m0 (g_repeatCount s))) /\
  (r.1 = -1 ->
   (data = None \/ n <= 0) /\ r.2 = s \/
   (exists bytes, data = Some bytes /\ 0 < n /\
      openmpt_module_create_from_memory2 bytes n = None) /\
   r.2 = set_g_module None s) /\
  g_sampleRate r.2 = g_sampleRate s /\
  g_audioBuffer r.2 = g_audioBuffer s /\
  g_audioBufferFrames r.2 = g_audioBufferFrames s /\
  g_repeatCount r.2 = g_repeatCount s /\
  g_trackInfo r.2 = g_trackInfo s.
Proof.
  intros r. subst r.
  destruct data as [bytes|].
  2:{ rewrite mpt_load_file_invalid by auto. simpl.
      split_and!; try done; [by right| |by left; auto].
      split; [done|]. intros (b & m0 & Hb & _). done. }
  destruct (Z.le_gt_cases n 0) as [Hn|Hn].
  { rewrite mpt_load_file_invalid by auto. simpl.
    split_and!; try done; [by right| |by left; auto].
    split; [done|]. intros (b & m0 & _ & Hn' & _). lia. }
  rewrite mpt_load_file_valid by lia.
  destruct (openmpt_module_create_from_memory2 bytes n) as [m0|] eqn:Hm; simpl.
  - split_and!; try done; [by left|].
    split; [|done]. intros _. exists bytes, m0. by split_and!.
  - split_and!; try done; [by right| |].
    + split; [done|]. intros (b & m0 & [= <-] & _ & Hm0 & _). congruence.
    + intros _. right. split; [|done]. exists bytes. by split_and!.
Qed.

(** [mpt_compute_audio_samples] returns 0 or 1, and 1 exactly when it
    leaves a frame count of 0: no module, no buffer, or a read of no
    frames.  It keeps the sample rate, the repeat count and every text
    field, never loads or drops a module, and never allocates, frees or
    resizes the audio buffer. *)
Theorem mpt_compute_result (s : mpt_state) :
  let r := mpt_compute_audio_samples s in
  (r.1 = 0 \/ r.1 = 1) /\
  (r.1 = 1 <-> mpt_get_audio_buffer_frames r.2 = 0) /\
  (g_module s = None \/ g_audioBuffer s = None -> r = (1, set_g_audioBufferFrames 0 s)) /\
  (is_Some (g_module r.2) <-> is_Some (g_module s)) /\
  length <$> g_audioBuffer r.2 = length <$> g_audioBuffer s /\
  g_sampleRate r.2 = g_sampleRate s /\
  g_repeatCount r.2 = g_repeatCount s /\
  mpt_metadata r.2 = mpt_metadata s /\
  g_trackInfo r.2 = g_trackInfo s.
Proof.
  intros r. subst r. unfold mpt_compute_audio_samples, mpt_get_audio_buffer_frames.
  destruct (g_module s) as [m|] eqn:Hm.
  2:{ simpl. unfold mpt_metadata. simpl. rewrite Hm. split_and!; try done. by right. }
  destruct (g_audioBuffer s) as [buf|] eqn:Hb.
  2:{ simpl. unfold mpt_metadata. simpl. rewrite Hm, Hb. split_and!; try done. by right. }
  destruct (openmpt_module_read_interleaved_float_stereo m (g_sampleRate s)
              AUDIO_BUFFER_FRAMES) as [[framesRead samples] m'].
  assert (is_Some (Some m') <-> is_Some (Some m)) as Hsome
    by (split; intros _; by eexists).
  destruct (Z.eqb_spec framesRead 0) as [->|Hne]; simpl.
  - refine (conj _ (conj _ (conj _ (conj Hsome (conj _ _))))).
    + by right.
    + done.
    + by intros [?|?].
    + f_equal. by rewrite length_inserts.
    + done.
  - refine (conj _ (conj _ (conj _ (conj Hsome (conj _ _))))).
    + by left.
    + done.
    + by intros [?|?].
    + f_equal. by rewrite length_inserts.
    + done.
Qed.

Lemma mpt_run_audio_wf c s : mpt_audio_wf s -> mpt_audio_wf (mpt_run c s).
Proof.
  intros [Hrate Hbuf].
  destruct c as [r| |f d n| |t| |k|]; cbn [mpt_run].
  - pose proof (mpt_init_audio r s) as (Hpos & Hb).
    split; [exact Hpos|]. intros buf Hbuf'.
    assert (Some buf = Some (replicate (Z.to_nat (AUDIO_BUFFER_FRAMES * 2)) 0%Q))
      as Heq by (by rewrite <- Hb, <- Hbuf').
    apply (f_equal (fmap length)) in Heq. cbn [fmap option_fmap option_map] in Heq.
    rewrite length_replicate in Heq. congruence.
  - split; [done|]. intros buf Hbuf'. done.
  - pose proof (mpt_load_file_frame f d n s) as (Hr & Hb & _).
    split; [by rewrite Hr|]. intros buf. rewrite Hb. apply Hbuf.
  - pose proof (mpt_compute_frame s) as (Hb & Hr & _).
    split; [by rewrite Hr|]. intros buf Hbuf'.
    rewrite Hbuf' in Hb. simpl in Hb.
    destruct (g_audioBuffer s) as [buf0|] eqn:Hb0; [|done].
    injection Hb as ->. by apply Hbuf.
  - unfold mpt_set_position_seconds. by destruct (g_module s).
  - done.
  - unfold mpt_set_repeat_count. simpl. by destruct (g_module s).
  - unfold mpt_rewind. by destruct (g_module s).
Qed.

(** Whatever the calls made, the sample rate handed to the library is
    positive and the audio buffer, when there is one, has room for the
    1024 stereo frames a read may write. *)
Theorem mpt_audio_invariant (s : mpt_state) :
  mpt_reachable s -> mpt_audio_wf s.
Proof.
  induction 1 as [|c s _ IH].
  - split; [done|]. intros buf Hbuf. done.
  - by apply mpt_run_audio_wf.
Qed.

(** The repeat count.  Of all the calls only [mpt_set_repeat_count] changes
    the stored count; [mpt_init] and [mpt_teardown] keep it.  When the
    library keeps a module's repeat count across reads and seeks, a loaded
    module always plays with the stored count, whether the count was set
    before or after the load. *)
Theorem repeat_count_applied (rc : openmpt_module -> Z) (s : mpt_state) :
  (forall m n, rc (openmpt_module_set_repeat_count m n) = n) ->
  (forall m t, rc (openmpt_module_set_position_seconds m t) = rc m) ->
  (forall m rate count,
     rc (openmpt_module_read_interleaved_float_stereo m rate count).2 = rc m) ->
  mpt_reachable s ->
  repeat_applied rc s /\
  forall c, g_repeatCount (mpt_run c s)
            = match c with
              | MptSetRepeatCount count => count
              | _ => g_repeatCount s
              end.
Proof.
  intros Hset Hseek Hread Hs. split.
  - induction Hs as [|c s Hs IH]; [by intros m Hm|].
    intros m. destruct c as [r| |f d n| |t| |k|]; cbn [mpt_run].
    + done.
    + done.
    + pose proof (mpt_load_file_frame f d n s) as (_ & _ & Hrc).
      intros Hm. rewrite Hrc.
      apply mpt_load_file_module in Hm as [Hm|[m0 ->]]; [by apply IH|].
      apply Hset.
    + unfold mpt_compute_audio_samples.
      destruct (g_module s) as [m1|] eqn:Hm; [|by simpl; rewrite Hm].
      destruct (g_audioBuffer s) as [buf|];
        [|simpl; rewrite Hm; intros [= <-]; by apply IH].
      pose proof (Hread m1 (g_sampleRate s) AUDIO_BUFFER_FRAMES) as Hr.
      destruct (openmpt_module_read_interleaved_float_stereo m1 (g_sampleRate s)
                  AUDIO_BUFFER_FRAMES) as [[framesRead samples] m'].
      simpl in Hr.
      destruct (framesRead =? 0); simpl; intros [= <-];
        rewrite Hr; by apply IH.
    + unfold mpt_set_position_seconds.
      destruct (g_module s) as [m1|] eqn:Hm; simpl; [|by rewrite Hm].
      intros [= <-]. rewrite Hseek. by apply IH.
    + simpl. apply IH.
    + unfold mpt_set_repeat_count. simpl.
      destruct (g_module s) as [m1|] eqn:Hm; simpl; [|by rewrite Hm].
      intros [= <-]. by rewrite Hset.
    + unfold mpt_rewind.
      destruct (g_module s) as [m1|] eqn:Hm; simpl; [|by rewrite Hm].
      intros [= <-]. rewrite Hseek. by apply IH.
  - intros c. destruct c as [r| |f d n| |t| |k|]; cbn [mpt_run]; try done.
    + apply mpt_load_file_frame.
    + apply mpt_compute_frame.
    + unfold mpt_set_position_seconds. by destruct (g_module s).
    + unfold mpt_set_repeat_count. simpl. by destruct (g_module s).
    + unfold mpt_rewind. by destruct (g_module s).
Qed.

End MptExtra.

Section MptExtraRun.
Import Toy.

Lemma mpt_audio_invariant_witness :
  OpenMPTAdapter.mpt_reachable mpt_loaded /\
  mpt_audio_wf mpt_loaded.
Proof.
  split; [apply mpt_reachable_loaded|].
  apply (mpt_audio_invariant mpt_loaded), mpt_reachable_loaded.
Defined.

Lemma repeat_count_applied_witness :
  OpenMPTAdapter.mpt_reachable mpt_loaded /\
  @repeat_applied toy_openmpt repeat
    (OpenMPTAdapter.mpt_run (OpenMPTAdapter.MptSetRepeatCount 2) mpt_loaded) /\
  OpenMPTAdapter.g_repeatCount
    (OpenMPTAdapter.mpt_run (OpenMPTAdapter.MptSetRepeatCount 2) mpt_loaded) = 2.
Proof.
  assert (OpenMPTAdapter.mpt_reachable
            (OpenMPTAdapter.mpt_run (OpenMPTAdapter.MptSetRepeatCount 2)
               mpt_loaded)) as Hnext
    by apply OpenMPTAdapter.mpt_reach_call, mpt_reachable_loaded.
  split_and!; [apply mpt_reachable_loaded| |].
  - apply (@repeat_count_applied toy_openmpt repeat _
             (λ m n, eq_refl) (λ m t, eq_refl) (λ m rate count, eq_refl) Hnext).
  - apply (proj2 (@repeat_count_applied toy_openmpt repeat mpt_loaded
             (λ m n, eq_refl) (λ m t, eq_refl) (λ m rate count, eq_refl)
             mpt_reachable_loaded) (OpenMPTAdapter.MptSetRepeatCount 2)).
Defined.

End MptExtraRun.

(** ** The loop flag *)

Section LoopFlag.
Context `{Lib : AdPlugAdapter.AdPlug}.
Import AdPlugAdapter.









End LoopFlag.
